(** * Streaming chat transport, token accumulation, timestamp grammar,
      seek coordination and document status polling of the document Q&A
      front end.

    The development embeds the TypeScript sources
    [frontend/src/components/ChatInterface.tsx],
    [frontend/src/hooks/useWebSocket.ts],
    [frontend/src/components/MediaPlayer.tsx] and [frontend/src/App.tsx]
    as state-passing functions and proves (or refutes) the properties the
    design document states about them. *)

From Stdlib Require Import NArith ZArith List Lia String Ascii Bool SpecFloat.
From stdpp Require Import base option list.
From Equations Require Import Equations.
Import ListNotations.

Set Default Proof Using "Type".

(** ** JavaScript strings

    A JavaScript string is a sequence of UTF-16 code units.  Literals of
    the sources are written [js "..."]. *)

Definition jsstring := list N.

Definition js (s : string) : jsstring :=
  map N_of_ascii (list_ascii_of_string s).

Open Scope N_scope.

(** [\d] of a regular expression without the [u] flag: the ASCII digits. *)
Definition is_digit (c : N) : bool := (48 <=? c) && (c <=? 57).

(** WhiteSpace and LineTerminator code units of ECMAScript, the set that
    [String.prototype.trim] strips. *)
Definition is_whitespace (c : N) : bool :=
  (c =? 9) || (c =? 10) || (c =? 11) || (c =? 12) || (c =? 13) ||
  (c =? 32) || (c =? 160) || (c =? 5760) ||
  ((8192 <=? c) && (c <=? 8202)) ||
  (c =? 8232) || (c =? 8233) || (c =? 8239) || (c =? 8287) ||
  (c =? 12288) || (c =? 65279).

Fixpoint trimStart (s : jsstring) : jsstring :=
  match s with
  | c :: r => if is_whitespace c then trimStart r else s
  | [] => []
  end.

Definition trimEnd (s : jsstring) : jsstring := rev (trimStart (rev s)).

Definition trim (s : jsstring) : jsstring := trimEnd (trimStart s).

(** [parseInt] on a capture group: the decimal value of the digits read
    left to right, stopping at the first code unit that is not a digit.
    (The groups of the timestamp pattern are non-empty digit runs, so the
    NaN result of an empty run never arises.) *)
Fixpoint parseInt_from (acc : N) (s : jsstring) : N :=
  match s with
  | c :: r => if is_digit c then parseInt_from (10 * acc + (c - 48)) r else acc
  | [] => acc
  end.

Definition parseInt (s : jsstring) : N := parseInt_from 0 s.

(** ** JavaScript numbers

    A [number] is an IEEE-754 double, kept in the canonical
    sign/mantissa/exponent form of [spec_float].  [Object.is] (the
    comparison React applies to state values and effect dependencies)
    is then equality of representations: NaN equals NaN, and the two
    zeros differ. *)

Definition number := spec_float.

Definition Object_is (a b : number) : bool :=
  match a, b with
  | S754_zero s, S754_zero s' => Bool.eqb s s'
  | S754_infinity s, S754_infinity s' => Bool.eqb s s'
  | S754_nan, S754_nan => true
  | S754_finite s m e, S754_finite s' m' e' =>
      Bool.eqb s s' && (m =? m')%positive && (e =? e')%Z
  | _, _ => false
  end.

(** The double of a non-negative integer below 2^53. *)
Definition number_of_N (n : N) : number :=
  match n with
  | N0 => S754_zero false
  | Npos p => S754_finite false p 0
  end.

(** ** Timestamp grammar ([ChatInterface.tsx], [parseTimestampLinks]) *)

Module Grammar.

(** The pattern [/\[(\d{1,2}):(\d{2})(?::(\d{2}))?\]/g] is embedded as a
    backtracking matcher built from the pattern's own pieces. *)

Definition lit (c : N) (s : jsstring) : option jsstring :=
  match s with
  | x :: r => if x =? c then Some r else None
  | [] => None
  end.

Definition digit (s : jsstring) : option (N * jsstring) :=
  match s with
  | x :: r => if is_digit x then Some (x, r) else None
  | [] => None
  end.

(** [\d{2}] *)
Definition digits2 (s : jsstring) : option (jsstring * jsstring) :=
  '(a, r) ← digit s; '(b, r') ← digit r; Some ([a; b], r').

(** [\d] taken once (the backtracked alternative of [\d{1,2}]). *)
Definition digits1 (s : jsstring) : option (jsstring * jsstring) :=
  '(a, r) ← digit s; Some ([a], r).

Definition orelse {A} (x y : option A) : option A :=
  match x with Some _ => x | None => y end.

Definition LBRACKET : N := 91.
Definition RBRACKET : N := 93.
Definition COLON : N := 58.

(** The result of one successful [regex.exec]: the captures [match[1]],
    [match[2]], [match[3]] ([None] when the optional group did not
    take part). *)
Record Captures := mkCaptures {
  g1 : jsstring;
  g2 : jsstring;
  g3 : option jsstring
}.

(** [match[0]], the matched literal. *)
Definition g0 (m : Captures) : jsstring :=
  [LBRACKET] ++ g1 m ++ [COLON] ++ g2 m ++
  match g3 m with Some ss => [COLON] ++ ss | None => [] end ++ [RBRACKET].

(** [:(\d{2})(?::(\d{2}))?\]] after the first group; the optional group
    is greedy: tried first, skipped on failure. *)
Definition match_tail (h : jsstring) (s : jsstring)
  : option (Captures * jsstring) :=
  r0 ← lit COLON s;
  '(mm, r1) ← digits2 r0;
  orelse
    (r2 ← lit COLON r1;
     '(ss, r3) ← digits2 r2;
     r4 ← lit RBRACKET r3;
     Some (mkCaptures h mm (Some ss), r4))
    (r4 ← lit RBRACKET r1;
     Some (mkCaptures h mm None, r4)).

(** A match attempt anchored at the head of [s]; [\d{1,2}] is greedy:
    two digits first, one digit on backtracking. *)
Definition match_here (s : jsstring) : option (Captures * jsstring) :=
  r0 ← lit LBRACKET s;
  orelse
    ('(h, r1) ← digits2 r0; match_tail h r1)
    ('(h, r1) ← digits1 r0; match_tail h r1).

(** [regex.exec(text)] from the current [lastIndex]: the text from
    [lastIndex] on is [s]; the leftmost match is returned together with
    the text that follows it (the new [lastIndex]). *)
Fixpoint exec (s : jsstring) : option (Captures * jsstring) :=
  match match_here s with
  | Some r => Some r
  | None =>
      match s with
      | [] => None
      | _ :: r => exec r
      end
  end.

Record Link := mkLink {
  match_ : jsstring;
  seconds : N
}.

(** The body of the [while] loop: the seconds of one match. *)
Definition link_of (m : Captures) : Link :=
  match g3 m with
  | Some ss =>
      (* HH:MM:SS format *)
      mkLink (g0 m) (parseInt (g1 m) * 3600 + parseInt (g2 m) * 60 + parseInt ss)
  | None =>
      (* MM:SS format *)
      mkLink (g0 m) (parseInt (g1 m) * 60 + parseInt (g2 m))
  end.

Lemma lit_shorter c s r : lit c s = Some r -> (length r < length s)%nat.
Proof.
  destruct s as [|x s]; simpl; [discriminate|].
  destruct (x =? c); [|discriminate]. intros [= <-]. lia.
Qed.

Lemma digit_shorter s d r : digit s = Some (d, r) -> (length r < length s)%nat.
Proof.
  destruct s as [|x s]; simpl; [discriminate|].
  destruct (is_digit x); [|discriminate]. intros [= <- <-]. lia.
Qed.

Lemma match_tail_shorter h s m r :
  match_tail h s = Some (m, r) -> (length r < length s)%nat.
Proof.
  unfold match_tail, digits2, orelse. intros H.
  destruct (lit COLON s) as [r0|] eqn:E0; simpl in H; [|discriminate].
  apply lit_shorter in E0.
  destruct (digit r0) as [[a ra]|] eqn:Ea; simpl in H; [|discriminate].
  apply digit_shorter in Ea.
  destruct (digit ra) as [[b rb]|] eqn:Eb; simpl in H; [|discriminate].
  apply digit_shorter in Eb.
  destruct (lit COLON rb) as [r2|] eqn:E2; simpl in H.
  - destruct (digit r2) as [[c rc]|] eqn:Ec; simpl in H.
    + destruct (digit rc) as [[d rd]|] eqn:Ed; simpl in H.
      * destruct (lit RBRACKET rd) as [r4|] eqn:E4; simpl in H.
        -- injection H as <- <-.
           apply lit_shorter in E2, E4. apply digit_shorter in Ec, Ed. lia.
        -- destruct (lit RBRACKET rb) as [r5|] eqn:E5; simpl in H; [|discriminate].
           injection H as <- <-. apply lit_shorter in E5. lia.
      * destruct (lit RBRACKET rb) as [r5|] eqn:E5; simpl in H; [|discriminate].
        injection H as <- <-. apply lit_shorter in E5. lia.
    + destruct (lit RBRACKET rb) as [r5|] eqn:E5; simpl in H; [|discriminate].
      injection H as <- <-. apply lit_shorter in E5. lia.
  - destruct (lit RBRACKET rb) as [r5|] eqn:E5; simpl in H; [|discriminate].
    injection H as <- <-. apply lit_shorter in E5. lia.
Qed.

Lemma match_here_shorter s m r :
  match_here s = Some (m, r) -> (length r < length s)%nat.
Proof.
  unfold match_here, digits2, digits1, orelse. intros H.
  destruct (lit LBRACKET s) as [r0|] eqn:E0; simpl in H; [|discriminate].
  apply lit_shorter in E0.
  destruct (digit r0) as [[a ra]|] eqn:Ea; simpl in H; [|discriminate].
  pose proof (digit_shorter _ _ _ Ea).
  destruct (digit ra) as [[b rb]|] eqn:Eb; simpl in H.
  - pose proof (digit_shorter _ _ _ Eb).
    destruct (match_tail [a; b] rb) as [[m' r']|] eqn:Et.
    + injection H as <- <-. apply match_tail_shorter in Et. lia.
    + apply match_tail_shorter in H. lia.
  - apply match_tail_shorter in H. lia.
Qed.

Lemma exec_shorter s m r : exec s = Some (m, r) -> (length r < length s)%nat.
Proof.
  induction s as [|x s IH]; simpl.
  - discriminate.
  - destruct (match_here (x :: s)) as [[m' r']|] eqn:E.
    + intros [= <- <-]. apply match_here_shorter in E. exact E.
    + intros H. apply IH in H. lia.
Qed.

Definition inspect {A} (a : A) : {b | a = b} := exist _ a eq_refl.

(** [parseTimestampLinks]: the loop
    [while ((match = regex.exec(text)) !== null) { ... links.push(...) }];
    the argument is the text from [lastIndex] on. *)
Equations? parseTimestampLinks (text : jsstring) : list Link
  by wf (length text) lt :=
  parseTimestampLinks text with inspect (exec text) := {
    | exist _ (Some (m, rest)) _ => link_of m :: parseTimestampLinks rest
    | exist _ None _ => []
  }.
Proof. eapply exec_shorter; eauto. Qed.

End Grammar.

(** ** Shared types ([frontend/src/types]) *)

Record TimestampSegment := mkTimestampSegment {
  ts_start : number;
  ts_end : number;
  ts_text : jsstring
}.

Record Source := mkSource {
  src_document_id : jsstring;
  src_chunk_index : number;
  src_content : jsstring;
  src_score : number;
  src_metadata : list (jsstring * jsstring);
  src_timestamp : option (number * number)
}.

Inductive Role := user | assistant.

Record ChatMessage := mkChatMessage {
  role : Role;
  content : jsstring;
  timestamp : option jsstring;
  sources : option (list Source)
}.

(** A parsed inbound frame.  An absent field is [None]; [done] is the
    truthiness of the field. *)
Record StreamToken := mkStreamToken {
  token : option jsstring;
  done : bool;
  tok_sources : option (list Source);
  tok_timestamps : option (list TimestampSegment);
  tok_error : option jsstring
}.

Inductive FileType := pdf | audio | video.

Record Document := mkDocument {
  id : jsstring;
  filename : jsstring;
  file_type : FileType;
  file_size : number;
  summary : option jsstring;
  processed : bool;
  created_at : jsstring;
  chunk_count : number
}.

(** [a === b] on strings. *)
Definition str_eq (a b : jsstring) : bool := bool_decide (a = b).

(** Truthiness of an optional string: present and non-empty. *)
Definition truthy (s : option jsstring) : bool :=
  match s with
  | Some (_ :: _) => true
  | _ => false
  end.

(** String concatenation with a possibly absent operand:
    [s + undefined] appends the text "undefined". *)
Definition append_value (s : jsstring) (v : option jsstring) : jsstring :=
  s ++ match v with Some t => t | None => js "undefined" end.

(** ** The chat surface and its streaming transport
       ([ChatInterface.tsx], [useWebSocket.ts]) *)

Module Chat.

Inductive ReadyState := CONNECTING | OPEN | CLOSING | CLOSED.

Definition ReadyState_eqb (a b : ReadyState) : bool :=
  match a, b with
  | CONNECTING, CONNECTING | OPEN, OPEN | CLOSING, CLOSING | CLOSED, CLOSED => true
  | _, _ => false
  end.

(** The outbound frame [{message, include_timestamps}]. *)
Record Request := mkRequest {
  message : jsstring;
  include_timestamps : bool
}.

(** The two closures the code ever stores in [ws.onopen]. *)
Inductive OnOpen :=
| OnOpenConnect
    (* connect: () => { setIsConnected(true); } *)
| OnOpenQueued (req : Request).
    (* sendMessage: () => { setIsStreaming(true); ws.send(...); } *)

(** A [WebSocket] object: the conversation target of its URL, its ready
    state, its current [onopen] handler and the frames handed to the
    transport by [send]. *)
Record WebSocket := mkWebSocket {
  target : jsstring;
  readyState : ReadyState;
  onopen : OnOpen;
  transmitted : list Request
}.

(** The state of one mounted [ChatInterface], hook included.  [sockets]
    is the heap of [WebSocket] objects created so far; [wsRef] holds the
    address of one of them or null. *)
Record Client := mkClient {
  documentId : jsstring;
  (* useWebSocket *)
  isConnected : bool;
  isStreaming : bool;
  wsRef : option nat;
  sockets : list WebSocket;
  (* ChatInterface *)
  streamingRef : jsstring;
  messages : list ChatMessage;
  input : jsstring;
  streamingContent : jsstring;
  error : option jsstring
}.

Definition mount (doc : jsstring) : Client :=
  mkClient doc false false None [] [] [] [] [] None.

Definition setIsConnected (b : bool) (c : Client) : Client :=
  mkClient (documentId c) b (isStreaming c) (wsRef c) (sockets c)
    (streamingRef c) (messages c) (input c) (streamingContent c) (error c).

Definition setIsStreaming (b : bool) (c : Client) : Client :=
  mkClient (documentId c) (isConnected c) b (wsRef c) (sockets c)
    (streamingRef c) (messages c) (input c) (streamingContent c) (error c).

Definition set_wsRef (r : option nat) (c : Client) : Client :=
  mkClient (documentId c) (isConnected c) (isStreaming c) r (sockets c)
    (streamingRef c) (messages c) (input c) (streamingContent c) (error c).

Definition set_sockets (l : list WebSocket) (c : Client) : Client :=
  mkClient (documentId c) (isConnected c) (isStreaming c) (wsRef c) l
    (streamingRef c) (messages c) (input c) (streamingContent c) (error c).

Definition set_streamingRef (s : jsstring) (c : Client) : Client :=
  mkClient (documentId c) (isConnected c) (isStreaming c) (wsRef c) (sockets c)
    s (messages c) (input c) (streamingContent c) (error c).

Definition setMessages (f : list ChatMessage -> list ChatMessage) (c : Client)
  : Client :=
  mkClient (documentId c) (isConnected c) (isStreaming c) (wsRef c) (sockets c)
    (streamingRef c) (f (messages c)) (input c) (streamingContent c) (error c).

Definition setInput (s : jsstring) (c : Client) : Client :=
  mkClient (documentId c) (isConnected c) (isStreaming c) (wsRef c) (sockets c)
    (streamingRef c) (messages c) s (streamingContent c) (error c).

Definition setStreamingContent (s : jsstring) (c : Client) : Client :=
  mkClient (documentId c) (isConnected c) (isStreaming c) (wsRef c) (sockets c)
    (streamingRef c) (messages c) (input c) s (error c).

Definition setError (e : option jsstring) (c : Client) : Client :=
  mkClient (documentId c) (isConnected c) (isStreaming c) (wsRef c) (sockets c)
    (streamingRef c) (messages c) (input c) (streamingContent c) e.

Definition set_documentId (d : jsstring) (c : Client) : Client :=
  mkClient d (isConnected c) (isStreaming c) (wsRef c) (sockets c)
    (streamingRef c) (messages c) (input c) (streamingContent c) (error c).

(** *** The callbacks of [ChatInterface] *)

(** [handleMessage]: append to the buffer, then publish the snapshot. *)
Definition handleMessage (tok : StreamToken) (c : Client) : Client :=
  let c1 := set_streamingRef (append_value (streamingRef c) (token tok)) c in
  setStreamingContent (streamingRef c1) c1.

Definition handleError (errorMsg : jsstring) (c : Client) : Client :=
  setStreamingContent [] (setError (Some errorMsg) c).

Definition handleComplete (response : list Source * list TimestampSegment)
  (c : Client) : Client :=
  let finalAnswer := streamingRef c in
  match trim finalAnswer with
  | [] => c
  | _ :: _ =>
      let c1 :=
        setMessages
          (fun prev => prev ++ [mkChatMessage assistant finalAnswer None
                                  (Some (fst response))]) c in
      (* clear AFTER commit *)
      setStreamingContent [] (set_streamingRef [] c1)
  end.

(** *** The [WebSocket] methods the hook calls *)

Definition socket_state (i : nat) (c : Client) : option ReadyState :=
  readyState <$> sockets c !! i.

Definition update_socket (i : nat) (f : WebSocket -> WebSocket) (c : Client)
  : Client :=
  match sockets c !! i with
  | Some ws => set_sockets (<[i := f ws]> (sockets c)) c
  | None => c
  end.

Definition set_readyState (r : ReadyState) (ws : WebSocket) : WebSocket :=
  mkWebSocket (target ws) r (onopen ws) (transmitted ws).

Definition set_onopen (h : OnOpen) (ws : WebSocket) : WebSocket :=
  mkWebSocket (target ws) (readyState ws) h (transmitted ws).

Definition transmit (req : Request) (ws : WebSocket) : WebSocket :=
  mkWebSocket (target ws) (readyState ws) (onopen ws) (transmitted ws ++ [req]).

(** [ws.close()]: starts the closing handshake of a connecting or open
    socket; no effect on a closing or closed one.  The close event comes
    later, as an event of its own. *)
Definition ws_close (i : nat) (c : Client) : Client :=
  update_socket i
    (fun ws => match readyState ws with
               | CONNECTING | OPEN => set_readyState CLOSING ws
               | CLOSING | CLOSED => ws
               end) c.

(** [ws.send(data)]: hands the frame to the transport of an open socket.
    (The hook calls it on open sockets only; on other sockets nothing is
    transmitted.) *)
Definition ws_send (i : nat) (req : Request) (c : Client) : Client :=
  update_socket i
    (fun ws => match readyState ws with
               | OPEN => transmit req ws
               | _ => ws
               end) c.

(** [createChatWebSocket(documentId)]: a new socket, connecting. *)
Definition createChatWebSocket (doc : jsstring) : WebSocket :=
  mkWebSocket doc CONNECTING OnOpenConnect [].

(** *** The hook [useWebSocket] *)

Definition connect (c : Client) : Client :=
  match wsRef c with
  | Some _ => c
  | None =>
      let ws := createChatWebSocket (documentId c) in
      set_wsRef (Some (length (sockets c))) (set_sockets (sockets c ++ [ws]) c)
  end.

Definition disconnect (c : Client) : Client :=
  let c1 :=
    match wsRef c with
    | Some i => set_wsRef None (ws_close i c)
    | None => c
    end in
  setIsStreaming false (setIsConnected false c1).

Definition sendMessage (msg : jsstring) (includeTimestamps : bool) (c : Client)
  : bool * Client :=
  (* reconnect if needed *)
  let c1 :=
    match wsRef c with
    | None => connect c
    | Some i =>
        match socket_state i c with
        | Some OPEN => c
        | _ => connect c
        end
    end in
  match wsRef c1 with
  | None => (false, handleError (js "WebSocket not ready") c1)
  | Some i =>
      match socket_state i c1 with
      | Some CONNECTING =>
          (true, update_socket i
                   (set_onopen (OnOpenQueued (mkRequest msg includeTimestamps))) c1)
      | Some OPEN =>
          (true, ws_send i (mkRequest msg includeTimestamps)
                   (setIsStreaming true c1))
      | _ => (false, handleError (js "WebSocket not connected") c1)
      end
  end.

(** The effect [useEffect(() => { connect(); return () => disconnect(); },
    [connect, disconnect])]: run at mount, and cleaned up and run again
    when [documentId] (a dependency of [connect]) changes. *)
Definition effect_mount (c : Client) : Client := connect c.

Definition effect_documentId (doc : jsstring) (c : Client) : Client :=
  if str_eq doc (documentId c) then c
  else connect (set_documentId doc (disconnect c)).

(** *** The socket's event handlers, as installed by [connect] *)

Definition run_onopen (i : nat) (c : Client) : Client :=
  match onopen <$> sockets c !! i with
  | Some OnOpenConnect => setIsConnected true c
  | Some (OnOpenQueued req) => ws_send i req (setIsStreaming true c)
  | None => c
  end.

Definition ws_onclose (c : Client) : Client :=
  set_wsRef None (setIsStreaming false (setIsConnected false c)).

Definition ws_onerror (c : Client) : Client :=
  handleError (js "WebSocket connection error") c.

(** [ws.onmessage] of socket [i]; [None] is an event whose data
    [JSON.parse] rejects (caught and logged). *)
Definition ws_onmessage (i : nat) (parsed : option StreamToken) (c : Client)
  : Client :=
  match parsed with
  | None => c
  | Some data =>
      if truthy (tok_error data) then
        ws_close i (setIsStreaming false
                      (handleError (default [] (tok_error data)) c))
      else
        (* ONLY stream real tokens *)
        let c1 :=
          if negb (done data) &&
             match token data with Some (_ :: _) => true | _ => false end
          then handleMessage data c else c in
        (* Final message *)
        if done data then
          ws_close i
            (handleComplete (default [] (tok_sources data),
                             default [] (tok_timestamps data))
               (setIsStreaming false c1))
        else c1
  end.

(** *** Events *)

(** What can happen to a mounted client: the events the browser fires on
    a socket and the calls the application makes. *)
Inductive Event :=
| EvOpen (i : nat)
| EvMessage (i : nat) (parsed : option StreamToken)
| EvError (i : nat)
| EvClose (i : nat)
| CallConnect
| CallDisconnect
| CallSendMessage (msg : jsstring) (includeTimestamps : bool)
| ChangeDocument (doc : jsstring)
| TypeInput (text : jsstring)
| Submit.

(** [handleSubmit] *)
Definition handleSubmit (c : Client) : Client :=
  match trim (input c) with
  | [] => c
  | _ :: _ =>
      if isStreaming c then c else
      let userMessage := mkChatMessage user (trim (input c)) None None in
      let c1 := setMessages (fun prev => prev ++ [userMessage]) c in
      let c2 := setStreamingContent [] (setError None c1) in
      let '(sent, c3) := sendMessage (trim (input c)) true c2 in
      if sent then setInput [] c3 else c3
  end.

(** The browser fires [open] on a connecting socket only, [message] on
    an open socket only, and [close] once, on a socket not yet closed;
    the socket's ready state changes before its handler runs.  An event
    that cannot occur leaves the client as it is. *)
Definition fire (e : Event) (c : Client) : Client :=
  match e with
  | EvOpen i =>
      match socket_state i c with
      | Some CONNECTING => run_onopen i (update_socket i (set_readyState OPEN) c)
      | _ => c
      end
  | EvMessage i parsed =>
      match socket_state i c with
      | Some OPEN => ws_onmessage i parsed c
      | _ => c
      end
  | EvError i =>
      match socket_state i c with
      | Some CLOSED | None => c
      | Some _ => ws_onerror c
      end
  | EvClose i =>
      match socket_state i c with
      | Some CLOSED | None => c
      | Some _ => ws_onclose (update_socket i (set_readyState CLOSED) c)
      end
  | CallConnect => connect c
  | CallDisconnect => disconnect c
  | CallSendMessage msg ts => snd (sendMessage msg ts c)
  | ChangeDocument doc => effect_documentId doc c
  | TypeInput text => setInput text c
  | Submit => handleSubmit c
  end.

Definition run (es : list Event) (c : Client) : Client :=
  fold_left (fun st e => fire e st) es c.

(** The sockets that hold a transport connection or are establishing
    one. *)
Definition live (ws : WebSocket) : bool :=
  match readyState ws with
  | CONNECTING | OPEN => true
  | CLOSING | CLOSED => false
  end.

Definition live_connections (c : Client) : list WebSocket :=
  filter (fun ws => live ws = true) (sockets c).

End Chat.

(** ** Seek coordination ([App.tsx], [MediaPlayer.tsx]) *)

Module Seek.

(** [Object.is] on a value of type [number | null]. *)
Definition same_value (a b : option number) : bool :=
  match a, b with
  | None, None => true
  | Some x, Some y => Object_is x y
  | _, _ => false
  end.

(** [App]'s [seekTimestamp] state together with the mounted
    [MediaPlayer]: its state, its refs, the dependency array
    [[seekToTimestamp, isReady]] React recorded at the last commit
    ([None] before the first one) and the calls made to
    [playerRef.current.seekTo(_, "seconds")], oldest first. *)
Record State := mkState {
  seekTimestamp : option number;
  isReady : bool;
  readyOnceRef : bool;
  playerRef : bool;
  playing : bool;
  effectDeps : option (option number * bool);
  seekTo_calls : list number
}.

Definition initial : State :=
  mkState None false false true false None [].

(** The body of the seek effect, run with the props and state of the
    render being committed. *)
Definition seek_effect (st : State) : State :=
  match seekTimestamp st with
  | Some n =>
      if isReady st && playerRef st then
        mkState (seekTimestamp st) (isReady st) (readyOnceRef st) (playerRef st)
          true (effectDeps st) (seekTo_calls st ++ [n])
      else st
  | None => st
  end.

(** React's rule for [useEffect(f, deps)]: after a commit, [f] runs when
    there was no previous commit or some dependency differs, by
    [Object.is], from its value at the previous commit. *)
Definition deps_changed (st : State) : bool :=
  match effectDeps st with
  | None => true
  | Some (s, r) =>
      negb (same_value s (seekTimestamp st) && Bool.eqb r (isReady st))
  end.

Definition commit (st : State) : State :=
  let st1 := if deps_changed st then seek_effect st else st in
  mkState (seekTimestamp st1) (isReady st1) (readyOnceRef st1) (playerRef st1)
    (playing st1) (Some (seekTimestamp st1, isReady st1)) (seekTo_calls st1).

(** [handleSeekToTimestamp] of [App]: [setSeekTimestamp(seconds)],
    followed by the render React schedules. *)
Definition handleSeekToTimestamp (seconds : number) (st : State) : State :=
  commit
    (mkState (Some seconds) (isReady st) (readyOnceRef st) (playerRef st)
       (playing st) (effectDeps st) (seekTo_calls st)).

(** [ReactPlayer]'s [onReady]. *)
Definition onReady (st : State) : State :=
  if readyOnceRef st then st
  else
    commit
      (mkState (seekTimestamp st) true true (playerRef st) (playing st)
         (effectDeps st) (seekTo_calls st)).

End Seek.

(** ** Document status polling ([App.tsx]) *)

Module Poller.

(** What the interval callback closes over: the values of the render
    whose effect created the timer. *)
Record Closure := mkClosure {
  unprocessedDocs : list Document;
  closure_selectedDocument : option Document
}.

(** [interval] is the running timer, if any; [queries] lists the ids
    passed to [getDocumentStatus] so far, oldest first. *)
Record State := mkState {
  documents : list Document;
  selectedDocument : option Document;
  interval : option Closure;
  queries : list jsstring
}.

(** The polling effect, with dependencies [[documents, selectedDocument]]:
    the previous timer is cleared by the cleanup; a new one is set only
    when some document is unprocessed. *)
Definition poll_effect (st : State) : State :=
  let unprocessed := List.filter (fun d => negb (processed d)) (documents st) in
  match unprocessed with
  | [] => mkState (documents st) (selectedDocument st) None (queries st)
  | _ :: _ =>
      mkState (documents st) (selectedDocument st)
        (Some (mkClosure unprocessed (selectedDocument st))) (queries st)
  end.

Definition init (docs : list Document) (sel : option Document) : State :=
  poll_effect (mkState docs sel None []).

(** One iteration of the [for] loop of the interval callback.
    [getDocumentStatus] answers [None] when the request fails (the
    [catch] logs and goes on). *)
Definition poll_one (getDocumentStatus : jsstring -> option Document)
  (cl : Closure) (st : State) (doc : Document) : State :=
  let st1 :=
    mkState (documents st) (selectedDocument st) (interval st)
      (queries st ++ [id doc]) in
  match getDocumentStatus (id doc) with
  | Some updated =>
      if processed updated then
        let docs' :=
          map (fun d => if str_eq (id d) (id updated) then updated else d)
            (documents st1) in
        let sel' :=
          match closure_selectedDocument cl with
          | Some s =>
              if str_eq (id s) (id updated) then Some updated
              else selectedDocument st1
          | None => selectedDocument st1
          end in
        mkState docs' sel' (interval st1) (queries st1)
      else st1
  | None => st1
  end.

(** One firing of the timer whose requests are all answered before
    anything else happens: the callback runs over the documents it
    closed over, then React commits the state and runs the effect
    again.  Without a timer nothing fires.  Firings that overlap, because
    the service is slower than the period, are the subject of
    [InFlight] below, where each [await] of the callback is an event of
    its own; [tick] is the run of those events with nothing in
    between. *)
Definition tick (getDocumentStatus : jsstring -> option Document) (st : State)
  : State :=
  match interval st with
  | None => st
  | Some cl =>
      poll_effect
        (fold_left (poll_one getDocumentStatus cl) (unprocessedDocs cl) st)
  end.

(** Successive firings, each with the answers the status service gives
    during it. *)
Definition ticks (answers : list (jsstring -> option Document)) (st : State)
  : State :=
  fold_left (fun s a => tick a s) answers st.

End Poller.

(** * Properties *)

(** ** The timestamp grammar, in the words of the design document *)

Module GrammarSpec.
Import Grammar.

Definition digits (s : jsstring) : Prop := Forall (fun c => is_digit c = true) s.

(** The decimal value of a run of digits. *)
Definition decimal (s : jsstring) : N :=
  fold_left (fun acc c => 10 * acc + (c - 48)) s 0.

(** [Marker m secs]: [m] is a bracketed marker, one or two digits, a
    colon and two digits, optionally followed by a colon and two more
    digits, and [secs] is its value: minutes and seconds for two groups,
    hours, minutes and seconds for three. *)
Inductive Marker : jsstring -> N -> Prop :=
| Marker_MS h m :
    (length h = 1 \/ length h = 2)%nat -> digits h ->
    length m = 2%nat -> digits m ->
    Marker ([LBRACKET] ++ h ++ [COLON] ++ m ++ [RBRACKET])
           (decimal h * 60 + decimal m)
| Marker_HMS h m s :
    (length h = 1 \/ length h = 2)%nat -> digits h ->
    length m = 2%nat -> digits m ->
    length s = 2%nat -> digits s ->
    Marker ([LBRACKET] ++ h ++ [COLON] ++ m ++ [COLON] ++ s ++ [RBRACKET])
           (decimal h * 3600 + decimal m * 60 + decimal s).

(** [m] occurs in [text] after [pre]. *)
Definition occurs_at (pre m : jsstring) (text : jsstring) : Prop :=
  exists post, text = pre ++ m ++ post.

Definition has_marker (text : jsstring) : Prop :=
  exists pre m secs, Marker m secs /\ occurs_at pre m text.

(** [Scan text links]: [links] lists, in order of appearance, the
    markers met when [text] is read left to right, each time taking the
    first marker that starts in what is left and continuing after it. *)
Inductive Scan : jsstring -> list Link -> Prop :=
| Scan_done text :
    ~ has_marker text -> Scan text []
| Scan_hit pre m secs post links :
    Marker m secs ->
    (forall pre' m' secs',
        Marker m' secs' -> occurs_at pre' m' (pre ++ m ++ post) ->
        (length pre <= length pre')%nat) ->
    Scan post links ->
    Scan (pre ++ m ++ post) (mkLink m secs :: links).

End GrammarSpec.

Module GrammarFacts.
Import Grammar GrammarSpec.

Ltac list_norm :=
  simpl; repeat (rewrite <- ?app_assoc; simpl); try reflexivity.

Lemma lit_inv c s r : lit c s = Some r -> s = c :: r.
Proof.
  destruct s as [|x s]; simpl; [discriminate|].
  destruct (N.eqb_spec x c); [|discriminate]. intros [= <-]. congruence.
Qed.

Lemma digit_inv s d r : digit s = Some (d, r) -> s = d :: r /\ is_digit d = true.
Proof.
  destruct s as [|x s]; simpl; [discriminate|].
  destruct (is_digit x) eqn:E; [|discriminate]. intros [= <- <-]. auto.
Qed.

Lemma digits2_inv s g r :
  digits2 s = Some (g, r) ->
  exists a b, g = [a; b] /\ s = a :: b :: r /\ is_digit a = true /\ is_digit b = true.
Proof.
  unfold digits2. intros H.
  destruct (digit s) as [[a ra]|] eqn:Ea; simpl in H; [|discriminate].
  destruct (digit ra) as [[b rb]|] eqn:Eb; simpl in H; [|discriminate].
  injection H as <- <-.
  apply digit_inv in Ea as [-> Ha]. apply digit_inv in Eb as [-> Hb].
  exists a, b. auto.
Qed.

Lemma digits1_inv s g r :
  digits1 s = Some (g, r) -> exists a, g = [a] /\ s = a :: r /\ is_digit a = true.
Proof.
  unfold digits1. intros H.
  destruct (digit s) as [[a ra]|] eqn:Ea; simpl in H; [|discriminate].
  injection H as <- <-. apply digit_inv in Ea as [-> Ha]. eauto.
Qed.

Lemma orelse_inv {A} (x y : option A) v :
  orelse x y = Some v -> x = Some v \/ (x = None /\ y = Some v).
Proof. destruct x; simpl; auto. Qed.

Lemma parseInt_decimal s : digits s -> parseInt s = decimal s.
Proof.
  unfold parseInt, decimal. generalize 0.
  induction s as [|c s IH]; intros acc Hs; simpl; [reflexivity|].
  inversion Hs as [|? ? Hc Hs']; subst. rewrite Hc. apply IH, Hs'.
Qed.

Lemma digits_1 a : is_digit a = true -> digits [a].
Proof. intros; repeat constructor; assumption. Qed.

Lemma digits_2 a b : is_digit a = true -> is_digit b = true -> digits [a; b].
Proof. intros; repeat constructor; assumption. Qed.

#[local] Hint Resolve digits_1 digits_2 : core.

(** What the tail of the pattern accepts. *)
Lemma match_tail_sound h s c r :
  match_tail h s = Some (c, r) ->
  g1 c = h /\
  exists m, g2 c = m /\ length m = 2%nat /\ digits m /\
    ((g3 c = None /\ s = [COLON] ++ m ++ [RBRACKET] ++ r) \/
     (exists ss, g3 c = Some ss /\ length ss = 2%nat /\ digits ss /\
        s = [COLON] ++ m ++ [COLON] ++ ss ++ [RBRACKET] ++ r)).
Proof.
  unfold match_tail. intros H.
  destruct (lit COLON s) as [r0|] eqn:E0; simpl in H; [|discriminate].
  apply lit_inv in E0 as ->.
  destruct (digits2 r0) as [[mm r1]|] eqn:E1; simpl in H; [|discriminate].
  apply digits2_inv in E1 as (a & b & -> & -> & Ha & Hb).
  split.
  - apply orelse_inv in H as [H|[_ H]].
    + destruct (lit COLON r1) as [r2|]; simpl in H; [|discriminate].
      destruct (digits2 r2) as [[ss r3]|]; simpl in H; [|discriminate].
      destruct (lit RBRACKET r3); simpl in H; [|discriminate].
      injection H as <- <-. reflexivity.
    + destruct (lit RBRACKET r1); simpl in H; [|discriminate].
      injection H as <- <-. reflexivity.
  - apply orelse_inv in H as [H|[_ H]].
    + destruct (lit COLON r1) as [r2|] eqn:E2; simpl in H; [|discriminate].
      apply lit_inv in E2 as ->.
      destruct (digits2 r2) as [[ss r3]|] eqn:E3; simpl in H; [|discriminate].
      apply digits2_inv in E3 as (x & y & -> & -> & Hx & Hy).
      destruct (lit RBRACKET r3) as [r4|] eqn:E4; simpl in H; [|discriminate].
      apply lit_inv in E4 as ->. injection H as <- <-. simpl.
      exists [a; b]. repeat split; auto.
      right. exists [x; y]. repeat split; auto.
    + destruct (lit RBRACKET r1) as [r4|] eqn:E4; simpl in H; [|discriminate].
      apply lit_inv in E4 as ->. injection H as <- <-. simpl.
      exists [a; b]. repeat split; auto.
Qed.

(** A successful anchored attempt consumed a marker, and the link built
    from its captures carries the marker's value. *)
Lemma match_here_sound s c r :
  match_here s = Some (c, r) ->
  s = g0 c ++ r /\ match_ (link_of c) = g0 c /\
  Marker (g0 c) (seconds (link_of c)).
Proof.
  unfold match_here. intros H.
  destruct (lit LBRACKET s) as [r0|] eqn:E0; simpl in H; [|discriminate].
  apply lit_inv in E0 as ->.
  assert (exists h r1, (length h = 1 \/ length h = 2)%nat /\ digits h /\
            r0 = h ++ r1 /\ match_tail h r1 = Some (c, r))
    as (h & r1 & Hlen & Hh & -> & Ht).
  { apply orelse_inv in H as [H|[_ H]].
    - destruct (digits2 r0) as [[h r1]|] eqn:E1; simpl in H; [|discriminate].
      apply digits2_inv in E1 as (a & b & -> & -> & Ha & Hb).
      exists [a; b], r1. auto.
    - destruct (digits1 r0) as [[h r1]|] eqn:E1; simpl in H; [|discriminate].
      apply digits1_inv in E1 as (a & -> & -> & Ha).
      exists [a], r1. auto. }
  apply match_tail_sound in Ht as (Hg1 & m & Hg2 & Hm & Hdm & Hcase).
  destruct c as [c1 c2 c3]; simpl in *; subst c1 c2.
  destruct Hcase as [[-> ->]|(ss & -> & Hs & Hds & ->)];
    unfold link_of, g0; simpl.
  - repeat split.
    + list_norm.
    + rewrite !parseInt_decimal by assumption.
      apply (Marker_MS h m); assumption.
  - repeat split.
    + list_norm.
    + rewrite !parseInt_decimal by assumption.
      apply (Marker_HMS h m ss); assumption.
Qed.

Lemma length1_inv (h : jsstring) : length h = 1%nat -> exists a, h = [a].
Proof. destruct h as [|a [|b h]]; simpl; try discriminate. eauto. Qed.

Lemma length2_inv (h : jsstring) : length h = 2%nat -> exists a b, h = [a; b].
Proof. destruct h as [|a [|b [|c h]]]; simpl; try discriminate. eauto. Qed.

Lemma digits_cons a s : digits (a :: s) -> is_digit a = true /\ digits s.
Proof. intros H. inversion H; subst. auto. Qed.

Ltac digit_facts :=
  repeat match goal with
         | H : digits (_ :: _) |- _ => apply digits_cons in H as [? H]
         | H : digits [] |- _ => clear H
         end.

Ltac accept_marker :=
  unfold match_here, match_tail, digits2, digits1, digit, link_of; simpl;
  repeat (match goal with H : is_digit _ = true |- _ => rewrite H end; simpl);
  split; reflexivity.

Lemma decimal_parseInt s : digits s -> decimal s = parseInt s.
Proof. intros. symmetry. apply parseInt_decimal. assumption. Qed.

(** Every marker is accepted where it stands, whatever follows it, with
    itself as matched literal and its value as seconds. *)
Lemma match_here_complete m secs post :
  Marker m secs ->
  exists c, match_here (m ++ post) = Some (c, post) /\ link_of c = mkLink m secs.
Proof.
  intros HM. destruct HM as [h mm Hh Hdh Hm Hdm|h mm ss Hh Hdh Hm Hdm Hs Hds].
  - apply length2_inv in Hm as (x & y & ->).
    destruct Hh as [Hh|Hh].
    + apply length1_inv in Hh as (a & ->).
      exists (mkCaptures [a] [x; y] None).
      rewrite !decimal_parseInt by assumption. digit_facts.
      accept_marker.
    + apply length2_inv in Hh as (a & b & ->).
      exists (mkCaptures [a; b] [x; y] None).
      rewrite !decimal_parseInt by assumption. digit_facts.
      accept_marker.
  - apply length2_inv in Hm as (x & y & ->).
    apply length2_inv in Hs as (u & v & ->).
    destruct Hh as [Hh|Hh].
    + apply length1_inv in Hh as (a & ->).
      exists (mkCaptures [a] [x; y] (Some [u; v])).
      rewrite !decimal_parseInt by assumption. digit_facts.
      accept_marker.
    + apply length2_inv in Hh as (a & b & ->).
      exists (mkCaptures [a; b] [x; y] (Some [u; v])).
      rewrite !decimal_parseInt by assumption. digit_facts.
      accept_marker.
Qed.

Lemma exec_here s r : match_here s = Some r -> exec s = Some r.
Proof.
  intros H. destruct s as [|x s]; [discriminate|].
  cbn [exec]. rewrite H. reflexivity.
Qed.

(** [exec] skips a prefix in which no anchored attempt succeeds. *)
Lemma exec_skip pre s :
  (forall k, (k < length pre)%nat -> match_here (drop k (pre ++ s)) = None) ->
  exec (pre ++ s) = exec s.
Proof.
  induction pre as [|x pre IH]; intros H; [reflexivity|].
  pose proof (H 0%nat ltac:(simpl; lia)) as H0. rewrite drop_0 in H0.
  change ((x :: pre) ++ s) with (x :: (pre ++ s)) in *.
  cbn [exec]. rewrite H0.
  apply IH. intros k Hk. apply (H (S k)). simpl. lia.
Qed.

(** The result of [exec]: a marker, what precedes it, what follows it,
    and no successful attempt anywhere before it. *)
Lemma exec_Some s c r :
  exec s = Some (c, r) ->
  exists pre, s = pre ++ g0 c ++ r /\
    match_here (g0 c ++ r) = Some (c, r) /\
    forall k, (k < length pre)%nat -> match_here (drop k s) = None.
Proof.
  induction s as [|x s IH]; cbn [exec].
  - discriminate.
  - destruct (match_here (x :: s)) as [p|] eqn:E.
    + intros [= ->]. exists [].
      pose proof (match_here_sound _ _ _ E) as (Hs & _).
      split; [exact Hs|]. split; [rewrite <- Hs; exact E|].
      intros k Hk. simpl in Hk. lia.
    + intros H. apply IH in H as (pre & -> & Hm & Hbefore).
      exists (x :: pre). split; [reflexivity|]. split; [assumption|].
      intros [|k] Hk; simpl.
      * exact E.
      * apply Hbefore. simpl in Hk. lia.
Qed.

Lemma exec_None s :
  exec s = None -> forall k, match_here (drop k s) = None.
Proof.
  induction s as [|x s IH]; cbn [exec].
  - intros _ k. rewrite drop_nil. reflexivity.
  - destruct (match_here (x :: s)) eqn:E; [discriminate|].
    intros H [|k]; simpl; [exact E|]. apply IH, H.
Qed.

Lemma occurs_drop pre m text :
  occurs_at pre m text -> exists post, drop (length pre) text = m ++ post.
Proof. intros [post ->]. exists post. rewrite drop_app_length. reflexivity. Qed.

Lemma exec_None_no_marker s : exec s = None -> ~ has_marker s.
Proof.
  intros H (pre & m & secs & HM & Hocc).
  apply occurs_drop in Hocc as [post Hd].
  destruct (match_here_complete m secs post HM) as (c & Hc & _).
  rewrite <- Hd, (exec_None _ H) in Hc. discriminate.
Qed.

Lemma no_marker_exec_None s : ~ has_marker s -> exec s = None.
Proof.
  intros Hno. destruct (exec s) as [[c r]|] eqn:E; [|reflexivity].
  exfalso. apply Hno.
  apply exec_Some in E as (pre & -> & Hm & _).
  apply match_here_sound in Hm as (_ & _ & HM).
  exists pre, (g0 c), (seconds (link_of c)). split; [assumption|].
  exists r. reflexivity.
Qed.

(** The match [exec] returns is the leftmost marker of the text. *)
Lemma exec_leftmost s c r :
  exec s = Some (c, r) ->
  exists pre, s = pre ++ g0 c ++ r /\
    Marker (g0 c) (seconds (link_of c)) /\
    match_ (link_of c) = g0 c /\
    forall pre' m' secs',
      Marker m' secs' -> occurs_at pre' m' s -> (length pre <= length pre')%nat.
Proof.
  intros H. apply exec_Some in H as (pre & -> & Hm & Hbefore).
  exists pre. split; [reflexivity|].
  apply match_here_sound in Hm as (_ & Hlit & HM).
  split; [assumption|]. split; [assumption|].
  intros pre' m' secs' HM' Hocc.
  destruct (Nat.le_gt_cases (length pre) (length pre')) as [|Hlt]; [assumption|].
  exfalso. apply occurs_drop in Hocc as [post Hd].
  destruct (match_here_complete m' secs' post HM') as (c' & Hc' & _).
  rewrite <- Hd, (Hbefore _ Hlt) in Hc'. discriminate.
Qed.

(** Conversely, the leftmost marker of a text is what [exec] returns. *)
Lemma leftmost_exec pre m secs post :
  Marker m secs ->
  (forall pre' m' secs',
      Marker m' secs' -> occurs_at pre' m' (pre ++ m ++ post) ->
      (length pre <= length pre')%nat) ->
  exists c, exec (pre ++ m ++ post) = Some (c, post) /\ link_of c = mkLink m secs.
Proof.
  intros HM Hleft.
  destruct (match_here_complete m secs post HM) as (c & Hc & Hl).
  exists c. split; [|assumption].
  rewrite exec_skip; [apply exec_here, Hc|].
  intros k Hk.
  destruct (match_here (drop k (pre ++ m ++ post))) as [[c' r']|] eqn:E;
    [|reflexivity].
  exfalso. apply match_here_sound in E as (Hs & _ & HM').
  assert (occurs_at (take k (pre ++ m ++ post)) (g0 c') (pre ++ m ++ post)) as Hocc.
  { exists r'. rewrite <- Hs. symmetry. apply take_drop. }
  apply (Hleft _ _ _ HM') in Hocc.
  rewrite length_take, length_app in Hocc. lia.
Qed.

Lemma parseTimestampLinks_None text :
  exec text = None -> parseTimestampLinks text = [].
Proof.
  intros H. funelim (parseTimestampLinks text); [congruence|reflexivity].
Qed.

Lemma parseTimestampLinks_Some text c rest :
  exec text = Some (c, rest) ->
  parseTimestampLinks text = link_of c :: parseTimestampLinks rest.
Proof.
  intros H. funelim (parseTimestampLinks text).
  - match goal with
    | E : exec ?t = Some (?a, ?b), E' : exec ?t = Some (?a', ?b') |- _ =>
        rewrite E in E'; injection E' as <- <-
    end.
    reflexivity.
  - congruence.
Qed.

(** The parser reads the text the way [Scan] describes. *)
Lemma parseTimestampLinks_Scan text : Scan text (parseTimestampLinks text).
Proof.
  remember (length text) as n eqn:Hn. revert text Hn.
  induction n as [n IH] using lt_wf_ind. intros text ->.
  destruct (exec text) as [[c r]|] eqn:E.
  - rewrite (parseTimestampLinks_Some _ _ _ E).
    pose proof (exec_shorter _ _ _ E) as Hlt.
    apply exec_leftmost in E as (pre & -> & HM & Hlit & Hleft).
    replace (link_of c) with (mkLink (g0 c) (seconds (link_of c)))
      by (destruct (link_of c); simpl in *; congruence).
    apply Scan_hit; [assumption|assumption|].
    apply (IH (length r)); [assumption|reflexivity].
  - rewrite (parseTimestampLinks_None _ E).
    apply Scan_done, exec_None_no_marker, E.
Qed.

(** [Scan] determines the list: the parser's result is the only one. *)
Lemma Scan_parseTimestampLinks text links :
  Scan text links -> links = parseTimestampLinks text.
Proof.
  induction 1 as [text Hno|pre m secs post links HM Hleft _ IH].
  - symmetry. apply parseTimestampLinks_None, no_marker_exec_None, Hno.
  - destruct (leftmost_exec pre m secs post HM Hleft) as (c & Hc & Hl).
    rewrite (parseTimestampLinks_Some _ _ _ Hc), Hl, IH. reflexivity.
Qed.

(** *** Every marker of the text is returned, and only markers *)

(** A marker opens with a bracket and holds no other opening bracket. *)
Lemma Marker_shape m secs :
  Marker m secs ->
  exists t, m = LBRACKET :: t /\ Forall (fun c => c <> LBRACKET) t.
Proof.
  assert (forall s, digits s -> Forall (fun c => c <> LBRACKET) s) as Hd.
  { intros s Hs. eapply List.Forall_impl; [|exact Hs].
    intros c Hc ->. discriminate. }
  intros [h mm Hh Hdh Hm Hdm|h mm ss Hh Hdh Hm Hdm Hs Hds];
    eexists; (split; [reflexivity|]);
    repeat (apply Forall_app; split; auto);
    repeat constructor; discriminate.
Qed.

(** No marker starts strictly inside another one. *)
Lemma Marker_no_inner_start m secs m' secs' a post post' :
  Marker m secs -> Marker m' secs' ->
  m ++ post = a ++ m' ++ post' ->
  (length a = 0 \/ length m <= length a)%nat.
Proof.
  intros HM HM' Heq.
  destruct (Marker_shape _ _ HM) as (t & -> & Ht).
  destruct (Marker_shape _ _ HM') as (t' & -> & _).
  destruct a as [|x a]; [left; reflexivity|right].
  simpl in *. injection Heq as _ Heq.
  destruct (Nat.le_gt_cases (length t) (length a)) as [|Hlt]; [lia|exfalso].
  assert ((t ++ post) !! length a = Some LBRACKET) as Hl
    by (rewrite Heq; apply list_lookup_middle; reflexivity).
  rewrite lookup_app_l in Hl by exact Hlt.
  apply (proj1 (List.Forall_forall _ _) Ht LBRACKET); [|reflexivity].
  apply list_elem_of_In, list_elem_of_lookup. eauto.
Qed.

(** Two markers that start at the same place are the same marker. *)
Lemma Marker_unique m secs m' secs' post post' :
  Marker m secs -> Marker m' secs' -> m ++ post = m' ++ post' ->
  m = m' /\ secs = secs'.
Proof.
  intros HM HM' Heq.
  destruct (match_here_complete m secs post HM) as (c & Hc & Hl).
  destruct (match_here_complete m' secs' post' HM') as (c' & Hc' & Hl').
  rewrite Heq, Hc' in Hc. injection Hc as <- _.
  rewrite Hl' in Hl. injection Hl as <- <-. auto.
Qed.

Lemma Scan_sound text links :
  Scan text links ->
  forall l, In l links ->
    Marker (match_ l) (seconds l) /\ exists pre, occurs_at pre (match_ l) text.
Proof.
  induction 1 as [text Hno|pre m secs post links HM Hleft _ IH];
    intros l Hin; [destruct Hin|].
  destruct Hin as [<-|Hin]; simpl.
  - split; [exact HM|]. exists pre, post. reflexivity.
  - destruct (IH l Hin) as (Hl & pre' & post' & ->).
    split; [exact Hl|]. exists (pre ++ m ++ pre'), post'.
    rewrite <- !app_assoc. reflexivity.
Qed.

Lemma Scan_complete text links :
  Scan text links ->
  forall pre m secs, Marker m secs -> occurs_at pre m text ->
    In (mkLink m secs) links.
Proof.
  induction 1 as [text Hno|pre0 m0 secs0 post0 links HM0 Hleft _ IH];
    intros pre m secs HM Hocc.
  - destruct Hno. exists pre, m, secs. auto.
  - pose proof (Hleft pre m secs HM Hocc) as Hle.
    destruct Hocc as [post Heq].
    assert (exists a, pre = pre0 ++ a /\ m0 ++ post0 = a ++ m ++ post)
      as (a & -> & Heq').
    { exists (drop (length pre0) pre).
      assert (pre = pre0 ++ drop (length pre0) pre) as Hp.
      { rewrite <- (take_drop (length pre0) pre) at 1. f_equal.
        apply (f_equal (take (length pre0))) in Heq.
        rewrite take_app_length in Heq.
        rewrite take_app_le in Heq by exact Hle. congruence. }
      split; [exact Hp|]. rewrite Hp in Heq at 1.
      rewrite <- app_assoc in Heq. apply app_inv_head in Heq. exact Heq. }
    destruct (Marker_no_inner_start _ _ _ _ _ _ _ HM0 HM Heq') as [Ha|Ha].
    + destruct a; [|discriminate]. simpl in Heq'.
      destruct (Marker_unique _ _ _ _ _ _ HM0 HM Heq') as [-> ->].
      left. reflexivity.
    + right.
      assert (exists b, a = m0 ++ b /\ post0 = b ++ m ++ post) as (b & -> & ->).
      { exists (drop (length m0) a).
        assert (a = m0 ++ drop (length m0) a) as Hp.
        { rewrite <- (take_drop (length m0) a) at 1. f_equal.
          apply (f_equal (take (length m0))) in Heq'.
          rewrite take_app_length in Heq'.
          rewrite take_app_le in Heq' by exact Ha. congruence. }
        split; [exact Hp|]. rewrite Hp in Heq' at 1.
        rewrite <- app_assoc in Heq'. apply app_inv_head in Heq'. exact Heq'. }
      apply (IH b m secs HM). exists post. reflexivity.
Qed.

(** C4.  The timestamp parser returns the markers of the text, one or
    two digits, a colon, two digits and optionally a colon and two more
    digits between brackets, read from left to right without overlap, in
    order of appearance, each with its literal and its seconds
    (H*3600 + M*60 + S for three groups, M*60 + S for two), and nothing
    else; "see [1:23] and [01:02:03]" yields the two links of the design
    document in that order; a text without a well-formed marker yields
    no link. *)
Theorem parseTimestampLinks_grammar :
  (forall text, Scan text (parseTimestampLinks text)) /\
  (forall text links, Scan text links -> links = parseTimestampLinks text) /\
  (forall text pre m secs,
      Marker m secs -> occurs_at pre m text ->
      In (mkLink m secs) (parseTimestampLinks text)) /\
  (forall text l,
      In l (parseTimestampLinks text) ->
      Marker (match_ l) (seconds l) /\ exists pre, occurs_at pre (match_ l) text) /\
  parseTimestampLinks (js "see [1:23] and [01:02:03]") =
    [mkLink (js "[1:23]") 83; mkLink (js "[01:02:03]") 3723] /\
  (forall text, ~ has_marker text -> parseTimestampLinks text = []) /\
  Forall (fun malformed => parseTimestampLinks (js malformed) = [])
    ["[1:2]"; "[123:45]"; "[12.34]"; "[1:23:4]"; "[:23]"; "[1:23";
     "1:23]"; "[1:2a]"; "[ 1:23]"; "[1::23]"]%string.
Proof.
  split; [exact parseTimestampLinks_Scan|].
  split; [exact Scan_parseTimestampLinks|].
  split; [intros text; apply Scan_complete, parseTimestampLinks_Scan|].
  split; [intros text; apply Scan_sound, parseTimestampLinks_Scan|].
  split; [vm_compute; reflexivity|].
  split.
  - intros text Hno. apply parseTimestampLinks_None, no_marker_exec_None, Hno.
  - repeat constructor.
Qed.

(** Adjacent and nested brackets, and a two-digit first group. *)
Example parse_adjacent_markers :
  parseTimestampLinks (js "[[7:05][12:34:56] [59:59]]") =
    [mkLink (js "[7:05]") 425; mkLink (js "[12:34:56]") 45296;
     mkLink (js "[59:59]") 3599].
Proof. vm_compute. reflexivity. Qed.

End GrammarFacts.

(** ** The chat surface and its transport *)

Module ChatFacts.
Import Chat.

(** The frames of the streaming scenario of the design document. *)
Definition token_frame (s : jsstring) : StreamToken :=
  mkStreamToken (Some s) false None None None.

Definition terminal_frame (srcs : list Source) (tss : list TimestampSegment)
  : StreamToken :=
  mkStreamToken None true (Some srcs) (Some tss) None.

Definition error_frame (e : jsstring) : StreamToken :=
  mkStreamToken None false None None (Some e).

(** *** The socket heap *)

Lemma update_socket_lookup c i f ws :
  sockets c !! i = Some ws ->
  sockets (update_socket i f c) !! i = Some (f ws).
Proof.
  intros H. unfold update_socket. rewrite H. simpl.
  apply list_lookup_insert_eq. eapply lookup_lt_Some, H.
Qed.

Lemma update_socket_lookup_ne c i j f :
  i <> j -> sockets (update_socket i f c) !! j = sockets c !! j.
Proof.
  intros H. unfold update_socket.
  destruct (sockets c !! i); simpl; [|reflexivity].
  apply list_lookup_insert_ne, H.
Qed.

Lemma update_socket_length c i f :
  length (sockets (update_socket i f c)) = length (sockets c).
Proof.
  unfold update_socket. destruct (sockets c !! i); simpl; [|reflexivity].
  apply length_insert.
Qed.

(** Changing a socket leaves everything else of the client alone. *)
Lemma update_socket_frame c i f :
  let c' := update_socket i f c in
  documentId c' = documentId c /\ isConnected c' = isConnected c /\
  isStreaming c' = isStreaming c /\ wsRef c' = wsRef c /\
  streamingRef c' = streamingRef c /\ messages c' = messages c /\
  input c' = input c /\ streamingContent c' = streamingContent c /\
  error c' = error c.
Proof.
  unfold update_socket. destruct (sockets c !! i); simpl; repeat split.
Qed.

Lemma socket_state_lookup c i ws :
  sockets c !! i = Some ws -> socket_state i c = Some (readyState ws).
Proof. unfold socket_state. intros ->. reflexivity. Qed.

Lemma socket_state_inv c i r :
  socket_state i c = Some r ->
  exists ws, sockets c !! i = Some ws /\ readyState ws = r.
Proof.
  unfold socket_state. destruct (sockets c !! i) as [ws|]; simpl; [|discriminate].
  intros [= <-]. eauto.
Qed.

(** *** One inbound frame *)

(** A frame that carries no error and is not terminal reaches the
    accumulator only when its token is a non-empty string; the message
    log and the socket are not touched. *)
Lemma onmessage_token i data c :
  truthy (tok_error data) = false -> done data = false ->
  let c' := ws_onmessage i (Some data) c in
  streamingRef c' = streamingRef c ++ default [] (token data) /\
  streamingContent c' =
    (if match token data with Some (_ :: _) => true | _ => false end
     then streamingRef c' else streamingContent c) /\
  messages c' = messages c /\ sockets c' = sockets c /\
  wsRef c' = wsRef c /\ isStreaming c' = isStreaming c /\
  isConnected c' = isConnected c /\ error c' = error c /\ input c' = input c.
Proof.
  destruct data as [tk dn srcs tss er]. simpl. intros He ->.
  unfold ws_onmessage. simpl. rewrite He. simpl.
  destruct tk as [[|x t]|]; simpl; rewrite ?app_nil_r; repeat split.
Qed.

(** A terminal frame over a buffer with visible text: the buffer is read,
    committed as one assistant message with the frame's sources, then
    emptied, and [close] is called on the socket. *)
Lemma onmessage_terminal i data c ws :
  truthy (tok_error data) = false -> done data = true ->
  trim (streamingRef c) <> [] ->
  sockets c !! i = Some ws -> readyState ws = OPEN ->
  let c' := ws_onmessage i (Some data) c in
  messages c' =
    messages c ++ [mkChatMessage assistant (streamingRef c) None
                     (Some (default [] (tok_sources data)))] /\
  streamingRef c' = [] /\ streamingContent c' = [] /\
  isStreaming c' = false /\
  sockets c' !! i = Some (set_readyState CLOSING ws) /\
  wsRef c' = wsRef c /\ isConnected c' = isConnected c /\
  error c' = error c /\ input c' = input c.
Proof.
  intros He Hd Ht Hws Hopen. unfold ws_onmessage. rewrite He, Hd. simpl.
  unfold ws_close.
  match goal with |- context [update_socket i ?f ?x] =>
    pose proof (update_socket_frame x i f) as Hf;
    pose proof (update_socket_lookup x i f ws) as Hl
  end.
  simpl in Hf. destruct Hf as (_ & H2 & H3 & H4 & H5 & H6 & H7 & H8 & H9).
  unfold handleComplete in *. simpl in *.
  destruct (trim (streamingRef c)) eqn:E; [congruence|]. simpl in *.
  rewrite H2, H3, H4, H5, H6, H7, H8, H9, Hl by assumption.
  rewrite Hopen. repeat split.
Qed.

(** A terminal frame never appends: the buffer is kept or emptied. *)
Lemma onmessage_terminal_buffer i data c :
  truthy (tok_error data) = false -> done data = true ->
  let c' := ws_onmessage i (Some data) c in
  streamingRef c' = streamingRef c \/ streamingRef c' = [].
Proof.
  destruct data as [tk dn srcs tss er]. simpl. intros He ->.
  unfold ws_onmessage. simpl. rewrite He. simpl.
  unfold ws_close.
  match goal with |- context [update_socket i ?f ?x] =>
    destruct (update_socket_frame x i f) as (_ & _ & _ & _ & -> & _)
  end.
  unfold handleComplete. simpl.
  destruct (trim (streamingRef c)); simpl; auto.
Qed.

(** *** [connect] and [sendMessage] *)

Lemma connect_existing c i : wsRef c = Some i -> connect c = c.
Proof. unfold connect. intros ->. reflexivity. Qed.

Lemma connect_fresh c :
  wsRef c = None ->
  let c' := connect c in
  wsRef c' = Some (length (sockets c)) /\
  sockets c' = sockets c ++ [createChatWebSocket (documentId c)].
Proof. unfold connect. intros ->. simpl. auto. Qed.

Lemma sendMessage_open c i ws msg ts :
  wsRef c = Some i -> sockets c !! i = Some ws -> readyState ws = OPEN ->
  sendMessage msg ts c =
    (true, ws_send i (mkRequest msg ts) (setIsStreaming true c)).
Proof.
  intros Hr Hws Ho. unfold sendMessage.
  rewrite Hr, (socket_state_lookup _ _ _ Hws), Ho, Hr,
    (socket_state_lookup _ _ _ Hws), Ho.
  reflexivity.
Qed.

Lemma sendMessage_connecting c i ws msg ts :
  wsRef c = Some i -> sockets c !! i = Some ws -> readyState ws = CONNECTING ->
  sendMessage msg ts c =
    (true, update_socket i (set_onopen (OnOpenQueued (mkRequest msg ts))) c).
Proof.
  intros Hr Hws Ho. unfold sendMessage.
  rewrite Hr, (socket_state_lookup _ _ _ Hws), Ho, (connect_existing _ _ Hr),
    Hr, (socket_state_lookup _ _ _ Hws), Ho.
  reflexivity.
Qed.

Lemma ws_send_open c i ws req :
  sockets c !! i = Some ws -> readyState ws = OPEN ->
  sockets (ws_send i req c) !! i = Some (transmit req ws).
Proof.
  intros Hws Ho. unfold ws_send.
  rewrite (update_socket_lookup _ _ _ _ Hws), Ho. reflexivity.
Qed.

Lemma fire_message_open c i ws parsed :
  sockets c !! i = Some ws -> readyState ws = OPEN ->
  fire (EvMessage i parsed) c = ws_onmessage i parsed c.
Proof.
  intros Hws Ho. simpl. rewrite (socket_state_lookup _ _ _ Hws), Ho.
  reflexivity.
Qed.

Lemma fire_close_pending c i ws :
  sockets c !! i = Some ws -> readyState ws <> CLOSED ->
  fire (EvClose i) c = ws_onclose (update_socket i (set_readyState CLOSED) c).
Proof.
  intros Hws Ho. simpl. rewrite (socket_state_lookup _ _ _ Hws).
  destruct (readyState ws); congruence.
Qed.

Lemma trim_Hello : trim (js "Hello") <> [].
Proof. vm_compute. discriminate. Qed.

(** C3.  End-to-end streaming scenario: on an open connection with an
    empty accumulator, sending "Summarize" and then receiving the frames
    [{token:"Hel",done:false}], [{token:"lo",done:false}] and
    [{done:true, sources:[], timestamps:[]}] in this order commits
    exactly one assistant message, with content "Hello" and the frame's
    sources; the accumulator is empty afterwards; [close] has been called
    on the socket, and once its close event is delivered the socket is
    closed and the client holds no connection.  In general a frame
    without error reaches the accumulator only if it is not terminal and
    its token is a non-empty string. *)
Theorem end_to_end_streaming c i ws :
  wsRef c = Some i -> sockets c !! i = Some ws -> readyState ws = OPEN ->
  streamingRef c = [] ->
  let sent := sendMessage (js "Summarize") true c in
  let c' :=
    run [EvMessage i (Some (token_frame (js "Hel")));
         EvMessage i (Some (token_frame (js "lo")));
         EvMessage i (Some (terminal_frame [] []))] (snd sent) in
  let c'' := fire (EvClose i) c' in
  fst sent = true /\
  (transmitted <$> sockets (snd sent) !! i) =
    Some (transmitted ws ++ [mkRequest (js "Summarize") true]) /\
  messages c' =
    messages c ++ [mkChatMessage assistant (js "Hello") None (Some [])] /\
  streamingRef c' = [] /\
  isStreaming c' = false /\
  socket_state i c' = Some CLOSING /\
  socket_state i c'' = Some CLOSED /\
  wsRef c'' = None /\ isConnected c'' = false /\
  (forall j data d,
      truthy (tok_error data) = false ->
      let d' := ws_onmessage j (Some data) d in
      (done data = false ->
       streamingRef d' = streamingRef d ++ default [] (token data)) /\
      (done data = true ->
       streamingRef d' = streamingRef d \/ streamingRef d' = [])).
Proof.
  intros Hr Hws Ho Hbuf sent.
  assert (sent = (true, ws_send i (mkRequest (js "Summarize") true)
                          (setIsStreaming true c))) as ->
    by (apply (sendMessage_open c i ws); assumption).
  cbn [fst snd run fold_left].
  set (c1 := ws_send i _ _).
  (* after the send *)
  assert (sockets c1 !! i = Some (transmit (mkRequest (js "Summarize") true) ws))
    as Hws1 by (apply ws_send_open; assumption).
  destruct (update_socket_frame (setIsStreaming true c) i
              (fun ws => match readyState ws with
                         | OPEN => transmit (mkRequest (js "Summarize") true) ws
                         | _ => ws
                         end))
    as (_ & _ & _ & Hr1 & Hb1 & Hm1 & _).
  fold (ws_send i (mkRequest (js "Summarize") true) (setIsStreaming true c)) in *.
  fold c1 in Hr1, Hb1, Hm1. simpl in Hr1, Hb1, Hm1.
  (* first token *)
  rewrite (fire_message_open c1 i _ _ Hws1) by exact Ho.
  destruct (onmessage_token i (token_frame (js "Hel")) c1 eq_refl eq_refl)
    as (Hb2 & _ & Hm2 & Hs2 & Hr2 & _).
  set (c2 := ws_onmessage i _ c1) in *.
  (* second token *)
  rewrite (fire_message_open c2 i _ _ (eq_trans (f_equal (.!! i) Hs2) Hws1))
    by exact Ho.
  destruct (onmessage_token i (token_frame (js "lo")) c2 eq_refl eq_refl)
    as (Hb3 & _ & Hm3 & Hs3 & Hr3 & _).
  set (c3 := ws_onmessage i _ c2) in *.
  assert (sockets c3 !! i = Some (transmit (mkRequest (js "Summarize") true) ws))
    as Hws3 by (rewrite Hs3, Hs2; exact Hws1).
  assert (streamingRef c3 = js "Hello") as Hb
    by (rewrite Hb3, Hb2, Hb1, Hbuf; reflexivity).
  (* terminal frame *)
  rewrite (fire_message_open c3 i _ _ Hws3) by exact Ho.
  destruct (onmessage_terminal i (terminal_frame [] []) c3 _ eq_refl eq_refl
              ltac:(rewrite Hb; exact trim_Hello) Hws3 Ho)
    as (Hm4 & Hb4 & _ & Hst4 & Hws4 & Hr4 & _).
  set (c4 := ws_onmessage i _ c3) in *.
  (* close event *)
  rewrite (fire_close_pending c4 i _ Hws4) by discriminate.
  set (c5 := update_socket i (set_readyState CLOSED) c4).
  pose proof (update_socket_lookup c4 i (set_readyState CLOSED) _ Hws4) as Hws5.
  fold c5 in Hws5.
  repeat split.
  - rewrite Hws1. reflexivity.
  - rewrite Hm4, Hm3, Hm2, Hm1, Hb. reflexivity.
  - exact Hb4.
  - exact Hst4.
  - rewrite (socket_state_lookup _ _ _ Hws4). reflexivity.
  - unfold socket_state, ws_onclose. simpl. rewrite Hws5. reflexivity.
  - intros Hd. apply (onmessage_token j data d); assumption.
  - intros Hd. apply (onmessage_terminal_buffer j data d); assumption.
Qed.

(** The scenario on a client that was mounted, whose socket then
    opened. *)
Definition opened_client : Client :=
  fire (EvOpen 0) (effect_mount (mount (js "doc-1"))).

Lemma end_to_end_streaming_witness :
  let sent := sendMessage (js "Summarize") true opened_client in
  let c' :=
    run [EvMessage 0 (Some (token_frame (js "Hel")));
         EvMessage 0 (Some (token_frame (js "lo")));
         EvMessage 0 (Some (terminal_frame [] []))] (snd sent) in
  fst sent = true /\
  messages c' = [mkChatMessage assistant (js "Hello") None (Some [])] /\
  streamingRef c' = [] /\
  socket_state 0 (fire (EvClose 0) c') = Some CLOSED.
Proof.
  destruct (end_to_end_streaming opened_client 0
              (mkWebSocket (js "doc-1") OPEN OnOpenConnect [])
              eq_refl eq_refl eq_refl eq_refl)
    as (H1 & _ & H3 & H4 & _ & _ & H7 & _).
  repeat split; assumption.
Defined.

(** The same scenario driven from the input field, on both paths of
    [sendMessage]: the socket already open, and the request queued while
    the socket is connecting. *)
Example end_to_end_from_the_form :
  let frames i :=
    [EvMessage i (Some (token_frame (js "Hel")));
     EvMessage i (Some (token_frame (js "lo")));
     EvMessage i (Some (terminal_frame [] []));
     EvClose i] in
  let expected :=
    [mkChatMessage user (js "Summarize") None None;
     mkChatMessage assistant (js "Hello") None (Some [])] in
  let c1 :=
    run ([EvOpen 0; TypeInput (js "Summarize"); Submit] ++ frames 0%nat)
      (effect_mount (mount (js "doc-1"))) in
  let c2 :=
    run ([TypeInput (js "Summarize"); Submit; EvOpen 0] ++ frames 0%nat)
      (effect_mount (mount (js "doc-1"))) in
  (messages c1 = expected /\ streamingRef c1 = [] /\ wsRef c1 = None /\
   live_connections c1 = []) /\
  (messages c2 = expected /\ streamingRef c2 = [] /\ wsRef c2 = None /\
   live_connections c2 = []).
Proof. vm_compute. repeat split. Qed.

(** *** Completion over an empty buffer *)

Lemma trimStart_nil s :
  trimStart s = [] <-> Forall (fun ch => is_whitespace ch = true) s.
Proof.
  induction s as [|ch s IH]; simpl.
  - split; [constructor|reflexivity].
  - destruct (is_whitespace ch) eqn:E.
    + rewrite IH. split; [constructor; assumption|].
      intros H. inversion H; assumption.
    + split; [discriminate|]. intros H. inversion H; congruence.
Qed.

Lemma trimStart_head s ch r :
  trimStart s = ch :: r -> is_whitespace ch = false.
Proof.
  induction s as [|x s IH]; simpl; [discriminate|].
  destruct (is_whitespace x) eqn:E; [exact IH|].
  intros [= <- _]. exact E.
Qed.

(** [trim] yields the empty string exactly on the strings made of
    whitespace only, the empty string among them. *)
Lemma trim_nil s :
  trim s = [] <-> Forall (fun ch => is_whitespace ch = true) s.
Proof.
  unfold trim, trimEnd. split.
  - intros H. apply trimStart_nil.
    destruct (trimStart s) as [|ch r] eqn:E; [reflexivity|exfalso].
    apply (f_equal (@rev N)) in H. rewrite rev_involutive in H. simpl in H.
    apply trimStart_nil in H.
    assert (is_whitespace ch = true) as Hch.
    { apply (proj1 (List.Forall_forall _ _) H), List.in_or_app.
      right. left. reflexivity. }
    apply trimStart_head in E. congruence.
  - intros H. apply trimStart_nil in H. rewrite H. reflexivity.
Qed.

(** C5.  No partial commit: when a terminal frame arrives while the
    accumulated text is empty or consists of whitespace only, the
    completion callback returns the client as it found it; through the
    whole frame handler no message is appended to the log, no error is
    raised, and the buffer and its snapshot stay as they were. *)
Theorem empty_completion_is_noop c i data :
  truthy (tok_error data) = false -> done data = true ->
  Forall (fun ch => is_whitespace ch = true) (streamingRef c) ->
  let c' := ws_onmessage i (Some data) c in
  (forall response, handleComplete response c = c) /\
  messages c' = messages c /\ error c' = error c /\
  streamingRef c' = streamingRef c /\
  streamingContent c' = streamingContent c.
Proof.
  destruct data as [tk dn srcs tss er]. simpl. intros He -> Hws.
  apply trim_nil in Hws.
  split.
  - intros response. unfold handleComplete. rewrite Hws. reflexivity.
  - unfold ws_onmessage. simpl. rewrite He. simpl. unfold ws_close.
    match goal with |- context [update_socket i ?f ?x] =>
      destruct (update_socket_frame x i f)
        as (_ & _ & _ & _ & -> & -> & _ & -> & ->)
    end.
    unfold handleComplete. simpl. rewrite Hws. repeat split.
Qed.

Lemma empty_completion_is_noop_witness :
  let c := snd (sendMessage (js "Summarize") true opened_client) in
  let c' := ws_onmessage 0 (Some (terminal_frame [] [])) c in
  messages c' = messages c /\ error c' = error c.
Proof.
  destruct (empty_completion_is_noop
              (snd (sendMessage (js "Summarize") true opened_client)) 0%nat
              (terminal_frame [] []) eq_refl eq_refl ltac:(constructor))
    as (_ & H1 & H2 & _).
  split; assumption.
Defined.

(** *** A request queued on a connecting socket *)

(** [pending i T l]: in the heap [l], socket [i] is not open and has
    transmitted exactly [T]. *)
Definition pending (i : nat) (T : list Request) (l : list WebSocket) : Prop :=
  exists w, l !! i = Some w /\ readyState w <> OPEN /\ transmitted w = T.

Lemma pending_update i T j f c :
  (forall w, readyState w <> OPEN ->
             readyState (f w) <> OPEN /\ transmitted (f w) = transmitted w) ->
  pending i T (sockets c) -> pending i T (sockets (update_socket j f c)).
Proof.
  intros Hf (w & Hw & Ho & Ht).
  destruct (decide (j = i)) as [->|Hne].
  - exists (f w). split; [apply update_socket_lookup, Hw|].
    destruct (Hf w Ho) as [? ?]. split; congruence.
  - exists w. rewrite update_socket_lookup_ne by assumption. auto.
Qed.

Lemma pending_update_ne i T j f c :
  j <> i ->
  pending i T (sockets c) -> pending i T (sockets (update_socket j f c)).
Proof.
  intros Hne (w & Hw & Ho & Ht). exists w.
  rewrite update_socket_lookup_ne by assumption. auto.
Qed.

Lemma pending_ws_close i T j c :
  pending i T (sockets c) -> pending i T (sockets (ws_close j c)).
Proof.
  apply pending_update. intros w Ho.
  destruct (readyState w) eqn:E; simpl; rewrite ?E; split;
    congruence || reflexivity || discriminate.
Qed.

Lemma pending_ws_send i T j req c :
  pending i T (sockets c) -> pending i T (sockets (ws_send j req c)).
Proof.
  apply pending_update. intros w Ho.
  destruct (readyState w) eqn:E; simpl; rewrite ?E; split;
    congruence || reflexivity || discriminate.
Qed.

Lemma pending_set_onopen i T j h c :
  pending i T (sockets c) ->
  pending i T (sockets (update_socket j (set_onopen h) c)).
Proof. apply pending_update. intros w Ho. simpl. auto. Qed.

Lemma pending_connect i T c :
  pending i T (sockets c) -> pending i T (sockets (connect c)).
Proof.
  unfold connect. destruct (wsRef c); [tauto|]. simpl.
  intros (w & Hw & Ho & Ht). exists w.
  rewrite lookup_app_l by (eapply lookup_lt_Some, Hw). auto.
Qed.

Lemma pending_sendMessage i T msg ts c :
  pending i T (sockets c) ->
  pending i T (sockets (snd (sendMessage msg ts c))).
Proof.
  intros H. unfold sendMessage.
  set (c1 := match wsRef c with
             | Some j => match socket_state j c with
                         | Some OPEN => c
                         | _ => connect c
                         end
             | None => connect c
             end).
  assert (pending i T (sockets c1)) as H1.
  { subst c1. destruct (wsRef c) as [j|]; [|apply pending_connect, H].
    destruct (socket_state j c) as [[]|]; auto using pending_connect. }
  destruct (wsRef c1) as [j|]; [|exact H1].
  destruct (socket_state j c1) as [[]|]; simpl; try exact H1.
  - apply pending_set_onopen, H1.
  - apply pending_ws_send. exact H1.
Qed.

Lemma pending_disconnect i T c :
  pending i T (sockets c) -> pending i T (sockets (disconnect c)).
Proof.
  intros H. unfold disconnect. destruct (wsRef c) as [j|]; simpl; [|exact H].
  apply pending_ws_close, H.
Qed.

Lemma pending_onmessage i T j parsed c :
  pending i T (sockets c) -> pending i T (sockets (ws_onmessage j parsed c)).
Proof.
  intros H. unfold ws_onmessage. destruct parsed as [data|]; [|exact H].
  destruct (truthy (tok_error data)).
  - apply pending_ws_close. exact H.
  - match goal with |- context [if ?b then handleMessage data c else c] =>
      set (c1 := if b then handleMessage data c else c);
      assert (sockets c1 = sockets c) as Hs
        by (subst c1; destruct b; reflexivity)
    end.
    destruct (done data); [|rewrite Hs; exact H].
    apply pending_ws_close. unfold handleComplete. simpl.
    destruct (trim (streamingRef c1)); simpl; rewrite Hs; exact H.
Qed.

Lemma pending_handleSubmit i T c :
  pending i T (sockets c) -> pending i T (sockets (handleSubmit c)).
Proof.
  intros H. unfold handleSubmit.
  destruct (trim (input c)); [exact H|].
  destruct (isStreaming c); [exact H|].
  match goal with |- context [sendMessage ?m ?t ?x] =>
    pose proof (pending_sendMessage i T m t x H) as Hs;
    destruct (sendMessage m t x) as [[] c3]
  end; exact Hs.
Qed.

(** As long as socket [i] does not receive its open event, whatever else
    happens, it transmits nothing. *)
Lemma pending_fire i T e c :
  e <> EvOpen i ->
  pending i T (sockets c) -> pending i T (sockets (fire e c)).
Proof.
  intros He H. destruct e as [j|j parsed|j|j| | |msg ts|doc|text|]; simpl.
  - destruct (socket_state j c) as [[]|]; try exact H.
    assert (j <> i) as Hne by congruence.
    unfold run_onopen.
    set (c1 := update_socket j (set_readyState OPEN) c).
    assert (pending i T (sockets c1)) as H1
      by (apply pending_update_ne; assumption).
    destruct (onopen <$> sockets c1 !! j) as [[|req]|]; try exact H1.
    apply pending_ws_send. exact H1.
  - destruct (socket_state j c) as [[]|]; try exact H.
    apply pending_onmessage, H.
  - destruct (socket_state j c) as [[]|]; exact H.
  - destruct (socket_state j c) as [[]|]; try exact H; simpl;
      (apply pending_update; [|exact H]); intros w Ho; simpl;
      split; (discriminate || reflexivity).
  - apply pending_connect, H.
  - apply pending_disconnect, H.
  - apply pending_sendMessage, H.
  - unfold effect_documentId. destruct (str_eq doc (documentId c)); [exact H|].
    apply pending_connect. simpl. apply pending_disconnect, H.
  - exact H.
  - apply pending_handleSubmit, H.
Qed.

Lemma pending_run i T es c :
  Forall (fun e => e <> EvOpen i) es ->
  pending i T (sockets c) -> pending i T (sockets (run es c)).
Proof.
  unfold run. revert c. induction es as [|e es IH]; intros c Hes H; [exact H|].
  inversion Hes; subst. simpl. apply IH; [assumption|].
  apply pending_fire; assumption.
Qed.

Lemma fire_open_connecting c i ws :
  sockets c !! i = Some ws -> readyState ws = CONNECTING ->
  fire (EvOpen i) c = run_onopen i (update_socket i (set_readyState OPEN) c).
Proof.
  intros Hws Ho. simpl. rewrite (socket_state_lookup _ _ _ Hws), Ho.
  reflexivity.
Qed.

(** The open event of a socket on which a request was queued: the
    handler installed by [sendMessage] runs, and nothing else. *)
Lemma open_after_queued_send c i ws req :
  sockets c !! i = Some ws -> readyState ws = CONNECTING ->
  let c' := fire (EvOpen i)
              (update_socket i (set_onopen (OnOpenQueued req)) c) in
  sockets c' !! i =
    Some (mkWebSocket (target ws) OPEN (OnOpenQueued req)
            (transmitted ws ++ [req])) /\
  isStreaming c' = true /\ isConnected c' = isConnected c /\
  wsRef c' = wsRef c /\ error c' = error c.
Proof.
  intros Hws Ho.
  pose proof (update_socket_lookup c i (set_onopen (OnOpenQueued req)) _ Hws)
    as H1.
  destruct (update_socket_frame c i (set_onopen (OnOpenQueued req)))
    as (_ & Hc1 & _ & Hr1 & _ & _ & _ & _ & He1).
  set (c1 := update_socket i _ c) in *.
  cbv zeta. rewrite (fire_open_connecting c1 i _ H1) by exact Ho.
  pose proof (update_socket_lookup c1 i (set_readyState OPEN) _ H1) as H2.
  destruct (update_socket_frame c1 i (set_readyState OPEN))
    as (_ & Hc2 & _ & Hr2 & _ & _ & _ & _ & He2).
  set (c2 := update_socket i _ c1) in *.
  unfold run_onopen. rewrite H2. simpl.
  assert (sockets (setIsStreaming true c2) !! i =
          Some (set_readyState OPEN (set_onopen (OnOpenQueued req) ws)))
    as H3 by exact H2.
  pose proof (ws_send_open _ i _ req H3 eq_refl) as H4.
  unfold ws_send in *.
  match goal with |- context [update_socket i ?f ?x] =>
    destruct (update_socket_frame x i f)
      as (_ & Hc3 & Hs3 & Hr3 & _ & _ & _ & _ & He3)
  end.
  rewrite H4, Hc3, Hs3, Hr3, He3. simpl.
  rewrite Hc2, Hc1, Hr2, Hr1, He2, He1. repeat split.
Qed.

(** The close event of a socket reports nothing. *)
Lemma fire_close_error i c : error (fire (EvClose i) c) = error c.
Proof.
  cbn [fire]. destruct (socket_state i c) as [[]|]; try reflexivity;
    unfold ws_onclose; cbn [error set_wsRef setIsStreaming setIsConnected];
    apply update_socket_frame.
Qed.

(** The transport's error event reports the generic connection error,
    unless the socket has closed already. *)
Lemma fire_error_error i c :
  error (fire (EvError i) c) =
    match socket_state i c with
    | Some CLOSED | None => error c
    | Some _ => Some (js "WebSocket connection error")
    end.
Proof. cbn [fire]. destruct (socket_state i c) as [[]|]; reflexivity. Qed.

(** The events of a socket that fails to open. *)
Definition fails_to_open (i : nat) (e : Event) : Prop :=
  e = EvError i \/ e = EvClose i.

Lemma fails_to_open_error i es c :
  Forall (fails_to_open i) es ->
  error (run es c) = error c \/
  error (run es c) = Some (js "WebSocket connection error").
Proof.
  unfold run. intros Hes.
  assert (forall d,
            error d = error c \/
            error d = Some (js "WebSocket connection error") ->
            error (fold_left (fun s e => fire e s) es d) = error c \/
            error (fold_left (fun s e => fire e s) es d) =
              Some (js "WebSocket connection error")) as H.
  { induction Hes as [|e es He _ IH]; intros d Hd; [exact Hd|].
    cbn [fold_left]. apply IH. destruct He as [->| ->].
    - rewrite fire_error_error.
      destruct (socket_state i d) as [[]|]; auto.
    - rewrite fire_close_error. exact Hd. }
  apply H. left. reflexivity.
Qed.

Lemma close_events_error i n c :
  error (run (repeat (EvClose i) n) c) = error c.
Proof.
  unfold run. revert c. induction n as [|n IH]; intros c; [reflexivity|].
  cbn [repeat fold_left]. rewrite IH. apply fire_close_error.
Qed.

(** That nothing is reported while the socket fails to open. *)
Definition silent_without_open (i : nat) (c : Client) : Prop :=
  forall es, Forall (fails_to_open i) es -> error (run es c) = error c.

(** C10.  A send made while the connection is connecting returns [true]
    at once, although no frame has been transmitted: the request is only
    parked in the socket's [onopen] handler, and no error is reported.
    The frame is transmitted when the open event fires, and in no run in
    which it does not fire.  While the socket fails to open, the result
    of the send is not revised and the close event reports nothing; the
    transport's error event reports the generic connection error through
    [ws.onerror], and that is the only failure the caller can receive.
    The form takes the [true] for success and clears its input field. *)
Theorem queued_send_returns_true c i ws msg ts :
  wsRef c = Some i -> sockets c !! i = Some ws -> readyState ws = CONNECTING ->
  let req := mkRequest msg ts in
  let sent := sendMessage msg ts c in
  fst sent = true /\
  sockets (snd sent) !! i = Some (set_onopen (OnOpenQueued req) ws) /\
  error (snd sent) = error c /\
  isStreaming (snd sent) = isStreaming c /\
  (transmitted <$> sockets (fire (EvOpen i) (snd sent)) !! i) =
    Some (transmitted ws ++ [req]) /\
  (forall es, Forall (fun e => e <> EvOpen i) es ->
     (transmitted <$> sockets (run es (snd sent)) !! i) =
       Some (transmitted ws)) /\
  (forall es, Forall (fails_to_open i) es ->
     error (run es (snd sent)) = error c \/
     error (run es (snd sent)) = Some (js "WebSocket connection error")) /\
  (forall n, error (run (repeat (EvClose i) n) (snd sent)) = error c) /\
  error (fire (EvError i) (snd sent)) =
    Some (js "WebSocket connection error") /\
  (trim (input c) <> [] -> isStreaming c = false ->
   input (handleSubmit c) = [] /\
   (transmitted <$> sockets (handleSubmit c) !! i) = Some (transmitted ws)).
Proof.
  intros Hr Hws Ho req sent. subst sent.
  rewrite (sendMessage_connecting c i ws msg ts Hr Hws Ho). cbn [fst snd].
  fold req.
  pose proof (update_socket_lookup c i (set_onopen (OnOpenQueued req)) _ Hws)
    as H1.
  destruct (update_socket_frame c i (set_onopen (OnOpenQueued req)))
    as (_ & _ & Hs1 & _ & _ & _ & _ & _ & He1).
  destruct (open_after_queued_send c i ws req Hws Ho) as (Hopen & _).
  split; [reflexivity|]. split; [exact H1|]. split; [exact He1|].
  split; [exact Hs1|]. split; [rewrite Hopen; reflexivity|].
  split; [|split; [|split; [|split]]].
  - intros es Hes.
    assert (pending i (transmitted ws)
              (sockets (update_socket i (set_onopen (OnOpenQueued req)) c)))
      as Hp.
    { eexists. split; [exact H1|]. simpl. rewrite Ho. split; [discriminate|reflexivity]. }
    destruct (pending_run i _ es _ Hes Hp) as (w & -> & _ & Hw).
    simpl. rewrite Hw. reflexivity.
  - intros es Hes. rewrite <- He1. apply (fails_to_open_error i), Hes.
  - intros n. rewrite close_events_error. exact He1.
  - rewrite fire_error_error, (socket_state_lookup _ _ _ H1).
    cbn [set_onopen readyState]. rewrite Ho. reflexivity.
  - intros Hin Hst. unfold handleSubmit.
    destruct (trim (input c)) as [|ch r] eqn:E; [congruence|].
    rewrite Hst.
    match goal with |- context [sendMessage ?m ?t ?x] =>
      rewrite (sendMessage_connecting x i ws m t Hr Hws Ho)
    end.
    split; [reflexivity|]. simpl.
    match goal with |- context [update_socket i ?f ?x] =>
      rewrite (update_socket_lookup x i f ws Hws)
    end.
    reflexivity.
Qed.

Lemma queued_send_returns_true_witness :
  let c := effect_mount (mount (js "doc-1")) in
  let sent := sendMessage (js "Summarize") true c in
  fst sent = true /\
  (transmitted <$> sockets (snd sent) !! 0%nat) = Some [] /\
  (transmitted <$> sockets (fire (EvOpen 0) (snd sent)) !! 0%nat) =
    Some [mkRequest (js "Summarize") true].
Proof.
  destruct (queued_send_returns_true (effect_mount (mount (js "doc-1"))) 0%nat
              (createChatWebSocket (js "doc-1")) (js "Summarize") true
              eq_refl eq_refl eq_refl)
    as (H1 & H2 & _ & _ & H5 & _).
  split; [exact H1|]. split; [|exact H5].
  rewrite H2. reflexivity.
Defined.

(** A queued send whose socket fails to open: the transport fires its
    error event and then the close event, and the generic connection
    error reaches [onError], with nothing transmitted and the send long
    answered [true].  So a failure is reported although the open event
    never fires. *)
Lemma queued_send_failure_is_reported :
  let c := effect_mount (mount (js "doc-1")) in
  let sent := sendMessage (js "Summarize") true c in
  fst sent = true /\
  error (snd sent) = None /\
  error (run [EvError 0; EvClose 0] (snd sent)) =
    Some (js "WebSocket connection error") /\
  (transmitted <$> sockets (run [EvError 0; EvClose 0] (snd sent)) !! 0%nat) =
    Some [] /\
  ~ silent_without_open 0 (snd sent).
Proof.
  cbv zeta. split; [reflexivity|]. split; [reflexivity|].
  split; [reflexivity|]. split; [reflexivity|].
  intros H.
  assert (Forall (fails_to_open 0) [EvError 0; EvClose 0]) as Hes.
  { constructor; [left; reflexivity|].
    constructor; [right; reflexivity|]. constructor. }
  specialize (H _ Hes).
  vm_compute in H. discriminate H.
Qed.

(** C7.  What the code does on the open event of a socket on which a
    send was queued: the socket becomes open, the request is transmitted
    and streaming is marked, but the connected flag keeps the value it
    had, because [sendMessage] replaced the [onopen] handler that sets
    it.  (On a socket without a queued send the flag is set.) *)
Theorem queued_open_leaves_connected_flag c i ws msg ts :
  wsRef c = Some i -> sockets c !! i = Some ws -> readyState ws = CONNECTING ->
  let c' := fire (EvOpen i) (snd (sendMessage msg ts c)) in
  socket_state i c' = Some OPEN /\
  (transmitted <$> sockets c' !! i) =
    Some (transmitted ws ++ [mkRequest msg ts]) /\
  isStreaming c' = true /\
  isConnected c' = isConnected c.
Proof.
  intros Hr Hws Ho.
  rewrite (sendMessage_connecting c i ws msg ts Hr Hws Ho). cbn [snd].
  destruct (open_after_queued_send c i ws (mkRequest msg ts) Hws Ho)
    as (H1 & H2 & H3 & _).
  cbv zeta. unfold socket_state. rewrite H1, H2, H3. repeat split.
Qed.

Lemma queued_open_leaves_connected_flag_witness :
  let c := effect_mount (mount (js "doc-1")) in
  let c' := fire (EvOpen 0) (snd (sendMessage (js "Summarize") true c)) in
  socket_state 0 c' = Some OPEN /\ isStreaming c' = true /\
  isConnected c' = false.
Proof.
  destruct (queued_open_leaves_connected_flag
              (effect_mount (mount (js "doc-1"))) 0%nat
              (createChatWebSocket (js "doc-1")) (js "Summarize") true
              eq_refl eq_refl eq_refl)
    as (H1 & _ & H3 & H4).
  repeat split; assumption.
Defined.

(** The sibling path: the handler installed by [connect] sets the flag. *)
Lemma plain_open_sets_connected_flag c i ws :
  sockets c !! i = Some ws -> readyState ws = CONNECTING ->
  onopen ws = OnOpenConnect ->
  isConnected (fire (EvOpen i) c) = true.
Proof.
  intros Hws Ho Hh. rewrite (fire_open_connecting c i ws Hws Ho).
  unfold run_onopen.
  rewrite (update_socket_lookup c i _ _ Hws). simpl. rewrite Hh. reflexivity.
Qed.

(** *** The accumulator across errors, closes and new turns *)

Lemma connect_streamingRef c : streamingRef (connect c) = streamingRef c.
Proof. unfold connect. destruct (wsRef c); reflexivity. Qed.

Lemma ws_close_streamingRef i c : streamingRef (ws_close i c) = streamingRef c.
Proof. unfold ws_close. apply update_socket_frame. Qed.

Lemma ws_send_streamingRef i req c :
  streamingRef (ws_send i req c) = streamingRef c.
Proof. unfold ws_send. apply update_socket_frame. Qed.

Lemma disconnect_streamingRef c : streamingRef (disconnect c) = streamingRef c.
Proof.
  unfold disconnect. destruct (wsRef c); simpl; [|reflexivity].
  apply ws_close_streamingRef.
Qed.

Lemma sendMessage_streamingRef msg ts c :
  streamingRef (snd (sendMessage msg ts c)) = streamingRef c.
Proof.
  unfold sendMessage.
  set (c1 := match wsRef c with
             | Some j => match socket_state j c with
                         | Some OPEN => c
                         | _ => connect c
                         end
             | None => connect c
             end).
  assert (streamingRef c1 = streamingRef c) as H1.
  { subst c1. destruct (wsRef c) as [j|]; [|apply connect_streamingRef].
    destruct (socket_state j c) as [[]|]; auto using connect_streamingRef. }
  destruct (wsRef c1) as [j|]; [|exact H1].
  destruct (socket_state j c1) as [[]|]; simpl; try exact H1.
  - rewrite <- H1. apply update_socket_frame.
  - rewrite ws_send_streamingRef. exact H1.
Qed.

Lemma handleSubmit_streamingRef c :
  streamingRef (handleSubmit c) = streamingRef c.
Proof.
  unfold handleSubmit.
  destruct (trim (input c)); [reflexivity|].
  destruct (isStreaming c); [reflexivity|].
  match goal with |- context [sendMessage ?m ?t ?x] =>
    pose proof (sendMessage_streamingRef m t x) as Hs;
    destruct (sendMessage m t x) as [[] c3]
  end; exact Hs.
Qed.

(** Only an inbound frame ever changes the accumulator: a close, a
    transport error, a reconnection, a change of document or a new
    submission leaves in it whatever the previous turn accumulated. *)
Lemma accumulator_survives e c :
  (forall i parsed, e <> EvMessage i parsed) ->
  streamingRef (fire e c) = streamingRef c.
Proof.
  intros He. destruct e as [j|j parsed|j|j| | |msg ts|doc|text|]; simpl.
  - destruct (socket_state j c) as [[]|]; try reflexivity.
    unfold run_onopen.
    destruct (update_socket_frame c j (set_readyState OPEN))
      as (_ & _ & _ & _ & Hb & _).
    destruct (onopen <$> _) as [[|req]|]; try exact Hb.
    rewrite ws_send_streamingRef. exact Hb.
  - destruct (He j parsed eq_refl).
  - destruct (socket_state j c) as [[]|]; reflexivity.
  - destruct (socket_state j c) as [[]|]; try reflexivity; simpl;
      apply update_socket_frame.
  - apply connect_streamingRef.
  - apply disconnect_streamingRef.
  - apply sendMessage_streamingRef.
  - unfold effect_documentId. destruct (str_eq doc (documentId c)); [reflexivity|].
    rewrite connect_streamingRef. simpl. apply disconnect_streamingRef.
  - reflexivity.
  - apply handleSubmit_streamingRef.
Qed.

(** The handler of an error frame clears the snapshot, not the buffer. *)
Lemma handleError_streamingRef e c :
  streamingRef (handleError e c) = streamingRef c /\
  streamingContent (handleError e c) = [].
Proof. split; reflexivity. Qed.

(** C8.  What the code does on an inbound error frame: the error text
    is surfaced, streaming is unmarked, the display snapshot is cleared,
    [close] is called on the socket, and no later frame of that socket is
    processed; but the accumulator keeps the text received so far. *)
Theorem error_frame_keeps_accumulator c i ws data :
  truthy (tok_error data) = true ->
  sockets c !! i = Some ws -> readyState ws = OPEN ->
  let c' := fire (EvMessage i (Some data)) c in
  error c' = tok_error data /\
  isStreaming c' = false /\
  streamingContent c' = [] /\
  socket_state i c' = Some CLOSING /\
  (forall parsed, fire (EvMessage i parsed) c' = c') /\
  streamingRef c' = streamingRef c.
Proof.
  intros He Hws Ho. cbv zeta.
  rewrite (fire_message_open c i ws _ Hws Ho).
  unfold ws_onmessage. rewrite He. unfold ws_close.
  match goal with |- context [update_socket i ?f ?x] =>
    pose proof (update_socket_lookup x i f ws Hws) as Hl;
    destruct (update_socket_frame x i f)
      as (_ & _ & H3 & _ & H5 & _ & _ & H8 & H9);
    set (c' := update_socket i f x) in *
  end.
  cbv beta in Hl. rewrite Ho in Hl.
  rewrite H3, H5, H8, H9. simpl.
  assert (socket_state i c' = Some CLOSING) as Hst
    by (rewrite (socket_state_lookup _ _ _ Hl); reflexivity).
  repeat split.
  - destruct (tok_error data) as [[|x e]|]; try discriminate. reflexivity.
  - exact Hst.
  - intros parsed. rewrite Hst. reflexivity.
Qed.

(** The failing run: "Hel" is streamed, then the server reports an
    error.  The buffer still holds "Hel". *)
Lemma error_frame_keeps_accumulator_witness :
  let c := run [TypeInput (js "q1"); Submit;
                EvMessage 0 (Some (token_frame (js "Hel")))] opened_client in
  let c' := fire (EvMessage 0 (Some (error_frame (js "boom")))) c in
  error c' = Some (js "boom") /\ streamingContent c' = [] /\
  streamingRef c' = js "Hel".
Proof.
  destruct (error_frame_keeps_accumulator
              (run [TypeInput (js "q1"); Submit;
                    EvMessage 0 (Some (token_frame (js "Hel")))] opened_client)
              0%nat
              (mkWebSocket (js "doc-1") OPEN OnOpenConnect
                 [mkRequest (js "q1") true])
              (error_frame (js "boom")) eq_refl eq_refl eq_refl)
    as (H1 & _ & H3 & _ & _ & H6).
  split; [exact H1|]. split; [exact H3|]. rewrite H6. reflexivity.
Defined.

(** The text left behind by an error frame is committed as part of the
    answer of the next turn. *)
Example error_leftover_is_committed_next_turn :
  let c :=
    run [TypeInput (js "q1"); Submit;
         EvMessage 0 (Some (token_frame (js "Hel")));
         EvMessage 0 (Some (error_frame (js "boom")));
         EvClose 0;
         TypeInput (js "q2"); Submit; EvOpen 1;
         EvMessage 1 (Some (token_frame (js "lo")));
         EvMessage 1 (Some (terminal_frame [] []));
         EvClose 1] opened_client in
  messages c =
    [mkChatMessage user (js "q1") None None;
     mkChatMessage user (js "q2") None None;
     mkChatMessage assistant (js "Hello") None (Some [])].
Proof. vm_compute. reflexivity. Qed.

(** C2.  What the code does when the connection closes between two
    turns: turn 1 streams "Hel" and the connection drops; turn 2, on a
    new connection, streams "lo" and completes.  The message committed
    at the end of turn 2 is "Hello": the text of turn 1 is still in the
    accumulator, which no close, reconnection or submission resets. *)
Theorem stale_accumulator_reaches_next_turn :
  let turn1 :=
    [TypeInput (js "q1"); Submit;
     EvMessage 0 (Some (token_frame (js "Hel")));
     EvClose 0] in
  let turn2 :=
    [TypeInput (js "q2"); Submit; EvOpen 1;
     EvMessage 1 (Some (token_frame (js "lo")));
     EvMessage 1 (Some (terminal_frame [] []));
     EvClose 1] in
  let c1 := run turn1 opened_client in
  let c2 := run turn2 c1 in
  messages c1 = [mkChatMessage user (js "q1") None None] /\
  streamingRef c1 = js "Hel" /\ wsRef c1 = None /\ isStreaming c1 = false /\
  messages c2 =
    [mkChatMessage user (js "q1") None None;
     mkChatMessage user (js "q2") None None;
     mkChatMessage assistant (js "Hello") None (Some [])].
Proof. vm_compute. repeat split. Qed.

(** *** How many connections are live *)

Lemma sendMessage_wsRef msg ts c :
  exists i, wsRef (snd (sendMessage msg ts c)) = Some i.
Proof.
  unfold sendMessage.
  set (c1 := match wsRef c with
             | Some j => match socket_state j c with
                         | Some OPEN => c
                         | _ => connect c
                         end
             | None => connect c
             end).
  assert (exists i, wsRef c1 = Some i) as [i Hi].
  { subst c1. unfold connect.
    destruct (wsRef c) as [j|] eqn:E; simpl; [|eauto].
    destruct (socket_state j c) as [[]|]; rewrite ?E; eauto. }
  rewrite Hi. exists i.
  destruct (socket_state i c1) as [[]|]; simpl; try exact Hi.
  - destruct (update_socket_frame c1 i
                (set_onopen (OnOpenQueued (mkRequest msg ts))))
      as (_ & _ & _ & -> & _).
    exact Hi.
  - unfold ws_send.
    match goal with |- context [update_socket i ?f ?x] =>
      destruct (update_socket_frame x i f) as (_ & _ & _ & -> & _)
    end.
    exact Hi.
Qed.

Lemma sendMessage_existing_sockets msg ts c i :
  wsRef c = Some i ->
  length (sockets (snd (sendMessage msg ts c))) = length (sockets c).
Proof.
  intros Hr. unfold sendMessage.
  rewrite (connect_existing c i Hr).
  replace (match wsRef c with
           | Some j => match socket_state j c with
                       | Some OPEN => c
                       | _ => c
                       end
           | None => c
           end) with c
    by (rewrite Hr; destruct (socket_state i c) as [[]|]; reflexivity).
  rewrite Hr.
  destruct (socket_state i c) as [[]|]; simpl; try reflexivity.
  - apply update_socket_length.
  - unfold ws_send. rewrite update_socket_length. reflexivity.
Qed.

(** Two sends in a row: whatever the first one found, the second one
    creates no socket. *)
Lemma second_send_creates_no_socket c m1 t1 m2 t2 :
  let c1 := snd (sendMessage m1 t1 c) in
  length (sockets (snd (sendMessage m2 t2 c1))) = length (sockets c1).
Proof.
  cbv zeta. destruct (sendMessage_wsRef m1 t1 c) as [i Hi].
  apply (sendMessage_existing_sockets m2 t2 _ i Hi).
Qed.

(** [owned c]: every socket that is not closed is the one [wsRef]
    refers to. *)
Definition owned (c : Client) : Prop :=
  forall j w, sockets c !! j = Some w -> readyState w <> CLOSED ->
              wsRef c = Some j.

(** The events other than a disconnection ([disconnect] itself, or the
    effect cleanup that calls it when the document changes). *)
Definition keeps_connection (e : Event) : Prop :=
  match e with
  | CallDisconnect | ChangeDocument _ => False
  | _ => True
  end.

Lemma owned_update j f c :
  (forall w, sockets c !! j = Some w ->
             readyState (f w) <> CLOSED -> readyState w <> CLOSED) ->
  owned c -> owned (update_socket j f c).
Proof.
  intros Hf Hown k w Hk Hw.
  destruct (update_socket_frame c j f) as (_ & _ & _ & -> & _).
  destruct (decide (j = k)) as [->|Hne].
  - destruct (sockets c !! k) as [w0|] eqn:E.
    + rewrite (update_socket_lookup c k f w0 E) in Hk. injection Hk as <-.
      apply (Hown k w0 E). apply (Hf w0 eq_refl Hw).
    + unfold update_socket in Hk. rewrite E in Hk. congruence.
  - rewrite update_socket_lookup_ne in Hk by assumption.
    apply (Hown k w Hk Hw).
Qed.

Lemma owned_same c c' :
  sockets c' = sockets c -> wsRef c' = wsRef c -> owned c -> owned c'.
Proof. unfold owned. intros -> ->. auto. Qed.

Lemma owned_ws_close j c : owned c -> owned (ws_close j c).
Proof.
  apply owned_update. intros w _. destruct (readyState w) eqn:E; simpl;
    rewrite ?E; congruence.
Qed.

Lemma owned_ws_send j req c : owned c -> owned (ws_send j req c).
Proof.
  apply owned_update. intros w _. destruct (readyState w) eqn:E; simpl;
    rewrite ?E; congruence.
Qed.

Lemma owned_connect c : owned c -> owned (connect c).
Proof.
  intros Hown. unfold connect. destruct (wsRef c) eqn:E; [exact Hown|].
  intros j w Hj Hw. simpl in *.
  destruct (decide (j < length (sockets c))%nat) as [Hlt|Hge].
  - rewrite lookup_app_l in Hj by assumption.
    pose proof (Hown j w Hj Hw). congruence.
  - apply lookup_lt_Some in Hj as Hlen. rewrite length_app in Hlen.
    simpl in Hlen. f_equal. lia.
Qed.

Lemma owned_sendMessage msg ts c :
  owned c -> owned (snd (sendMessage msg ts c)).
Proof.
  intros H. unfold sendMessage.
  set (c1 := match wsRef c with
             | Some j => match socket_state j c with
                         | Some OPEN => c
                         | _ => connect c
                         end
             | None => connect c
             end).
  assert (owned c1) as H1.
  { subst c1. destruct (wsRef c) as [j|]; [|apply owned_connect, H].
    destruct (socket_state j c) as [[]|]; auto using owned_connect. }
  destruct (wsRef c1) as [j|]; [|exact H1].
  destruct (socket_state j c1) as [[]|]; simpl; try exact H1.
  - apply owned_update; [|exact H1]. intros w _. simpl. auto.
  - apply owned_ws_send. exact H1.
Qed.

Lemma owned_handleSubmit c : owned c -> owned (handleSubmit c).
Proof.
  intros H. unfold handleSubmit.
  destruct (trim (input c)); [exact H|].
  destruct (isStreaming c); [exact H|].
  match goal with |- context [sendMessage ?m ?t ?x] =>
    pose proof (owned_sendMessage m t x H) as Hs;
    destruct (sendMessage m t x) as [[] c3]
  end; exact Hs.
Qed.

Lemma owned_onmessage j parsed c : owned c -> owned (ws_onmessage j parsed c).
Proof.
  intros H. unfold ws_onmessage. destruct parsed as [data|]; [|exact H].
  destruct (truthy (tok_error data)).
  - apply owned_ws_close. exact H.
  - match goal with |- context [if ?b then handleMessage data c else c] =>
      set (c1 := if b then handleMessage data c else c);
      assert (owned c1) as H1 by (subst c1; destruct b; exact H)
    end.
    destruct (done data); [|exact H1].
    apply owned_ws_close. unfold handleComplete. simpl.
    destruct (trim (streamingRef c1)); exact H1.
Qed.

Lemma owned_fire e c : keeps_connection e -> owned c -> owned (fire e c).
Proof.
  intros He H. destruct e as [j|j parsed|j|j| | |msg ts|doc|text|]; simpl;
    try destruct He.
  - destruct (socket_state j c) as [[]|] eqn:E; try exact H.
    apply socket_state_inv in E as (w0 & Hw0 & Hr0).
    assert (owned (update_socket j (set_readyState OPEN) c)) as H1.
    { apply owned_update; [|exact H]. intros w Hw _. congruence. }
    unfold run_onopen. destruct (onopen <$> _) as [[|req]|]; try exact H1.
    apply owned_ws_send. exact H1.
  - destruct (socket_state j c) as [[]|]; try exact H.
    apply owned_onmessage, H.
  - destruct (socket_state j c) as [[]|]; exact H.
  - assert (forall w0, sockets c !! j = Some w0 -> readyState w0 <> CLOSED ->
              owned (ws_onclose (update_socket j (set_readyState CLOSED) c)))
      as Hclose.
    { intros w0 Hw0 Hr0 k w Hk Hw. exfalso.
      unfold ws_onclose in Hk. simpl in Hk.
      destruct (decide (j = k)) as [<-|Hne].
      - rewrite (update_socket_lookup c j _ w0 Hw0) in Hk.
        injection Hk as <-. apply Hw. reflexivity.
      - rewrite update_socket_lookup_ne in Hk by assumption.
        pose proof (H k w Hk Hw). pose proof (H j w0 Hw0 Hr0). congruence. }
    destruct (socket_state j c) as [[]|] eqn:E; try exact H;
      apply socket_state_inv in E as (w0 & Hw0 & Hr0);
      apply (Hclose w0 Hw0); congruence.
  - apply owned_connect, H.
  - apply owned_sendMessage, H.
  - exact H.
  - apply owned_handleSubmit, H.
Qed.

Lemma owned_run es c :
  Forall keeps_connection es -> owned c -> owned (run es c).
Proof.
  unfold run. revert c. induction es as [|e es IH]; intros c Hes H; [exact H|].
  inversion Hes; subst. simpl. apply IH; [assumption|].
  apply owned_fire; assumption.
Qed.

Lemma filter_none {A} (P : A -> bool) (l : list A) :
  (forall j x, l !! j = Some x -> P x <> true) ->
  filter (fun x => P x = true) l = [].
Proof.
  induction l as [|x l IH]; intros H; [reflexivity|].
  rewrite filter_cons. destruct (decide (P x = true)) as [Hx|Hx].
  - destruct (H 0%nat x eq_refl Hx).
  - apply IH. intros j y Hj. apply (H (S j) y Hj).
Qed.

Lemma filter_at_most_one {A} (P : A -> bool) (l : list A) :
  (forall j1 j2 x1 x2, l !! j1 = Some x1 -> l !! j2 = Some x2 ->
     P x1 = true -> P x2 = true -> j1 = j2) ->
  (length (filter (fun x => P x = true) l) <= 1)%nat.
Proof.
  induction l as [|x l IH]; intros H; [simpl; lia|].
  rewrite filter_cons. destruct (decide (P x = true)) as [Hx|Hx].
  - assert (filter (fun x => P x = true) l = []) as ->.
    { apply filter_none. intros j y Hj Py.
      specialize (H 0%nat (S j) x y eq_refl Hj Hx Py). discriminate. }
    simpl. lia.
  - apply IH. intros j1 j2 x1 x2 H1 H2 P1 P2.
    specialize (H (S j1) (S j2) x1 x2 H1 H2 P1 P2). lia.
Qed.

(** Without a disconnection in between, at most one connection is ever
    live: the guard of [connect] does what it is there for. *)
Lemma single_connection_without_disconnect doc es :
  Forall keeps_connection es ->
  (length (live_connections (run es (mount doc))) <= 1)%nat.
Proof.
  intros Hes.
  assert (owned (run es (mount doc))) as Hown.
  { apply owned_run; [exact Hes|]. intros j w Hj. discriminate. }
  apply filter_at_most_one. intros j1 j2 x1 x2 H1 H2 P1 P2.
  assert (readyState x1 <> CLOSED) as R1
    by (unfold live in P1; destruct (readyState x1); congruence).
  assert (readyState x2 <> CLOSED) as R2
    by (unfold live in P2; destruct (readyState x2); congruence).
  pose proof (Hown j1 x1 H1 R1). pose proof (Hown j2 x2 H2 R2). congruence.
Qed.

(** C6.  What the code does when the document changes, the close event
    of the discarded socket arrives, and a message is sent: [connect]
    is indeed a no-op while [wsRef] holds a socket, and a second send
    creates none; but the stale close event clears [wsRef] although it
    refers to the new socket by then, so the send opens one more.  Two
    connections to the same target are open at the same time. *)
Theorem stale_close_allows_second_connection :
  let c0 := effect_mount (mount (js "doc-1")) in
  let c :=
    run [EvOpen 0;
         ChangeDocument (js "doc-2");   (* cleanup: disconnect; effect: connect *)
         EvOpen 1;
         EvClose 0;                     (* close event of the old socket *)
         TypeInput (js "hi"); Submit;   (* reconnect on demand *)
         EvOpen 2] c0 in
  (forall d i, wsRef d = Some i -> connect d = d) /\
  live_connections c =
    [mkWebSocket (js "doc-2") OPEN OnOpenConnect [];
     mkWebSocket (js "doc-2") OPEN
       (OnOpenQueued (mkRequest (js "hi") true)) [mkRequest (js "hi") true]] /\
  wsRef c = Some 2%nat.
Proof.
  split; [exact connect_existing|]. vm_compute. split; reflexivity.
Qed.

End ChatFacts.

(** ** Seek coordination *)

Module SeekFacts.
Import Seek.

Lemma Object_is_refl n : Object_is n n = true.
Proof.
  destruct n as [s|s| |s m e]; simpl;
    rewrite ?Bool.eqb_reflx, ?Pos.eqb_refl, ?Z.eqb_refl; reflexivity.
Qed.

Lemma same_value_refl v : same_value v v = true.
Proof. destruct v; simpl; [apply Object_is_refl|reflexivity]. Qed.

(** After a commit the recorded dependencies are those of the state. *)
Lemma commit_effectDeps st :
  effectDeps (commit st) = Some (seekTimestamp (commit st), isReady (commit st)).
Proof. reflexivity. Qed.

Lemma seek_effect_deps st :
  seekTimestamp (seek_effect st) = seekTimestamp st /\
  isReady (seek_effect st) = isReady st.
Proof.
  unfold seek_effect. destruct (seekTimestamp st) eqn:E; [|auto].
  destruct (isReady st && playerRef st); split; simpl; congruence.
Qed.

Lemma handleSeekToTimestamp_deps n st :
  let st' := handleSeekToTimestamp n st in
  seekTimestamp st' = Some n /\ isReady st' = isReady st /\
  effectDeps st' = Some (Some n, isReady st).
Proof.
  unfold handleSeekToTimestamp, commit. simpl.
  match goal with |- context [if ?b then seek_effect ?x else ?x] =>
    destruct (seek_effect_deps x) as [H1 H2]; destruct b; simpl;
      rewrite ?H1, ?H2
  end; auto.
Qed.

(** A mounted player that has reported ready, with no seek requested. *)
Definition ready_player : State := onReady (commit initial).

(** C1.  What the code does when the same position is requested twice
    in a row: the second [setSeekTimestamp(N)] leaves the dependency
    array of the seek effect unchanged, so the effect does not run and
    [seekTo] is not called again.  On a ready player the two requests
    result in one seek invocation. *)
Theorem repeated_seek_seeks_once (N : number) :
  (forall st,
      seekTo_calls (handleSeekToTimestamp N (handleSeekToTimestamp N st)) =
      seekTo_calls (handleSeekToTimestamp N st)) /\
  seekTo_calls
    (handleSeekToTimestamp N (handleSeekToTimestamp N ready_player)) = [N].
Proof.
  assert (forall st,
      seekTo_calls (handleSeekToTimestamp N (handleSeekToTimestamp N st)) =
      seekTo_calls (handleSeekToTimestamp N st)) as Hsame.
  { intros st.
    destruct (handleSeekToTimestamp_deps N st) as (Hs & Hr & Hd).
    remember (handleSeekToTimestamp N st) as st1 eqn:E. clear E.
    cbv zeta in Hs, Hr, Hd.
    unfold handleSeekToTimestamp, commit, deps_changed. simpl.
    rewrite Hd. simpl. rewrite Object_is_refl, Hr, Bool.eqb_reflx. reflexivity. }
  split; [exact Hsame|].
  rewrite Hsame. vm_compute. reflexivity.
Qed.

(** The seek at 1:23 requested twice by clicking the same link. *)
Example click_same_timestamp_twice :
  let n := number_of_N 83 in
  seekTo_calls (handleSeekToTimestamp n (handleSeekToTimestamp n ready_player))
  = [n].
Proof. reflexivity. Qed.

(** A request for another position in between makes the effect run
    again. *)
Example seek_elsewhere_in_between :
  let n := number_of_N 83 in
  let m := number_of_N 3723 in
  seekTo_calls
    (handleSeekToTimestamp n
       (handleSeekToTimestamp m (handleSeekToTimestamp n ready_player)))
  = [n; m; n].
Proof. reflexivity. Qed.

End SeekFacts.

(** ** Document status polling *)

Module PollerFacts.
Import Poller.

Lemma str_eq_true a b : str_eq a b = true <-> a = b.
Proof. unfold str_eq. apply bool_decide_eq_true. Qed.

Lemma str_eq_refl a : str_eq a a = true.
Proof. apply str_eq_true. reflexivity. Qed.

Lemma poll_effect_documents st : documents (poll_effect st) = documents st.
Proof. unfold poll_effect. destruct (List.filter _ _); reflexivity. Qed.

Lemma poll_effect_selected st :
  selectedDocument (poll_effect st) = selectedDocument st.
Proof. unfold poll_effect. destruct (List.filter _ _); reflexivity. Qed.

Lemma poll_effect_queries st : queries (poll_effect st) = queries st.
Proof. unfold poll_effect. destruct (List.filter _ _); reflexivity. Qed.

(** The timer installed by the effect polls exactly the unprocessed
    documents, and exists only if there are some. *)
Lemma poll_effect_interval st :
  let unprocessed := List.filter (fun d => negb (processed d)) (documents st) in
  interval (poll_effect st) =
    match unprocessed with
    | [] => None
    | _ :: _ => Some (mkClosure unprocessed (selectedDocument st))
    end.
Proof. unfold poll_effect. simpl. destruct (List.filter _ _); reflexivity. Qed.

Section OneTick.

Variable getDocumentStatus : jsstring -> option Document.

(** The status service answers about the document it was asked about. *)
Hypothesis answers_same_id :
  forall x u, getDocumentStatus x = Some u -> id u = x.

Variable cl : Closure.

Let step := poll_one getDocumentStatus cl.

Lemma poll_one_queries st doc :
  queries (step st doc) = queries st ++ [id doc].
Proof.
  unfold step, poll_one. destruct (getDocumentStatus (id doc)) as [u|];
    [destruct (processed u)|]; reflexivity.
Qed.

Lemma poll_one_interval st doc : interval (step st doc) = interval st.
Proof.
  unfold step, poll_one. destruct (getDocumentStatus (id doc)) as [u|];
    [destruct (processed u)|]; reflexivity.
Qed.

Lemma fold_queries l st :
  queries (fold_left step l st) = queries st ++ map id l.
Proof.
  revert st. induction l as [|d l IH]; intros st; simpl.
  - rewrite app_nil_r. reflexivity.
  - rewrite IH, poll_one_queries, <- app_assoc. reflexivity.
Qed.

(** A record is only ever replaced by a processed one. *)
Lemma poll_one_stays_processed st doc a :
  (forall d, In d (documents st) -> id d = a -> processed d = true) ->
  forall d, In d (documents (step st doc)) -> id d = a -> processed d = true.
Proof.
  intros H d. unfold step, poll_one.
  destruct (getDocumentStatus (id doc)) as [u|]; [|apply H].
  destruct (processed u) eqn:Pu; [|apply H]. simpl.
  rewrite in_map_iff. intros (d0 & Hd & Hin) Ha.
  destruct (str_eq (id d0) (id u)); subst d; [exact Pu|].
  apply (H d0 Hin Ha).
Qed.

Lemma fold_stays_processed l st a :
  (forall d, In d (documents st) -> id d = a -> processed d = true) ->
  forall d, In d (documents (fold_left step l st)) -> id d = a ->
            processed d = true.
Proof.
  revert st. induction l as [|x l IH]; intros st H; simpl; [exact H|].
  apply IH. apply poll_one_stays_processed, H.
Qed.

Section Observed.

(** Document [a] is reported processed, with new record [upd]. *)
Variable a : jsstring.
Variable upd : Document.
Hypothesis status_a : getDocumentStatus a = Some upd.
Hypothesis upd_processed : processed upd = true.

Lemma upd_id : id upd = a.
Proof using answers_same_id status_a. apply answers_same_id, status_a. Qed.

Definition replaced (st : State) : Prop :=
  forall d, In d (documents st) -> id d = a -> d = upd.

Definition reselected (st : State) : Prop :=
  forall s, closure_selectedDocument cl = Some s -> id s = a ->
            selectedDocument st = Some upd.

Lemma poll_one_establishes st doc :
  id doc = a -> replaced (step st doc) /\ reselected (step st doc).
Proof using answers_same_id status_a upd_processed.
  intros Hd. unfold step, poll_one. rewrite Hd, status_a, upd_processed.
  pose proof upd_id as Hu. split.
  - intros d. simpl. rewrite in_map_iff. intros (d0 & Hd0 & _) Ha.
    destruct (str_eq (id d0) (id upd)) eqn:E; [congruence|].
    subst d0. rewrite Ha, Hu, str_eq_refl in E. discriminate.
  - intros s Hs Ha. simpl. rewrite Hs, Ha, Hu, str_eq_refl. reflexivity.
Qed.

Lemma poll_one_preserves st doc :
  replaced st /\ reselected st ->
  replaced (step st doc) /\ reselected (step st doc).
Proof using answers_same_id status_a upd_processed.
  intros [Hrep Hsel].
  destruct (decide (id doc = a)) as [Ha|Hne];
    [apply poll_one_establishes, Ha|].
  unfold step, poll_one.
  destruct (getDocumentStatus (id doc)) as [u|] eqn:Eu; [|split; assumption].
  destruct (processed u); [|split; assumption].
  apply answers_same_id in Eu. split.
  - intros d. simpl. rewrite in_map_iff. intros (d0 & Hd0 & Hin) Ha.
    destruct (str_eq (id d0) (id u)) eqn:E.
    + subst d. congruence.
    + subst d0. apply (Hrep d Hin Ha).
  - intros s Hs Ha. simpl. rewrite Hs.
    destruct (str_eq (id s) (id u)) eqn:E.
    + apply str_eq_true in E. congruence.
    + apply (Hsel s Hs Ha).
Qed.

Lemma fold_preserves l st :
  replaced st /\ reselected st ->
  replaced (fold_left step l st) /\ reselected (fold_left step l st).
Proof using answers_same_id status_a upd_processed.
  revert st. induction l as [|x l IH]; intros st H; simpl; [exact H|].
  apply IH, poll_one_preserves, H.
Qed.

Lemma fold_establishes l st doc :
  In doc l -> id doc = a ->
  replaced (fold_left step l st) /\ reselected (fold_left step l st).
Proof using answers_same_id status_a upd_processed.
  revert st. induction l as [|x l IH]; intros st Hin Ha; [destruct Hin|].
  simpl. destruct Hin as [->|Hin].
  - apply fold_preserves, poll_one_establishes, Ha.
  - apply IH; assumption.
Qed.

End Observed.

(** Records are replaced by records of the same id, in place. *)
Lemma fold_ids l st :
  map id (documents (fold_left step l st)) = map id (documents st).
Proof.
  revert st. induction l as [|x l IH]; intros st; simpl; [reflexivity|].
  rewrite IH. unfold step, poll_one.
  destruct (getDocumentStatus (id x)) as [u|]; [|reflexivity].
  destruct (processed u); [|reflexivity]. simpl.
  rewrite map_map. apply map_ext. intros d.
  destruct (str_eq (id d) (id u)) eqn:E; [|reflexivity].
  apply str_eq_true in E. congruence.
Qed.

(** A document whose query failed keeps its record. *)
Lemma poll_one_keeps st doc d :
  getDocumentStatus (id d) = None ->
  In d (documents st) -> In d (documents (step st doc)).
Proof using answers_same_id.
  intros Hfail Hin. unfold step, poll_one.
  destruct (getDocumentStatus (id doc)) as [u|] eqn:Eu; [|exact Hin].
  destruct (processed u); [|exact Hin]. simpl.
  apply in_map_iff. exists d. split; [|exact Hin].
  destruct (str_eq (id d) (id u)) eqn:E; [|reflexivity].
  apply str_eq_true in E. pose proof (answers_same_id _ _ Eu) as Hid.
  assert (id d = id doc) as Hd by congruence.
  rewrite Hd in Hfail. congruence.
Qed.

Lemma fold_keeps l st d :
  getDocumentStatus (id d) = None ->
  In d (documents st) -> In d (documents (fold_left step l st)).
Proof using answers_same_id.
  intros Hfail. revert st. induction l as [|x l IH]; intros st Hin; simpl;
    [exact Hin|].
  apply IH, poll_one_keeps; assumption.
Qed.

End OneTick.

(** How often the status of document [a] has been asked for. *)
Definition times_queried (a : jsstring) (st : State) : nat :=
  length (List.filter (str_eq a) (queries st)).

Definition all_processed (a : jsstring) (st : State) : Prop :=
  forall d, In d (documents st) -> id d = a -> processed d = true.

Lemma tick_queries g st cl :
  interval st = Some cl ->
  queries (tick g st) = queries st ++ map id (unprocessedDocs cl).
Proof.
  intros H. unfold tick. rewrite H, poll_effect_queries. apply fold_queries.
Qed.

Lemma tick_idle g st : interval st = None -> tick g st = st.
Proof. unfold tick. intros ->. reflexivity. Qed.

Lemma tick_all_processed g a st :
  all_processed a st -> all_processed a (tick g st).
Proof.
  intros H. unfold tick. destruct (interval st) as [cl|]; [|exact H].
  unfold all_processed. rewrite poll_effect_documents.
  apply fold_stays_processed, H.
Qed.

(** Once every record of [a] is processed, the timer the effect installs
    does not list [a]. *)
Lemma poll_effect_skips a st cl :
  all_processed a st -> interval (poll_effect st) = Some cl ->
  ~ In a (map id (unprocessedDocs cl)).
Proof.
  intros H Hi Hin. rewrite poll_effect_interval in Hi. cbv zeta in Hi.
  destruct (List.filter _ _) as [|x l] eqn:E; [discriminate|].
  injection Hi as <-. cbn [unprocessedDocs] in Hin. rewrite <- E in Hin.
  apply in_map_iff in Hin as (d & Hd & Hin).
  apply filter_In in Hin as [Hin Hp].
  rewrite (H d Hin Hd) in Hp. discriminate.
Qed.

Lemma filter_app_none a l q :
  ~ In a l ->
  length (List.filter (str_eq a) (q ++ l)) = length (List.filter (str_eq a) q).
Proof.
  intros Hn. rewrite List.filter_app, length_app.
  replace (List.filter (str_eq a) l) with (@nil jsstring); [simpl; lia|].
  symmetry. induction l as [|x l IH]; [reflexivity|]. simpl.
  destruct (str_eq a x) eqn:E.
  - apply str_eq_true in E. destruct Hn. left. congruence.
  - apply IH. intros Hin. apply Hn. right. exact Hin.
Qed.

(** From then on no firing of the timer asks for [a] again. *)
Lemma ticks_never_query_again a answers st0 :
  all_processed a st0 ->
  times_queried a (ticks answers (poll_effect st0)) =
  times_queried a (poll_effect st0).
Proof.
  unfold ticks. revert st0.
  induction answers as [|g gs IH]; intros st0 H; [reflexivity|].
  simpl.
  assert (times_queried a (tick g (poll_effect st0)) =
          times_queried a (poll_effect st0)) as Hq.
  { destruct (interval (poll_effect st0)) as [cl|] eqn:Ei.
    - unfold times_queried. rewrite (tick_queries g _ cl Ei).
      apply filter_app_none, (poll_effect_skips a st0 cl H Ei).
    - rewrite tick_idle by exact Ei. reflexivity. }
  rewrite <- Hq.
  assert (all_processed a (tick g (poll_effect st0))) as H'.
  { apply tick_all_processed. unfold all_processed.
    rewrite poll_effect_documents. exact H. }
  unfold tick in *. destruct (interval (poll_effect st0)) as [cl|].
  - apply IH. unfold all_processed in *.
    rewrite poll_effect_documents in H'. exact H'.
  - apply IH, H.
Qed.

Lemma unprocessed_in_closure st0 doc :
  In doc (documents st0) -> processed doc = false ->
  exists cl, interval (poll_effect st0) = Some cl /\
             unprocessedDocs cl =
               List.filter (fun d => negb (processed d)) (documents st0) /\
             closure_selectedDocument cl = selectedDocument st0 /\
             In doc (unprocessedDocs cl).
Proof.
  intros Hin Hp. rewrite poll_effect_interval. cbv zeta.
  assert (In doc (List.filter (fun d => negb (processed d)) (documents st0)))
    as Hf by (apply filter_In; rewrite Hp; auto).
  destruct (List.filter _ _) as [|x l] eqn:E; [destruct Hf|].
  eexists. split; [reflexivity|]. simpl. auto.
Qed.

(** With no unprocessed document the effect sets no timer, and nothing
    is ever queried. *)
Lemma no_unprocessed_no_timer st0 :
  (forall d, In d (documents st0) -> processed d = true) ->
  interval (poll_effect st0) = None /\
  forall answers, ticks answers (poll_effect st0) = poll_effect st0.
Proof.
  intros H.
  assert (interval (poll_effect st0) = None) as Hi.
  { rewrite poll_effect_interval. cbv zeta.
    destruct (List.filter _ _) as [|x l] eqn:E; [reflexivity|].
    assert (In x (List.filter (fun d => negb (processed d)) (documents st0)))
      as Hx by (rewrite E; left; reflexivity).
    apply filter_In in Hx as [Hin Hp]. rewrite (H x Hin) in Hp. discriminate. }
  split; [exact Hi|].
  unfold ticks. induction answers as [|g gs IH]; [reflexivity|].
  simpl. rewrite tick_idle by exact Hi. exact IH.
Qed.

(** A document whose status query failed is polled again by the next
    firing. *)
Lemma failed_query_is_retried g g' st0 d :
  (forall x u, g x = Some u -> id u = x) ->
  In d (documents st0) -> processed d = false -> g (id d) = None ->
  let st1 := tick g (poll_effect st0) in
  In d (documents st1) /\
  (exists cl, interval st1 = Some cl /\ In d (unprocessedDocs cl)) /\
  exists before after,
    queries (tick g' st1) = queries st1 ++ before ++ [id d] ++ after.
Proof.
  intros Hg Hin Hp Hfail.
  destruct (unprocessed_in_closure st0 d Hin Hp) as (cl & Hi & _ & _ & _).
  cbv zeta.
  assert (In d (documents (tick g (poll_effect st0)))) as Hin1.
  { unfold tick. rewrite Hi, poll_effect_documents.
    apply fold_keeps; [exact Hg|exact Hfail|].
    rewrite poll_effect_documents. exact Hin. }
  assert (exists st, tick g (poll_effect st0) = poll_effect st /\
                     In d (documents st)) as (st & Hst & Hd).
  { unfold tick in *. rewrite Hi in *. eexists. split; [reflexivity|].
    rewrite poll_effect_documents in Hin1. exact Hin1. }
  rewrite Hst.
  destruct (unprocessed_in_closure st d Hd Hp) as (cl1 & Hi1 & _ & _ & Hd1).
  split; [rewrite poll_effect_documents; exact Hd|].
  split; [eauto|].
  rewrite (tick_queries g' _ cl1 Hi1).
  apply in_split in Hd1 as (l1 & l2 & ->).
  exists (map id l1), (map id l2). rewrite map_app. reflexivity.
Qed.

(** Status convergence when every firing is answered in full before the
    next event.  When such a firing finds that an unprocessed document
    is now processed, every record of the collection with that id is the
    new object afterwards, the selection is the new object too if that
    document was the selected one, the timer the effect then installs
    does not list the document, and no later such firing, whatever the
    service answers, asks for its status again.  When no document is
    unprocessed there is no timer and nothing is queried.  A document
    whose query failed stays in the collection, stays listed by the
    timer, and is queried again by the next firing. *)
Theorem status_convergence g st0 doc upd :
  (forall x u, g x = Some u -> id u = x) ->
  In doc (documents st0) -> processed doc = false ->
  g (id doc) = Some upd -> processed upd = true ->
  let st := poll_effect st0 in
  let st' := tick g st in
  (forall d, In d (documents st') -> id d = id doc -> d = upd) /\
  map id (documents st') = map id (documents st0) /\
  (forall s, selectedDocument st0 = Some s -> id s = id doc ->
             selectedDocument st' = Some upd) /\
  (forall cl', interval st' = Some cl' ->
               ~ In (id doc) (map id (unprocessedDocs cl'))) /\
  (forall answers,
      times_queried (id doc) (ticks answers st') = times_queried (id doc) st') /\
  (forall st1,
      (forall d, In d (documents st1) -> processed d = true) ->
      interval (poll_effect st1) = None /\
      forall answers, ticks answers (poll_effect st1) = poll_effect st1) /\
  (forall g' d,
      In d (documents st0) -> processed d = false -> g (id d) = None ->
      (exists cl', interval st' = Some cl' /\ In d (unprocessedDocs cl')) /\
      exists before after,
        queries (tick g' st') = queries st' ++ before ++ [id d] ++ after).
Proof.
  intros Hg Hin Hp Hs Hu.
  destruct (unprocessed_in_closure st0 doc Hin Hp)
    as (cl & Hi & Hcl & Hsel & Hdoc).
  cbv zeta.
  assert (tick g (poll_effect st0) =
          poll_effect (fold_left (poll_one g cl) (unprocessedDocs cl)
                         (poll_effect st0))) as Htick
    by (unfold tick; rewrite Hi; reflexivity).
  set (st2 := fold_left (poll_one g cl) (unprocessedDocs cl) (poll_effect st0))
    in Htick.
  destruct (fold_establishes g Hg cl (id doc) upd Hs Hu
              (unprocessedDocs cl) (poll_effect st0) doc Hdoc eq_refl)
    as [Hrep Hres].
  fold st2 in Hrep, Hres.
  assert (all_processed (id doc) st2) as Hall.
  { intros d Hd Hid. rewrite (Hrep d Hd Hid). exact Hu. }
  split; [|split; [|split; [|split; [|split; [|split]]]]].
  - rewrite Htick, poll_effect_documents. exact Hrep.
  - rewrite Htick, poll_effect_documents. subst st2.
    rewrite <- (poll_effect_documents st0). apply fold_ids.
  - intros s Hs0 Hid. rewrite Htick, poll_effect_selected.
    apply (Hres s); [rewrite Hsel; exact Hs0|exact Hid].
  - intros cl' Hi'. rewrite Htick in Hi'.
    apply (poll_effect_skips (id doc) st2 cl' Hall Hi').
  - intros answers. rewrite Htick.
    apply ticks_never_query_again, Hall.
  - apply no_unprocessed_no_timer.
  - intros g' d Hd Hpd Hfail.
    destruct (failed_query_is_retried g g' st0 d Hg Hd Hpd Hfail)
      as (_ & H2 & H3).
    split; assumption.
Qed.

(** One unprocessed upload, selected, reported processed at the first
    firing of the timer. *)
Definition doc_a (done_ : bool) : Document :=
  mkDocument (js "a") (js "talk.mp3") audio (number_of_N 1024)
    (if done_ then Some (js "A talk.") else None) done_
    (js "2024-01-01T00:00:00Z") (number_of_N (if done_ then 3 else 0)).

Definition status_service (x : jsstring) : option Document :=
  if str_eq x (js "a") then Some (doc_a true) else None.

Lemma status_convergence_witness :
  let st := init [doc_a false] (Some (doc_a false)) in
  let st' := tick status_service st in
  documents st' = [doc_a true] /\
  selectedDocument st' = Some (doc_a true) /\
  interval st' = None /\
  queries (ticks [status_service; status_service] st') = [js "a"].
Proof.
  assert (forall x u, status_service x = Some u -> id u = x) as Hsame.
  { intros x u. unfold status_service.
    destruct (str_eq x (js "a")) eqn:E; [|discriminate].
    apply str_eq_true in E. intros [= <-]. symmetry. exact E. }
  destruct (status_convergence status_service
              (mkState [doc_a false] (Some (doc_a false)) None [])
              (doc_a false) (doc_a true) Hsame
              (or_introl eq_refl) eq_refl eq_refl eq_refl)
    as (_ & _ & H3 & _).
  split; [vm_compute; reflexivity|].
  split; [exact (H3 (doc_a false) eq_refl eq_refl)|].
  split; vm_compute; reflexivity.
Defined.

End PollerFacts.

(** * Further code of the cited files *)

(** ** Time formatting ([ChatInterface.tsx] [formatTimestamp],
       [MediaPlayer.tsx] [formatTime])

    Both functions are embedded on whole, non-negative seconds, where
    [Math.floor(seconds / 60)] and [seconds % 60] are the integer
    quotient and remainder. *)

Module Format.

Definition inspect {A} (a : A) : {b | a = b} := exist _ a eq_refl.

(** The decimal digits of [n], most significant first, in front of
    [acc]. *)
Equations? toDigits (n : N) (acc : jsstring) : jsstring
  by wf (N.to_nat n) lt :=
  toDigits n acc with inspect (n <? 10) := {
    | exist _ true _ => (48 + n) :: acc
    | exist _ false _ => toDigits (n / 10) ((48 + n mod 10) :: acc)
  }.
Proof.
  apply N.ltb_ge in e.
  assert (n / 10 < n) by (apply N.div_lt; lia). lia.
Qed.

(** [Number.MAX_SAFE_INTEGER], [2^53 - 1]: up to it every integer is a
    double, [Math.floor(x / 60)] and [Math.floor(x / 3600)] are the
    integer quotients and [toString()] writes the exact decimal digits.
    Beyond it JavaScript rounds, and from [1e21] on it writes exponent
    notation; the embedding of this module stands for the code on
    integers up to this bound only. *)
Definition MAX_SAFE_INTEGER : N := 9007199254740991.

(** [String(n)] (template interpolation, [toString()]) of a non-negative
    integer [n <= MAX_SAFE_INTEGER]. *)
Definition toString (n : N) : jsstring := toDigits n [].

(** [s.padStart(targetLength, padChar)] with a one-character pad. *)
Definition padStart (targetLength : nat) (padChar : N) (s : jsstring)
  : jsstring :=
  repeat padChar (targetLength - length s) ++ s.

Definition ZERO : N := 48.

(** [formatTimestamp] of [ChatInterface.tsx], on a whole number of
    seconds up to [MAX_SAFE_INTEGER]. *)
Definition formatTimestamp (seconds : N) : jsstring :=
  let mins := seconds / 60 in
  let secs := seconds mod 60 in
  toString mins ++ js ":" ++ padStart 2 ZERO (toString secs).

(** [formatTime] of [MediaPlayer.tsx], on a whole number of seconds up
    to [MAX_SAFE_INTEGER]. *)
Definition formatTime (seconds : N) : jsstring :=
  let hours := seconds / 3600 in
  let minutes := (seconds mod 3600) / 60 in
  let secs := seconds mod 60 in
  if 0 <? hours then
    toString hours ++ js ":" ++ padStart 2 ZERO (toString minutes)
      ++ js ":" ++ padStart 2 ZERO (toString secs)
  else
    toString minutes ++ js ":" ++ padStart 2 ZERO (toString secs).

(** The text a formatted time makes when written between brackets, as
    answers cite positions. *)
Definition bracketed (s : jsstring) : jsstring := js "[" ++ s ++ js "]".

End Format.

Module FormatFacts.
Import Grammar GrammarSpec GrammarFacts Format.

Lemma toDigits_small n acc : n < 10 -> toDigits n acc = (48 + n) :: acc.
Proof.
  intros H. funelim (toDigits n acc); [reflexivity|].
  assert ((n <? 10) = true) by (apply N.ltb_lt; assumption). congruence.
Qed.

Lemma toDigits_large n acc :
  10 <= n -> toDigits n acc = toDigits (n / 10) ((48 + n mod 10) :: acc).
Proof.
  intros H. funelim (toDigits n acc); [|reflexivity].
  assert ((n <? 10) = false) by (apply N.ltb_ge; assumption). congruence.
Qed.

Lemma toDigits_app n acc : toDigits n acc = toDigits n [] ++ acc.
Proof.
  revert acc. induction n as [n IH] using (well_founded_induction N.lt_wf_0).
  intros acc. destruct (N.lt_ge_cases n 10) as [Hlt|Hge].
  - rewrite !toDigits_small by exact Hlt. reflexivity.
  - rewrite !(toDigits_large n) by exact Hge.
    assert (n / 10 < n) as Hd by (apply N.div_lt; lia).
    rewrite (IH _ Hd ((48 + n mod 10) :: acc)), (IH _ Hd [48 + n mod 10]).
    rewrite <- app_assoc. reflexivity.
Qed.

Lemma toString_small n : n < 10 -> toString n = [48 + n].
Proof. apply toDigits_small. Qed.

Lemma toString_large n :
  10 <= n -> toString n = toString (n / 10) ++ [48 + n mod 10].
Proof.
  intros H. unfold toString. rewrite toDigits_large by exact H.
  apply toDigits_app.
Qed.

Lemma is_digit_offset d : d < 10 -> is_digit (48 + d) = true.
Proof.
  intros H. unfold is_digit. apply andb_true_intro.
  split; apply N.leb_le; lia.
Qed.

Lemma toString_digits n : digits (toString n).
Proof.
  induction n as [n IH] using (well_founded_induction N.lt_wf_0).
  destruct (N.lt_ge_cases n 10) as [Hlt|Hge].
  - rewrite toString_small by exact Hlt.
    apply digits_1, is_digit_offset, Hlt.
  - rewrite toString_large by exact Hge. apply Forall_app. split.
    + apply IH, N.div_lt; lia.
    + apply digits_1, is_digit_offset, N.mod_lt. lia.
Qed.

Lemma toString_nonempty n : (1 <= length (toString n))%nat.
Proof.
  destruct (N.lt_ge_cases n 10) as [Hlt|Hge].
  - rewrite toString_small by exact Hlt. simpl. lia.
  - rewrite toString_large, length_app by exact Hge. simpl. lia.
Qed.

Lemma decimal_one a : decimal [48 + a] = a.
Proof. unfold decimal. cbn [fold_left]. lia. Qed.

Lemma decimal_two a b : decimal [48 + a; 48 + b] = 10 * a + b.
Proof. unfold decimal. cbn [fold_left]. lia. Qed.

(** The interpolation and [parseInt] are inverse to each other. *)
Lemma parseInt_toString n : parseInt (toString n) = n.
Proof.
  rewrite parseInt_decimal by apply toString_digits.
  induction n as [n IH] using (well_founded_induction N.lt_wf_0).
  destruct (N.lt_ge_cases n 10) as [Hlt|Hge].
  - rewrite toString_small by exact Hlt. apply decimal_one.
  - rewrite toString_large by exact Hge. unfold decimal in *.
    rewrite fold_left_app. cbn [fold_left].
    rewrite IH by (apply N.div_lt; lia).
    pose proof (N.Div0.div_mod n 10) as Hn.
    revert Hn. generalize (n / 10) (n mod 10). intros q r Hn. lia.
Qed.

(** Numbers below one hundred, padded to two characters, are two digits
    with the value of the number. *)
Lemma padStart_two n :
  n < 100 ->
  let s := padStart 2 ZERO (toString n) in
  length s = 2%nat /\ digits s /\ decimal s = n.
Proof.
  intros H. cbv zeta. destruct (N.lt_ge_cases n 10) as [Hlt|Hge].
  - rewrite toString_small by exact Hlt.
    change (padStart 2 ZERO [48 + n]) with [48 + 0; 48 + n].
    split; [reflexivity|]. split; [|rewrite decimal_two; lia].
    apply digits_2; [reflexivity|apply is_digit_offset, Hlt].
  - rewrite toString_large by exact Hge.
    assert (n / 10 < 10) as Hq by (apply N.Div0.div_lt_upper_bound; lia).
    rewrite toString_small by exact Hq.
    change (padStart 2 ZERO ([48 + n / 10] ++ [48 + n mod 10]))
      with [48 + n / 10; 48 + n mod 10].
    split; [reflexivity|]. split.
    + apply digits_2; apply is_digit_offset; [exact Hq|apply N.mod_lt; lia].
    + rewrite decimal_two. symmetry. apply N.Div0.div_mod.
Qed.

(** Below one hundred the interpolation gives one or two digits. *)
Lemma toString_below_100 n :
  n < 100 ->
  (length (toString n) = 1 \/ length (toString n) = 2)%nat /\
  digits (toString n) /\ decimal (toString n) = n.
Proof.
  intros H. split; [|split].
  - destruct (N.lt_ge_cases n 10) as [Hlt|Hge].
    + rewrite toString_small by exact Hlt. left. reflexivity.
    + rewrite toString_large by exact Hge.
      rewrite toString_small by (apply N.Div0.div_lt_upper_bound; lia).
      right. reflexivity.
  - apply toString_digits.
  - rewrite <- parseInt_decimal by apply toString_digits.
    apply parseInt_toString.
Qed.

(** From one hundred on it gives at least three. *)
Lemma toString_from_100 n :
  100 <= n ->
  exists a b c r, toString n = a :: b :: c :: r /\
    is_digit a = true /\ is_digit b = true /\ is_digit c = true /\ digits r.
Proof.
  intros H. pose proof (toString_digits n) as Hd.
  assert (3 <= length (toString n))%nat as Hl.
  { rewrite toString_large by lia.
    rewrite (toString_large (n / 10))
      by (apply N.div_le_lower_bound; lia).
    rewrite !length_app. pose proof (toString_nonempty (n / 10 / 10)).
    simpl. lia. }
  destruct (toString n) as [|a [|b [|c r]]]; simpl in Hl; try lia.
  apply digits_cons in Hd as [Ha Hd]. apply digits_cons in Hd as [Hb Hd].
  apply digits_cons in Hd as [Hc Hd]. exists a, b, c, r. auto.
Qed.

Lemma Marker_value m secs secs' :
  Marker m secs -> secs = secs' -> Marker m secs'.
Proof. intros H <-. exact H. Qed.

Lemma parse_single_marker m secs :
  Marker m secs -> parseTimestampLinks m = [mkLink m secs].
Proof.
  intros HM. destruct (match_here_complete m secs [] HM) as (c & Hc & Hl).
  rewrite app_nil_r in Hc.
  rewrite (parseTimestampLinks_Some m c [] (exec_here _ _ Hc)), Hl.
  rewrite (parseTimestampLinks_None []) by reflexivity. reflexivity.
Qed.

Lemma exec_cons_None x s :
  match_here (x :: s) = None -> exec (x :: s) = exec s.
Proof. intros H. cbn [exec]. rewrite H. reflexivity. Qed.

Lemma exec_no_bracket s :
  Forall (fun c => c <> LBRACKET) s -> exec s = None.
Proof.
  induction s as [|x s IH]; intros H; [reflexivity|].
  inversion H as [|? ? Hx Hs]; subst.
  rewrite exec_cons_None; [apply IH, Hs|].
  unfold match_here, lit. destruct (N.eqb_spec x LBRACKET); [contradiction|].
  reflexivity.
Qed.

Lemma digit_not_bracket c : is_digit c = true -> c <> LBRACKET.
Proof. intros H ->. discriminate. Qed.

Lemma digit_not_colon c : is_digit c = true -> (c =? COLON) = false.
Proof.
  intros H. destruct (N.eqb_spec c COLON) as [->|]; [discriminate|reflexivity].
Qed.

Lemma digits_no_bracket s : digits s -> Forall (fun c => c <> LBRACKET) s.
Proof.
  intros H. eapply List.Forall_impl; [|exact H].
  intros c Hc. apply digit_not_bracket, Hc.
Qed.

(** A bracket that opens with three digits, followed by anything free of
    further opening brackets, holds no timestamp. *)
Lemma parse_three_digits a b c rest :
  is_digit a = true -> is_digit b = true -> is_digit c = true ->
  Forall (fun x => x <> LBRACKET) rest ->
  parseTimestampLinks (LBRACKET :: a :: b :: c :: rest) = [].
Proof.
  intros Ha Hb Hc Hrest. apply parseTimestampLinks_None.
  rewrite exec_cons_None.
  2:{ unfold match_here, match_tail, digits2, digits1, digit, lit. simpl.
      rewrite Ha. simpl. rewrite Hb. simpl.
      rewrite (digit_not_colon c Hc), (digit_not_colon b Hb). reflexivity. }
  apply exec_no_bracket.
  repeat (constructor; [apply digit_not_bracket; assumption|]). exact Hrest.
Qed.

Lemma two_digits_then_close s tail :
  digits s -> Forall (fun x => x <> LBRACKET) tail ->
  Forall (fun x => x <> LBRACKET) (COLON :: s ++ tail).
Proof.
  intros Hs Ht. constructor; [discriminate|].
  apply Forall_app. split; [apply digits_no_bracket, Hs|exact Ht].
Qed.

(** X2.  For a whole number of seconds up to [MAX_SAFE_INTEGER]: a
    position written by [formatTimestamp] and put between brackets is
    read back by [parseTimestampLinks] as that position, as long as it is
    below 100 minutes; from 100 minutes on the minutes take three digits
    or more and the parser finds no timestamp in it. *)
Theorem formatTimestamp_parse_roundtrip (s : N) :
  s <= MAX_SAFE_INTEGER ->
  (s < 6000 ->
   parseTimestampLinks (bracketed (formatTimestamp s)) =
     [mkLink (bracketed (formatTimestamp s)) s]) /\
  (6000 <= s -> parseTimestampLinks (bracketed (formatTimestamp s)) = []).
Proof.
  intros _.
  assert (bracketed (formatTimestamp s) =
          [LBRACKET] ++ toString (s / 60) ++ [COLON]
            ++ padStart 2 ZERO (toString (s mod 60)) ++ [RBRACKET]) as Hshape.
  { unfold bracketed, formatTimestamp. cbv zeta.
    change (js "[") with [LBRACKET]. change (js "]") with [RBRACKET].
    change (js ":") with [COLON]. rewrite <- !app_assoc. reflexivity. }
  assert (s mod 60 < 100) as Hsec
    by (pose proof (N.mod_lt s 60 ltac:(lia)); lia).
  destruct (padStart_two (s mod 60) Hsec) as (Hl2 & Hd2 & Hv2).
  split; intros Hs.
  - apply parse_single_marker. rewrite Hshape.
    assert (s / 60 < 100) as Hmin by (apply N.Div0.div_lt_upper_bound; lia).
    destruct (toString_below_100 (s / 60) Hmin) as (Hl1 & Hd1 & Hv1).
    replace s with (decimal (toString (s / 60)) * 60
                    + decimal (padStart 2 ZERO (toString (s mod 60)))) at 3.
    + apply Marker_MS; assumption.
    + rewrite Hv1, Hv2. pose proof (N.Div0.div_mod s 60) as Hdm.
      revert Hdm. generalize (s / 60) (s mod 60). intros q r Hdm. lia.
  - rewrite Hshape.
    destruct (toString_from_100 (s / 60)) as (a & b & c & r & -> & Ha & Hb & Hc & Hr).
    { apply N.div_le_lower_bound; lia. }
    simpl. apply parse_three_digits; try assumption.
    apply Forall_app. split; [apply digits_no_bracket, Hr|].
    apply two_digits_then_close; [exact Hd2|].
    constructor; [discriminate|constructor].
Qed.

Lemma formatTimestamp_parse_roundtrip_witness :
  parseTimestampLinks (bracketed (formatTimestamp 83)) = [mkLink (js "[1:23]") 83] /\
  parseTimestampLinks (bracketed (formatTimestamp 7265)) = [].
Proof.
  split.
  - apply (proj1 (formatTimestamp_parse_roundtrip 83 ltac:(discriminate))).
    reflexivity.
  - apply (proj2 (formatTimestamp_parse_roundtrip 7265 ltac:(discriminate))).
    discriminate.
Defined.

(** X3.  The same for [formatTime] of the media player, for a whole
    number of seconds up to [MAX_SAFE_INTEGER]: every position below 100
    hours, written between brackets, is read back by the parser as that
    position, with the [M:SS] form below one hour and the [H:MM:SS] form
    from one hour on; from 100 hours on no timestamp is found. *)
Theorem formatTime_parse_roundtrip (s : N) :
  s <= MAX_SAFE_INTEGER ->
  (s < 360000 ->
   parseTimestampLinks (bracketed (formatTime s)) =
     [mkLink (bracketed (formatTime s)) s]) /\
  (360000 <= s -> parseTimestampLinks (bracketed (formatTime s)) = []).
Proof.
  intros _.
  assert (s mod 60 < 100) as Hsec
    by (pose proof (N.mod_lt s 60 ltac:(lia)); lia).
  assert ((s mod 3600) / 60 < 100) as Hmin.
  { pose proof (N.mod_lt s 3600 ltac:(lia)).
    apply N.Div0.div_lt_upper_bound. lia. }
  destruct (padStart_two (s mod 60) Hsec) as (Hl2 & Hd2 & Hv2).
  destruct (padStart_two ((s mod 3600) / 60) Hmin) as (Hl1 & Hd1 & Hv1).
  assert (s mod 60 = (s mod 3600) mod 60) as Hmm.
  { rewrite (N.Div0.div_mod s 3600) at 1.
    replace (3600 * (s / 3600) + s mod 3600)
      with (s mod 3600 + (60 * (s / 3600)) * 60) by lia.
    apply N.Div0.mod_add. }
  assert (s = s / 3600 * 3600 + (s mod 3600) / 60 * 60 + s mod 60) as Hval.
  { rewrite Hmm.
    pose proof (N.Div0.div_mod s 3600) as H1.
    pose proof (N.Div0.div_mod (s mod 3600) 60) as H2.
    revert H1 H2.
    generalize (s / 3600) (s mod 3600 / 60) ((s mod 3600) mod 60) (s mod 3600).
    intros h m r x H1 H2. lia. }
  unfold formatTime. cbv zeta.
  destruct (N.ltb_spec 0 (s / 3600)) as [Hh|Hh].
  - assert (bracketed
              (toString (s / 3600) ++ js ":"
                 ++ padStart 2 ZERO (toString ((s mod 3600) / 60)) ++ js ":"
                 ++ padStart 2 ZERO (toString (s mod 60))) =
            [LBRACKET] ++ toString (s / 3600) ++ [COLON]
              ++ padStart 2 ZERO (toString ((s mod 3600) / 60)) ++ [COLON]
              ++ padStart 2 ZERO (toString (s mod 60)) ++ [RBRACKET]) as Hshape.
    { unfold bracketed.
      change (js "[") with [LBRACKET]. change (js "]") with [RBRACKET].
      change (js ":") with [COLON]. rewrite <- !app_assoc. reflexivity. }
    rewrite Hshape. split; intros Hs.
    + apply parse_single_marker.
      assert (s / 3600 < 100) as Hhr
        by (apply N.Div0.div_lt_upper_bound; lia).
      destruct (toString_below_100 (s / 3600) Hhr) as (Hl0 & Hd0 & Hv0).
      eapply Marker_value; [apply Marker_HMS; assumption|].
      rewrite Hv0, Hv1, Hv2. symmetry. exact Hval.
    + destruct (toString_from_100 (s / 3600))
        as (a & b & c & r & -> & Ha & Hb & Hc & Hr).
      { apply N.div_le_lower_bound; lia. }
      simpl. apply parse_three_digits; try assumption.
      apply Forall_app. split; [apply digits_no_bracket, Hr|].
      apply two_digits_then_close; [exact Hd1|].
      apply two_digits_then_close; [exact Hd2|].
      constructor; [discriminate|constructor].
  - assert (s / 3600 = 0) as Hz by (apply N.le_0_r; exact Hh).
    assert (s < 3600) as Hlt.
    { destruct (N.lt_ge_cases s 3600) as [|Hge]; [assumption|exfalso].
      assert (1 <= s / 3600) as H1 by (apply N.div_le_lower_bound; lia).
      rewrite Hz in H1. clear -H1. lia. }
    assert (bracketed
              (toString ((s mod 3600) / 60) ++ js ":"
                 ++ padStart 2 ZERO (toString (s mod 60))) =
            [LBRACKET] ++ toString ((s mod 3600) / 60) ++ [COLON]
              ++ padStart 2 ZERO (toString (s mod 60)) ++ [RBRACKET]) as Hshape.
    { unfold bracketed.
      change (js "[") with [LBRACKET]. change (js "]") with [RBRACKET].
      change (js ":") with [COLON]. rewrite <- !app_assoc. reflexivity. }
    rewrite Hshape. split; intros Hs; [|clear -Hs Hlt; lia].
    apply parse_single_marker.
    destruct (toString_below_100 ((s mod 3600) / 60) Hmin) as (Hl0 & Hd0 & Hv0).
    eapply Marker_value; [apply Marker_MS; assumption|].
    rewrite Hv0, Hv2. rewrite Hz, N.mul_0_l, N.add_0_l in Hval.
    symmetry. exact Hval.
Qed.

Lemma formatTime_parse_roundtrip_witness :
  parseTimestampLinks (bracketed (formatTime 7265)) =
    [mkLink (js "[2:01:05]") 7265] /\
  parseTimestampLinks (bracketed (formatTime 360000)) = [].
Proof.
  split.
  - apply (proj1 (formatTime_parse_roundtrip 7265 ltac:(discriminate))).
    reflexivity.
  - apply (proj2 (formatTime_parse_roundtrip 360000 ltac:(discriminate))).
    discriminate.
Defined.

End FormatFacts.

Module FormatExamples.
Import Format.

Example formatTimestamp_83 : formatTimestamp 83 = js "1:23".
Proof. vm_compute. reflexivity. Qed.

Example formatTimestamp_7265 : formatTimestamp 7265 = js "121:05".
Proof. vm_compute. reflexivity. Qed.

Example formatTime_3723 : formatTime 3723 = js "1:02:03".
Proof. vm_compute. reflexivity. Qed.

Example formatTime_59 : formatTime 59 = js "0:59".
Proof. vm_compute. reflexivity. Qed.

End FormatExamples.

(** ** Rendering a paragraph of an answer ([ChatInterface.tsx],
       [renderMessageContent], the [p] component) *)

Module Render.
Import Grammar.

(** [[\d:]] *)
Definition is_bracket_char (c : N) : bool := is_digit c || (c =? COLON).

(** [[\d:]+\]], greedy with backtracking: take one more character if
    the rest can still match, close here otherwise. *)
Fixpoint bracket_body (s : jsstring) : option (jsstring * jsstring) :=
  match s with
  | x :: r =>
      if is_bracket_char x then
        match bracket_body r with
        | Some (b, rest) => Some (x :: b, rest)
        | None =>
            match lit RBRACKET r with
            | Some rest => Some ([x], rest)
            | None => None
            end
        end
      else None
  | [] => None
  end.

(** The separator pattern [/(\[[\d:]+\])/g] anchored at the head of [s]:
    the captured text and what follows it. *)
Definition bracket_here (s : jsstring) : option (jsstring * jsstring) :=
  r ← lit LBRACKET s;
  '(b, rest) ← bracket_body r;
  Some (LBRACKET :: b ++ [RBRACKET], rest).

Lemma bracket_body_shorter s b rest :
  bracket_body s = Some (b, rest) -> (length rest < length s)%nat.
Proof.
  revert b rest. induction s as [|x s IH]; intros b rest; simpl; [discriminate|].
  destruct (is_bracket_char x); [|discriminate].
  destruct (bracket_body s) as [[b' rest']|].
  - intros [= <- <-]. specialize (IH _ _ eq_refl). lia.
  - destruct (lit RBRACKET s) as [rest'|] eqn:E; [|discriminate].
    intros [= <- <-]. apply lit_shorter in E. lia.
Qed.

Lemma bracket_here_shorter s tok rest :
  bracket_here s = Some (tok, rest) -> (length rest < length s)%nat.
Proof.
  unfold bracket_here. intros H.
  destruct (lit LBRACKET s) as [r|] eqn:E; simpl in H; [|discriminate].
  destruct (bracket_body r) as [[b rest']|] eqn:Eb; simpl in H; [|discriminate].
  injection H as _ <-. apply lit_shorter in E.
  apply bracket_body_shorter in Eb. lia.
Qed.

(** [children.split(/(\[[\d:]+\])/g)]: the pieces of text between the
    separators, with every separator (the capture) between its two
    neighbours.  [chunk] holds, last character first, the text read
    since the previous separator. *)
Equations? split_from (chunk : jsstring) (s : jsstring) : list jsstring
  by wf (length s) lt :=
  split_from chunk [] := [rev chunk];
  split_from chunk (c :: r) with inspect (bracket_here (c :: r)) := {
    | exist _ (Some (tok, rest)) _ => rev chunk :: tok :: split_from [] rest
    | exist _ None _ => split_from (c :: chunk) r
  }.
Proof. eapply (bracket_here_shorter (c :: r)); eauto. Qed.

Definition split (children : jsstring) : list jsstring := split_from [] children.

Definition eoi (s : jsstring) : option unit :=
  match s with [] => Some tt | _ :: _ => None end.

(** [/^\[(\d{1,2}):(\d{2})(?::(\d{2}))?\]$/]: the timestamp pattern
    with the end of the input required after the closing bracket. *)
Definition match_tail_whole (h : jsstring) (s : jsstring) : option Captures :=
  r0 ← lit COLON s;
  '(mm, r1) ← digits2 r0;
  orelse
    (r2 ← lit COLON r1;
     '(ss, r3) ← digits2 r2;
     r4 ← lit RBRACKET r3;
     _ ← eoi r4;
     Some (mkCaptures h mm (Some ss)))
    (r4 ← lit RBRACKET r1;
     _ ← eoi r4;
     Some (mkCaptures h mm None)).

Definition match_whole (part : jsstring) : option Captures :=
  r0 ← lit LBRACKET part;
  orelse
    ('(h, r1) ← digits2 r0; match_tail_whole h r1)
    ('(h, r1) ← digits1 r0; match_tail_whole h r1).

(** What a part of the paragraph is rendered as: plain text, or a button
    showing the part, whose click calls [handleTimestampClick(seconds)]. *)
Inductive Node :=
| TextNode (text : jsstring)
| TimestampButton (label : jsstring) (seconds : N).

Definition render_part (part : jsstring) : Node :=
  match match_whole part with
  | Some tsMatch =>
      match g3 tsMatch with
      | Some ss =>
          TimestampButton part
            (parseInt (g1 tsMatch) * 3600 + parseInt (g2 tsMatch) * 60
             + parseInt ss)
      | None =>
          TimestampButton part
            (parseInt (g1 tsMatch) * 60 + parseInt (g2 tsMatch))
      end
  | None => TextNode part
  end.

(** The branch of the [p] component for [typeof children === 'string']. *)
Definition render_paragraph (children : jsstring) : list Node :=
  map render_part (split children).

(** What [ReactMarkdown] passes to the [p] component as [children]: one
    string when the paragraph is plain text, otherwise the rendered
    nodes of its inline content (strings and elements such as emphasis,
    code or links). *)
#[warnings="-register-all"]
Inductive ReactNode :=
| NodeString (text : jsstring)
| NodeElement (type : jsstring) (content : list ReactNode).

Inductive Children :=
| OneString (text : jsstring)
| Nodes (nodes : list ReactNode).

(** The content of the [<p>] the component returns: the parts of the
    string, or the children as they came. *)
Inductive Paragraph :=
| Parts (parts : list Node)
| Passed (children : list ReactNode).

(** The [p] component of [renderMessageContent]. *)
Definition p (children : Children) : Paragraph :=
  match children with
  | OneString text => Parts (render_paragraph text)
  | Nodes nodes => Passed nodes
  end.

(** The text a node shows. *)
Definition node_text (n : Node) : jsstring :=
  match n with
  | TextNode text => text
  | TimestampButton label _ => label
  end.

(** The buttons of a rendering, as links: label and seconds. *)
Fixpoint buttons (nodes : list Node) : list Link :=
  match nodes with
  | [] => []
  | TextNode _ :: rest => buttons rest
  | TimestampButton label seconds :: rest => mkLink label seconds :: buttons rest
  end.

(** The timestamp buttons the [p] component makes. *)
Definition paragraph_buttons (r : Paragraph) : list Link :=
  match r with
  | Parts parts => buttons parts
  | Passed _ => []
  end.

(** The strings among the children, at any depth, in order. *)
Fixpoint strings (n : ReactNode) : list jsstring :=
  match n with
  | NodeString text => [text]
  | NodeElement _ content => concat (map strings content)
  end.

End Render.

Module RenderFacts.
Import Grammar GrammarSpec GrammarFacts Render.

Definition bracket_chars (b : jsstring) : Prop :=
  Forall (fun c => is_bracket_char c = true) b.

Lemma bracket_body_sound s b rest :
  bracket_body s = Some (b, rest) ->
  s = b ++ RBRACKET :: rest /\ b <> [] /\ bracket_chars b.
Proof.
  revert b rest. induction s as [|x s IH]; intros b rest; simpl; [discriminate|].
  destruct (is_bracket_char x) eqn:Ex; [|discriminate].
  destruct (bracket_body s) as [[b' rest']|].
  - intros [= <- <-]. destruct (IH _ _ eq_refl) as (-> & _ & Hb).
    split; [reflexivity|]. split; [discriminate|]. constructor; assumption.
  - destruct (lit RBRACKET s) as [rest'|] eqn:E; [|discriminate].
    intros [= <- <-]. apply lit_inv in E as ->.
    split; [reflexivity|]. split; [discriminate|]. repeat constructor. exact Ex.
Qed.

Lemma bracket_body_complete b rest :
  b <> [] -> bracket_chars b ->
  bracket_body (b ++ RBRACKET :: rest) = Some (b, rest).
Proof.
  induction b as [|x b IH]; intros Hne Hb; [contradiction|].
  inversion Hb as [|? ? Hx Hb']; subst.
  change ((x :: b) ++ RBRACKET :: rest) with (x :: (b ++ RBRACKET :: rest)).
  cbn [bracket_body]. rewrite Hx.
  destruct b as [|y b].
  - reflexivity.
  - rewrite IH by (discriminate || assumption). reflexivity.
Qed.

Lemma bracket_here_sound s tok rest :
  bracket_here s = Some (tok, rest) ->
  s = tok ++ rest /\
  exists b, tok = LBRACKET :: b ++ [RBRACKET] /\ b <> [] /\ bracket_chars b.
Proof.
  unfold bracket_here. intros H.
  destruct (lit LBRACKET s) as [r|] eqn:E; simpl in H; [|discriminate].
  destruct (bracket_body r) as [[b rest']|] eqn:Eb; simpl in H; [|discriminate].
  injection H as <- <-. apply lit_inv in E as ->.
  apply bracket_body_sound in Eb as (-> & Hne & Hb).
  split; [simpl; rewrite <- app_assoc; reflexivity|].
  exists b. auto.
Qed.

Lemma digits_bracket_chars s : digits s -> bracket_chars s.
Proof.
  intros H. eapply List.Forall_impl; [|exact H].
  intros c Hc. unfold is_bracket_char. rewrite Hc. reflexivity.
Qed.

(** Every marker has the form of a separator. *)
Lemma Marker_bracket m secs :
  Marker m secs ->
  exists b, m = LBRACKET :: b ++ [RBRACKET] /\ b <> [] /\ bracket_chars b.
Proof.
  assert (bracket_chars [COLON]) as Hc by (repeat constructor).
  intros [h mm Hh Hdh Hm Hdm|h mm ss Hh Hdh Hm Hdm Hs Hds].
  - exists (h ++ [COLON] ++ mm). split; [list_norm|].
    split; [destruct h; [simpl in Hh; lia|discriminate]|].
    repeat (apply Forall_app; split);
      (exact Hc || (apply digits_bracket_chars; assumption)).
  - exists (h ++ [COLON] ++ mm ++ [COLON] ++ ss). split; [list_norm|].
    split; [destruct h; [simpl in Hh; lia|discriminate]|].
    repeat (apply Forall_app; split);
      (exact Hc || (apply digits_bracket_chars; assumption)).
Qed.

Lemma bracket_here_marker m secs post :
  Marker m secs -> bracket_here (m ++ post) = Some (m, post).
Proof.
  intros HM. destruct (Marker_bracket m secs HM) as (b & -> & Hne & Hb).
  unfold bracket_here. simpl. rewrite <- app_assoc. simpl.
  rewrite (bracket_body_complete b post Hne Hb). reflexivity.
Qed.

Lemma match_here_bracket s c r :
  match_here s = Some (c, r) -> bracket_here s = Some (g0 c, r).
Proof.
  intros H. apply match_here_sound in H as (-> & _ & HM).
  apply (bracket_here_marker _ _ r HM).
Qed.

Lemma bracket_here_None_match_here s :
  bracket_here s = None -> match_here s = None.
Proof.
  intros H. destruct (match_here s) as [[c r]|] eqn:E; [|reflexivity].
  apply match_here_bracket in E. congruence.
Qed.

(** *** The anchored pattern *)

Lemma eoi_inv s u : eoi s = Some u -> s = [].
Proof. destruct s; [reflexivity|discriminate]. Qed.

Definition button_seconds (c : Captures) : N :=
  match g3 c with
  | Some ss => parseInt (g1 c) * 3600 + parseInt (g2 c) * 60 + parseInt ss
  | None => parseInt (g1 c) * 60 + parseInt (g2 c)
  end.

Lemma render_part_Some part c :
  match_whole part = Some c ->
  render_part part = TimestampButton part (button_seconds c).
Proof.
  intros H. unfold render_part, button_seconds. rewrite H.
  destruct (g3 c); reflexivity.
Qed.

Lemma render_part_None part :
  match_whole part = None -> render_part part = TextNode part.
Proof. intros H. unfold render_part. rewrite H. reflexivity. Qed.

Lemma match_tail_whole_sound h s c :
  match_tail_whole h s = Some c ->
  g1 c = h /\
  exists m, g2 c = m /\ length m = 2%nat /\ digits m /\
    ((g3 c = None /\ s = [COLON] ++ m ++ [RBRACKET]) \/
     (exists ss, g3 c = Some ss /\ length ss = 2%nat /\ digits ss /\
        s = [COLON] ++ m ++ [COLON] ++ ss ++ [RBRACKET])).
Proof.
  unfold match_tail_whole. intros H.
  destruct (lit COLON s) as [r0|] eqn:E0; simpl in H; [|discriminate].
  apply lit_inv in E0 as ->.
  destruct (digits2 r0) as [[mm r1]|] eqn:E1; simpl in H; [|discriminate].
  apply digits2_inv in E1 as (a & b & -> & -> & Ha & Hb).
  apply orelse_inv in H as [H|[_ H]].
  - destruct (lit COLON r1) as [r2|] eqn:E2; simpl in H; [|discriminate].
    apply lit_inv in E2 as ->.
    destruct (digits2 r2) as [[ss r3]|] eqn:E3; simpl in H; [|discriminate].
    apply digits2_inv in E3 as (x & y & -> & -> & Hx & Hy).
    destruct (lit RBRACKET r3) as [r4|] eqn:E4; simpl in H; [|discriminate].
    apply lit_inv in E4 as ->.
    destruct (eoi r4) as [u|] eqn:E5; simpl in H; [|discriminate].
    apply eoi_inv in E5 as ->. injection H as <-. simpl.
    split; [reflexivity|]. exists [a; b]. repeat split; auto using digits_1, digits_2.
    right. exists [x; y]. repeat split; auto using digits_1, digits_2.
  - destruct (lit RBRACKET r1) as [r4|] eqn:E4; simpl in H; [|discriminate].
    apply lit_inv in E4 as ->.
    destruct (eoi r4) as [u|] eqn:E5; simpl in H; [|discriminate].
    apply eoi_inv in E5 as ->. injection H as <-. simpl.
    split; [reflexivity|]. exists [a; b]. repeat split; auto using digits_1, digits_2.
Qed.

(** A part the anchored pattern accepts is a marker, whose value is the
    seconds of the button. *)
Lemma match_whole_sound part c :
  match_whole part = Some c -> Marker part (button_seconds c).
Proof.
  unfold match_whole. intros H.
  destruct (lit LBRACKET part) as [r0|] eqn:E0; simpl in H; [|discriminate].
  apply lit_inv in E0 as ->.
  assert (exists h r1, (length h = 1 \/ length h = 2)%nat /\ digits h /\
            r0 = h ++ r1 /\ match_tail_whole h r1 = Some c)
    as (h & r1 & Hlen & Hh & -> & Ht).
  { apply orelse_inv in H as [H|[_ H]].
    - destruct (digits2 r0) as [[h r1]|] eqn:E1; simpl in H; [|discriminate].
      apply digits2_inv in E1 as (a & b & -> & -> & Ha & Hb).
      exists [a; b], r1. auto using digits_2.
    - destruct (digits1 r0) as [[h r1]|] eqn:E1; simpl in H; [|discriminate].
      apply digits1_inv in E1 as (a & -> & -> & Ha).
      exists [a], r1. auto using digits_1. }
  apply match_tail_whole_sound in Ht as (Hg1 & m & Hg2 & Hm & Hdm & Hcase).
  destruct c as [c1 c2 c3]; simpl in *; subst c1 c2.
  unfold button_seconds; simpl.
  destruct Hcase as [[-> ->]|(ss & -> & Hs & Hds & ->)].
  - rewrite !parseInt_decimal by assumption.
    apply (Marker_MS h m); assumption.
  - rewrite !parseInt_decimal by assumption.
    apply (Marker_HMS h m ss); assumption.
Qed.

Ltac accept_whole :=
  unfold match_whole, match_tail_whole, digits2, digits1, digit; simpl;
  repeat (match goal with H : is_digit _ = true |- _ => rewrite H end; simpl);
  discriminate.

(** Every marker, taken alone, is accepted by the anchored pattern. *)
Lemma match_whole_complete m secs : Marker m secs -> match_whole m <> None.
Proof.
  intros HM. destruct HM as [h mm Hh Hdh Hm Hdm|h mm ss Hh Hdh Hm Hdm Hs Hds].
  - apply length2_inv in Hm as (x & y & ->).
    destruct Hh as [Hh|Hh].
    + apply length1_inv in Hh as (a & ->). digit_facts. accept_whole.
    + apply length2_inv in Hh as (a & b & ->). digit_facts. accept_whole.
  - apply length2_inv in Hm as (x & y & ->).
    apply length2_inv in Hs as (u & v & ->).
    destruct Hh as [Hh|Hh].
    + apply length1_inv in Hh as (a & ->). digit_facts. accept_whole.
    + apply length2_inv in Hh as (a & b & ->). digit_facts. accept_whole.
Qed.

(** *** The splitting loop *)

Lemma split_from_nil chunk : split_from chunk [] = [rev chunk].
Proof. simp split_from. reflexivity. Qed.

Lemma split_from_Some chunk c r tok rest :
  bracket_here (c :: r) = Some (tok, rest) ->
  split_from chunk (c :: r) = rev chunk :: tok :: split_from [] rest.
Proof.
  intros H. funelim (split_from chunk (c :: r)).
  - match goal with
    | E : bracket_here ?t = Some (?a, ?b), E' : bracket_here ?t = Some (?a', ?b')
      |- _ => rewrite E in E'; injection E' as <- <-
    end.
    reflexivity.
  - congruence.
Qed.

Lemma split_from_None chunk c r :
  bracket_here (c :: r) = None ->
  split_from chunk (c :: r) = split_from (c :: chunk) r.
Proof.
  intros H. funelim (split_from chunk (c :: r)); [congruence|reflexivity].
Qed.

(** The pieces, put end to end, are the text. *)
Lemma split_from_concat s :
  forall chunk, concat (split_from chunk s) = rev chunk ++ s.
Proof.
  remember (length s) as n eqn:Hn. revert s Hn.
  induction n as [n IH] using lt_wf_ind. intros s -> chunk.
  destruct s as [|c r].
  - rewrite split_from_nil. simpl. reflexivity.
  - destruct (bracket_here (c :: r)) as [[tok rest]|] eqn:E.
    + rewrite (split_from_Some _ _ _ _ _ E). simpl.
      rewrite (IH (length rest) (bracket_here_shorter _ _ _ E) rest eq_refl).
      apply bracket_here_sound in E as (-> & _). reflexivity.
    + rewrite (split_from_None _ _ _ E).
      rewrite (IH (length r) ltac:(simpl; lia) r eq_refl).
      simpl. rewrite <- app_assoc. reflexivity.
Qed.

Lemma node_text_render part : node_text (render_part part) = part.
Proof.
  unfold render_part. destruct (match_whole part) as [c|]; [|reflexivity].
  destruct (g3 c); reflexivity.
Qed.

(** *** Buttons and links *)

Lemma parse_exec_eq s s' :
  exec s = exec s' -> parseTimestampLinks s = parseTimestampLinks s'.
Proof.
  intros H. destruct (exec s') as [[c r]|] eqn:E.
  - rewrite (parseTimestampLinks_Some _ _ _ H), (parseTimestampLinks_Some _ _ _ E).
    reflexivity.
  - rewrite (parseTimestampLinks_None _ H), (parseTimestampLinks_None _ E).
    reflexivity.
Qed.

Lemma exec_skip_no_bracket tl rest :
  Forall (fun c => c <> LBRACKET) tl -> exec (tl ++ rest) = exec rest.
Proof.
  induction tl as [|x tl IH]; intros H; [reflexivity|].
  inversion H as [|? ? Hx Htl]; subst.
  change ((x :: tl) ++ rest) with (x :: (tl ++ rest)).
  cbn [exec].
  assert (match_here (x :: tl ++ rest) = None) as ->.
  { unfold match_here, lit. destruct (N.eqb_spec x LBRACKET); [contradiction|].
    reflexivity. }
  apply IH, Htl.
Qed.

Lemma bracket_chars_no_bracket b :
  bracket_chars b -> Forall (fun c => c <> LBRACKET) (b ++ [RBRACKET]).
Proof.
  intros H. apply Forall_app. split.
  - eapply List.Forall_impl; [|exact H]. intros c Hc ->. discriminate.
  - repeat constructor. discriminate.
Qed.

(** The text read since the previous separator is never rendered as a
    button. *)
Lemma chunk_is_text chunk s :
  chunk = [] \/ match_here (rev chunk ++ s) = None ->
  render_part (rev chunk) = TextNode (rev chunk).
Proof.
  intros H. apply render_part_None.
  destruct (match_whole (rev chunk)) as [c|] eqn:E; [exfalso|reflexivity].
  apply match_whole_sound in E.
  destruct H as [->|H].
  - destruct (Marker_shape _ _ E) as (t & Ht & _). discriminate.
  - destruct (match_here_complete _ _ s E) as (c' & Hc' & _). congruence.
Qed.

Lemma buttons_split_from s :
  forall chunk,
    chunk = [] \/ match_here (rev chunk ++ s) = None ->
    buttons (map render_part (split_from chunk s)) = parseTimestampLinks s.
Proof.
  remember (length s) as n eqn:Hn. revert s Hn.
  induction n as [n IH] using lt_wf_ind. intros s -> chunk Hchunk.
  pose proof (chunk_is_text chunk s Hchunk) as Htext.
  destruct s as [|c r].
  - rewrite split_from_nil. simpl. rewrite Htext.
    rewrite (parseTimestampLinks_None []) by reflexivity. reflexivity.
  - destruct (bracket_here (c :: r)) as [[tok rest]|] eqn:E.
    + rewrite (split_from_Some _ _ _ _ _ E). cbn [map]. rewrite Htext.
      cbn [buttons].
      pose proof (bracket_here_shorter _ _ _ E) as Hlt.
      pose proof (IH (length rest) Hlt rest eq_refl [] (or_introl eq_refl))
        as IHrest.
      destruct (bracket_here_sound _ _ _ E) as (Hs & b & Htok & Hne & Hb).
      rewrite Hs.
      destruct (match_whole tok) as [c0|] eqn:Ew.
      * rewrite (render_part_Some _ _ Ew). cbn [buttons]. rewrite IHrest.
        apply match_whole_sound in Ew.
        destruct (match_here_complete _ _ rest Ew) as (c' & Hc' & Hl).
        rewrite (parseTimestampLinks_Some _ _ _ (exec_here _ _ Hc')), Hl.
        reflexivity.
      * rewrite (render_part_None _ Ew). cbn [buttons]. rewrite IHrest.
        symmetry. apply parse_exec_eq.
        assert (match_here (tok ++ rest) = None) as Hnone.
        { destruct (match_here (tok ++ rest)) as [[c1 r1]|] eqn:Em;
            [exfalso|reflexivity].
          pose proof (match_here_bracket _ _ _ Em) as Hb1.
          rewrite <- Hs, E in Hb1. injection Hb1 as Htok1 _.
          apply match_here_sound in Em as (_ & _ & HM).
          rewrite <- Htok1 in HM.
          apply (match_whole_complete _ _ HM Ew). }
        rewrite Htok in *.
        change ((LBRACKET :: b ++ [RBRACKET]) ++ rest)
          with (LBRACKET :: ((b ++ [RBRACKET]) ++ rest)) in *.
        cbn [exec]. rewrite Hnone.
        apply exec_skip_no_bracket, bracket_chars_no_bracket, Hb.
    + rewrite (split_from_None _ _ _ E).
      pose proof (bracket_here_None_match_here _ E) as Hm.
      rewrite (IH (length r) ltac:(simpl; lia) r eq_refl (c :: chunk)).
      * apply parse_exec_eq. cbn [exec]. rewrite Hm. reflexivity.
      * right. simpl. rewrite <- app_assoc. simpl.
        destruct Hchunk as [->|H]; [exact Hm|exact H].
Qed.

(** X1.  A paragraph whose children is one string is rendered in parts:
    its timestamp buttons are, in order, exactly the links
    [parseTimestampLinks] finds in the string, with the same label and
    the same seconds; everything else is text, and the labels and texts
    put end to end are the string.  A paragraph whose children is
    anything else (inline markup) is passed on as it came: the component
    makes no button for it, whatever timestamps its strings hold. *)
Theorem paragraph_buttons_are_parsed_links (children : Children) :
  match children with
  | OneString text =>
      exists parts,
        p children = Parts parts /\
        buttons parts = parseTimestampLinks text /\
        concat (map node_text parts) = text
  | Nodes nodes =>
      p children = Passed nodes /\ paragraph_buttons (p children) = []
  end.
Proof.
  destruct children as [text|nodes]; [|split; reflexivity].
  exists (render_paragraph text). split; [reflexivity|].
  unfold render_paragraph, split. split.
  - apply buttons_split_from. left. reflexivity.
  - rewrite map_map.
    rewrite (map_ext _ (fun x => x) node_text_render), map_id.
    apply split_from_concat.
Qed.

Example render_two_timestamps :
  render_paragraph (js "see [1:23] and [123][01:02:03]") =
    [TextNode (js "see "); TimestampButton (js "[1:23]") 83;
     TextNode (js " and "); TextNode (js "[123]"); TextNode [];
     TimestampButton (js "[01:02:03]") 3723; TextNode []].
Proof. vm_compute. reflexivity. Qed.

(** A paragraph with emphasis in it: its timestamp stays plain text,
    although the parser finds it in the string that holds it. *)
Example render_with_emphasis :
  let nodes := [NodeString (js "see ");
                NodeElement (js "strong") [NodeString (js "this")];
                NodeString (js " at [2:34]")] in
  paragraph_buttons (p (Nodes nodes)) = [] /\
  concat (map parseTimestampLinks (concat (map strings nodes))) =
    [mkLink (js "[2:34]") 154].
Proof. vm_compute. split; reflexivity. Qed.

End RenderFacts.

(** ** More on the chat surface and its transport *)

Module ChatMore.
Import Chat ChatFacts.

(** *** A stream of frames *)

(** Frames that carry neither an error nor the terminal mark. *)
Definition content_frame (data : StreamToken) : Prop :=
  truthy (tok_error data) = false /\ done data = false.

Definition frame_events (i : nat) (frames : list StreamToken) : list Event :=
  map (fun data => EvMessage i (Some data)) frames.

(** The text the frames carry: their tokens, absent ones counting as
    empty. *)
Definition carried_text (frames : list StreamToken) : jsstring :=
  concat (map (fun data => default [] (token data)) frames).

Definition has_text (data : StreamToken) : bool :=
  match token data with Some (_ :: _) => true | _ => false end.

Lemma run_app es1 es2 c : run (es1 ++ es2) c = run es2 (run es1 c).
Proof. unfold run. apply fold_left_app. Qed.

Lemma run_cons e es c : run (e :: es) c = run es (fire e c).
Proof. reflexivity. Qed.

Lemma carried_text_nil frames :
  existsb has_text frames = false -> carried_text frames = [].
Proof.
  induction frames as [|d fs IH]; intros Ex; [reflexivity|].
  cbn [existsb] in Ex. apply orb_false_elim in Ex as [Hd Hfs].
  unfold carried_text in *. cbn [map concat]. rewrite (IH Hfs).
  unfold has_text in Hd. destruct (token d) as [[|x t]|];
    try discriminate; reflexivity.
Qed.

(** X4.  Any number of content frames arriving on the open socket
    append their tokens, in order of arrival, to the accumulator; the
    message log, the socket and the streaming and connected flags are
    left alone, and once a frame carried text the displayed snapshot
    equals the accumulator. *)
Theorem token_stream_accumulates c i ws frames :
  sockets c !! i = Some ws -> readyState ws = OPEN ->
  Forall content_frame frames ->
  let c' := run (frame_events i frames) c in
  streamingRef c' = streamingRef c ++ carried_text frames /\
  streamingContent c' =
    (if existsb has_text frames then streamingRef c' else streamingContent c) /\
  messages c' = messages c /\ sockets c' = sockets c /\
  wsRef c' = wsRef c /\ isStreaming c' = isStreaming c /\
  isConnected c' = isConnected c /\ error c' = error c.
Proof.
  intros Hws Ho Hframes. cbv zeta. revert c Hws.
  induction Hframes as [|data frames [He Hd] _ IH]; intros c Hws.
  - simpl. rewrite app_nil_r. repeat split.
  - unfold frame_events. cbn [map]. rewrite run_cons.
    rewrite (fire_message_open c i ws _ Hws Ho).
    destruct (onmessage_token i data c He Hd)
      as (Hb & Hsnap & Hm & Hs & Hr & Hst & Hco & Her & _).
    set (c1 := ws_onmessage i (Some data) c) in *.
    assert (sockets c1 !! i = Some ws) as Hws1 by (rewrite Hs; exact Hws).
    destruct (IH c1 Hws1) as (Hb' & Hsnap' & Hm' & Hs' & Hr' & Hst' & Hco' & Her').
    fold (frame_events i frames).
    set (c2 := run (frame_events i frames) c1) in *.
    assert (streamingRef c2 =
            streamingRef c ++ carried_text (data :: frames)) as Hbuf.
    { rewrite Hb', Hb. unfold carried_text. cbn [map concat].
      rewrite <- app_assoc. reflexivity. }
    split; [exact Hbuf|]. split.
    + rewrite Hsnap'. cbn [existsb]. fold (has_text data) in Hsnap.
      destruct (existsb has_text frames) eqn:Ex.
      * rewrite orb_true_r. reflexivity.
      * rewrite orb_false_r, Hsnap.
        destruct (has_text data); [|reflexivity].
        rewrite Hb', (carried_text_nil _ Ex), app_nil_r. reflexivity.
    + rewrite Hm', Hs', Hr', Hst', Hco', Her', Hm, Hs, Hr, Hst, Hco, Her.
      repeat split.
Qed.

Lemma token_stream_accumulates_witness :
  let c := snd (sendMessage (js "Summarize") true opened_client) in
  let frames :=
    [token_frame (js "Hel"); token_frame []; token_frame (js "lo")] in
  let c' := run (frame_events 0 frames) c in
  streamingRef c' = js "Hello" /\ streamingContent c' = js "Hello" /\
  messages c' = [].
Proof.
  destruct (token_stream_accumulates
              (snd (sendMessage (js "Summarize") true opened_client)) 0%nat
              (mkWebSocket (js "doc-1") OPEN OnOpenConnect
                 [mkRequest (js "Summarize") true])
              [token_frame (js "Hel"); token_frame []; token_frame (js "lo")]
              eq_refl eq_refl)
    as (H1 & H2 & H3 & _).
  - repeat constructor.
  - split; [exact H1|]. split; [rewrite H2, H1; reflexivity|exact H3].
Defined.

(** *** The message log *)

Lemma connect_messages c : messages (connect c) = messages c.
Proof. unfold connect. destruct (wsRef c); reflexivity. Qed.

Lemma ws_close_messages i c : messages (ws_close i c) = messages c.
Proof. unfold ws_close. apply update_socket_frame. Qed.

Lemma ws_send_messages i req c : messages (ws_send i req c) = messages c.
Proof. unfold ws_send. apply update_socket_frame. Qed.

Lemma disconnect_messages c : messages (disconnect c) = messages c.
Proof.
  unfold disconnect. destruct (wsRef c); simpl; [|reflexivity].
  apply ws_close_messages.
Qed.

Lemma sendMessage_messages msg ts c :
  messages (snd (sendMessage msg ts c)) = messages c.
Proof.
  unfold sendMessage.
  set (c1 := match wsRef c with
             | Some j => match socket_state j c with
                         | Some OPEN => c
                         | _ => connect c
                         end
             | None => connect c
             end).
  assert (messages c1 = messages c) as H1.
  { subst c1. destruct (wsRef c) as [j|]; [|apply connect_messages].
    destruct (socket_state j c) as [[]|]; auto using connect_messages. }
  destruct (wsRef c1) as [j|]; [|exact H1].
  destruct (socket_state j c1) as [[]|]; simpl; try exact H1.
  - rewrite <- H1. apply update_socket_frame.
  - rewrite ws_send_messages. exact H1.
Qed.

(** What an event adds to the log: the user's trimmed text on an
    accepted submission, the accumulated answer on a terminal frame that
    finds visible text in the accumulator, and nothing otherwise. *)
Definition logged (e : Event) (c : Client) : list ChatMessage :=
  match e with
  | Submit =>
      match trim (input c) with
      | [] => []
      | _ :: _ =>
          if isStreaming c then []
          else [mkChatMessage user (trim (input c)) None None]
      end
  | EvMessage i (Some data) =>
      match socket_state i c with
      | Some OPEN =>
          if truthy (tok_error data) then []
          else if done data then
            match trim (streamingRef c) with
            | [] => []
            | _ :: _ =>
                [mkChatMessage assistant (streamingRef c) None
                   (Some (default [] (tok_sources data)))]
            end
          else []
      | _ => []
      end
  | _ => []
  end.

Lemma fire_logged e c : messages (fire e c) = messages c ++ logged e c.
Proof.
  destruct e as [j|j parsed|j|j| | |msg ts|doc|text|]; simpl;
    rewrite ?app_nil_r.
  - destruct (socket_state j c) as [[]|]; try reflexivity.
    unfold run_onopen.
    destruct (update_socket_frame c j (set_readyState OPEN))
      as (_ & _ & _ & _ & _ & Hm & _).
    destruct (onopen <$> _) as [[|req]|]; try exact Hm.
    rewrite ws_send_messages. exact Hm.
  - destruct parsed as [data|];
      [|destruct (socket_state j c) as [[]|]; rewrite ?app_nil_r; reflexivity].
    destruct (socket_state j c) as [[]|]; rewrite ?app_nil_r; try reflexivity.
    unfold ws_onmessage.
    destruct (truthy (tok_error data)).
    + rewrite ws_close_messages, app_nil_r. reflexivity.
    + destruct (done data) eqn:Hd; simpl.
      * rewrite ws_close_messages. unfold handleComplete. simpl.
        destruct (trim (streamingRef c)); simpl;
          rewrite ?app_nil_r; reflexivity.
      * rewrite app_nil_r.
        destruct (token data) as [[|x t]|]; reflexivity.
  - destruct (socket_state j c) as [[]|]; reflexivity.
  - destruct (socket_state j c) as [[]|]; try reflexivity; simpl;
      apply update_socket_frame.
  - apply connect_messages.
  - apply disconnect_messages.
  - apply sendMessage_messages.
  - unfold effect_documentId. destruct (str_eq doc (documentId c)); [reflexivity|].
    rewrite connect_messages. simpl. apply disconnect_messages.
  - reflexivity.
  - unfold handleSubmit.
    destruct (trim (input c)); [rewrite app_nil_r; reflexivity|].
    destruct (isStreaming c); [rewrite app_nil_r; reflexivity|].
    match goal with |- context [sendMessage ?m ?t ?x] =>
      pose proof (sendMessage_messages m t x) as Hs;
      destruct (sendMessage m t x) as [[] c3]
    end; exact Hs.
Qed.

(** X5.  The message log only grows.  Every event leaves the messages
    already logged in place and adds at most one: an accepted submission
    adds the user's trimmed text, a terminal frame that finds visible
    text in the accumulator adds it as the assistant's answer, and no
    other event adds anything; so over any run the log at the start is
    a prefix of the log at the end. *)
Theorem message_log_only_grows (es : list Event) (c : Client) :
  (forall e d, messages (fire e d) = messages d ++ logged e d /\
               (length (logged e d) <= 1)%nat) /\
  messages c `prefix_of` messages (run es c).
Proof.
  split.
  - intros e d. split; [apply fire_logged|].
    destruct e as [j|j [data|]|j|j| | |msg ts|doc|text|]; simpl; try lia.
    + destruct (socket_state j d) as [[]|]; simpl; try lia.
      destruct (truthy (tok_error data)); simpl; try lia.
      destruct (done data); simpl; try lia.
      destruct (trim (streamingRef d)); simpl; lia.
    + destruct (trim (input d)); simpl; try lia.
      destruct (isStreaming d); simpl; lia.
  - revert c. induction es as [|e es IH]; intros c; [reflexivity|].
    rewrite run_cons. etransitivity; [|apply IH].
    rewrite fire_logged. apply prefix_app_r. reflexivity.
Qed.

(** *** Sending *)

(** X6.  Two sends made while the socket is still connecting both
    return [true], but only the second request is transmitted when the
    socket opens: the second assignment to [ws.onopen] replaces the
    first, and the first request is never sent. *)
Theorem second_queued_send_replaces_first c i ws m1 t1 m2 t2 :
  wsRef c = Some i -> sockets c !! i = Some ws -> readyState ws = CONNECTING ->
  let s1 := sendMessage m1 t1 c in
  let s2 := sendMessage m2 t2 (snd s1) in
  let c' := fire (EvOpen i) (snd s2) in
  fst s1 = true /\ fst s2 = true /\
  (transmitted <$> sockets c' !! i) =
    Some (transmitted ws ++ [mkRequest m2 t2]) /\
  forall es, Forall (fun e => e <> EvOpen i) es ->
    (transmitted <$> sockets (run es (snd s2)) !! i) = Some (transmitted ws).
Proof.
  intros Hr Hws Ho. cbv zeta.
  rewrite (sendMessage_connecting c i ws m1 t1 Hr Hws Ho). cbn [fst snd].
  set (q1 := OnOpenQueued (mkRequest m1 t1)).
  pose proof (update_socket_lookup c i (set_onopen q1) _ Hws) as Hws1.
  destruct (update_socket_frame c i (set_onopen q1)) as (_ & _ & _ & Hr1 & _).
  set (c1 := update_socket i (set_onopen q1) c) in *.
  rewrite Hr in Hr1.
  rewrite (sendMessage_connecting c1 i _ m2 t2 Hr1 Hws1 Ho). cbn [fst snd].
  destruct (open_after_queued_send c1 i _ (mkRequest m2 t2) Hws1 Ho)
    as (Hopen & _).
  split; [reflexivity|]. split; [reflexivity|]. split.
  - rewrite Hopen. reflexivity.
  - intros es Hes.
    pose proof (update_socket_lookup c1 i
                  (set_onopen (OnOpenQueued (mkRequest m2 t2))) _ Hws1) as Hws2.
    assert (pending i (transmitted ws)
              (sockets (update_socket i
                          (set_onopen (OnOpenQueued (mkRequest m2 t2))) c1)))
      as Hp.
    { eexists. split; [exact Hws2|]. simpl. rewrite Ho.
      split; [discriminate|reflexivity]. }
    destruct (pending_run i _ es _ Hes Hp) as (w & -> & _ & Hw).
    simpl. rewrite Hw. reflexivity.
Qed.

Lemma second_queued_send_replaces_first_witness :
  let c := effect_mount (mount (js "doc-1")) in
  let s1 := sendMessage (js "first") true c in
  let s2 := sendMessage (js "second") true (snd s1) in
  fst s1 = true /\ fst s2 = true /\
  (transmitted <$> sockets (fire (EvOpen 0) (snd s2)) !! 0%nat) =
    Some [mkRequest (js "second") true].
Proof.
  destruct (second_queued_send_replaces_first
              (effect_mount (mount (js "doc-1"))) 0%nat
              (createChatWebSocket (js "doc-1"))
              (js "first") true (js "second") true eq_refl eq_refl eq_refl)
    as (H1 & H2 & H3 & _).
  split; [exact H1|]. split; [exact H2|exact H3].
Defined.

Lemma sendMessage_reconnects c msg ts :
  wsRef c = None ->
  sendMessage msg ts c =
    (true, update_socket (length (sockets c))
             (set_onopen (OnOpenQueued (mkRequest msg ts))) (connect c)) /\
  sockets (snd (sendMessage msg ts c)) =
    sockets c ++ [mkWebSocket (documentId c) CONNECTING
                    (OnOpenQueued (mkRequest msg ts)) []].
Proof.
  intros Hr. destruct (connect_fresh c Hr) as [Hr1 Hs1].
  assert (sockets (connect c) !! length (sockets c) =
          Some (createChatWebSocket (documentId c))) as Hl
    by (rewrite Hs1; apply list_lookup_middle; reflexivity).
  assert (sendMessage msg ts c =
    (true, update_socket (length (sockets c))
             (set_onopen (OnOpenQueued (mkRequest msg ts))) (connect c))) as Hsend.
  { unfold sendMessage. rewrite Hr, Hr1, (socket_state_lookup _ _ _ Hl).
    reflexivity. }
  split; [exact Hsend|]. rewrite Hsend. cbn [snd].
  unfold update_socket. rewrite Hl. simpl. rewrite Hs1.
  rewrite insert_app_r_alt by lia. rewrite Nat.sub_diag. reflexivity.
Qed.

Lemma sendMessage_fails_only_while_closing_aux c msg ts i ws :
  wsRef c = Some i -> sockets c !! i = Some ws -> readyState ws = CLOSING ->
  fst (sendMessage msg ts c) = false /\
  snd (sendMessage msg ts c) = handleError (js "WebSocket not connected") c.
Proof.
  intros Hr Hws Ho. unfold sendMessage.
  rewrite Hr, (socket_state_lookup _ _ _ Hws), (connect_existing c i Hr), Ho,
    Hr, (socket_state_lookup _ _ _ Hws), Ho.
  split; reflexivity.
Qed.

(** X7.  [sendMessage] returns [false] exactly when [wsRef] holds a
    socket that is closing or closed (its [close] was called, or the
    transport closed it, and its close event has not run yet).  It then
    reports "WebSocket not connected" and changes nothing else: no
    socket is created and nothing is transmitted.  With no socket in
    [wsRef] it connects, parks the request on the new socket and returns
    [true]. *)
Theorem sendMessage_fails_only_while_closing c msg ts :
  (forall i ws,
      wsRef c = Some i -> sockets c !! i = Some ws ->
      (fst (sendMessage msg ts c) = false <->
       readyState ws = CLOSING \/ readyState ws = CLOSED) /\
      (fst (sendMessage msg ts c) = false ->
       snd (sendMessage msg ts c) =
         handleError (js "WebSocket not connected") c)) /\
  (wsRef c = None ->
   fst (sendMessage msg ts c) = true /\
   sockets (snd (sendMessage msg ts c)) =
     sockets c ++ [mkWebSocket (documentId c) CONNECTING
                     (OnOpenQueued (mkRequest msg ts)) []]).
Proof.
  split.
  - intros i ws Hr Hws. unfold sendMessage.
    rewrite Hr, (socket_state_lookup _ _ _ Hws), (connect_existing c i Hr).
    destruct (readyState ws) eqn:Ho;
      rewrite Hr, (socket_state_lookup _ _ _ Hws), Ho; simpl.
    + split; [split; [discriminate|intros [|]; discriminate]|discriminate].
    + split; [split; [discriminate|intros [|]; discriminate]|discriminate].
    + split; [split; [auto|reflexivity]|reflexivity].
    + split; [split; [auto|reflexivity]|reflexivity].
  - intros Hr. destruct (sendMessage_reconnects c msg ts Hr) as [Hsend Hs].
    split; [rewrite Hsend; reflexivity|exact Hs].
Qed.

Lemma sendMessage_fails_only_while_closing_witness :
  let c := ws_close 0 opened_client in
  sendMessage (js "hi") true c =
    (false, handleError (js "WebSocket not connected") c) /\
  fst (sendMessage (js "hi") true (fire (EvClose 0) c)) = true.
Proof.
  destruct (sendMessage_fails_only_while_closing
              (ws_close 0 opened_client) (js "hi") true) as [H1 _].
  destruct (sendMessage_fails_only_while_closing
              (fire (EvClose 0) (ws_close 0 opened_client)) (js "hi") true)
    as [_ H2].
  destruct (H1 0%nat (mkWebSocket (js "doc-1") CLOSING OnOpenConnect [])
              eq_refl eq_refl) as [Hiff Hsnd].
  assert (fst (sendMessage (js "hi") true (ws_close 0 opened_client)) = false)
    as Hf by (apply Hiff; left; reflexivity).
  split.
  - rewrite (surjective_pairing (sendMessage _ _ _)), Hf, (Hsnd Hf).
    reflexivity.
  - exact (proj1 (H2 eq_refl)).
Defined.

(** X8.  A submission made after the terminal frame called [close] and
    before the close event of the socket has run is refused: the user's
    message is appended to the log all the same, the error "WebSocket not
    connected" is shown, the input field keeps its text, no socket is
    created and nothing is transmitted. *)
Theorem submit_while_closing_is_refused c i ws :
  wsRef c = Some i -> sockets c !! i = Some ws -> readyState ws = CLOSING ->
  trim (input c) <> [] -> isStreaming c = false ->
  let c' := handleSubmit c in
  messages c' = messages c ++ [mkChatMessage user (trim (input c)) None None] /\
  error c' = Some (js "WebSocket not connected") /\
  input c' = input c /\ sockets c' = sockets c /\ wsRef c' = wsRef c /\
  isStreaming c' = false.
Proof.
  intros Hr Hws Ho Hin Hst. cbv zeta. unfold handleSubmit.
  destruct (trim (input c)) as [|ch r] eqn:E; [congruence|].
  rewrite Hst.
  match goal with |- context [sendMessage ?m ?t ?x] =>
    destruct (sendMessage_fails_only_while_closing_aux x m t i ws Hr Hws Ho)
      as [Hf Hsn];
    destruct (sendMessage m t x) as [sent c3]
  end.
  simpl in Hf, Hsn. subst sent c3.
  simpl. rewrite Hst. repeat split.
Qed.

(** The window in question: the scenario of the design document, up to
    and including the terminal frame. *)
Lemma submit_while_closing_is_refused_witness :
  let c :=
    run [TypeInput (js "Summarize"); Submit;
         EvMessage 0 (Some (token_frame (js "Hello")));
         EvMessage 0 (Some (terminal_frame [] []));
         TypeInput (js "And then?")] opened_client in
  let c' := handleSubmit c in
  error c' = Some (js "WebSocket not connected") /\
  input c' = js "And then?" /\
  length (messages c') = 3%nat /\ length (sockets c') = 1%nat.
Proof.
  destruct (submit_while_closing_is_refused
              (run [TypeInput (js "Summarize"); Submit;
                    EvMessage 0 (Some (token_frame (js "Hello")));
                    EvMessage 0 (Some (terminal_frame [] []));
                    TypeInput (js "And then?")] opened_client)
              0%nat
              (mkWebSocket (js "doc-1") CLOSING OnOpenConnect
                 [mkRequest (js "Summarize") true])
              eq_refl eq_refl eq_refl)
    as (H1 & H2 & H3 & H4 & _).
  - vm_compute. discriminate.
  - reflexivity.
  - split; [exact H2|]. split; [rewrite H3; reflexivity|].
    split; [rewrite H1|rewrite H4]; reflexivity.
Defined.

(** *** Disconnecting *)

Lemma ws_close_not_live i c ws :
  sockets c !! i = Some ws ->
  exists ws', sockets (ws_close i c) !! i = Some ws' /\ live ws' = false /\
              transmitted ws' = transmitted ws.
Proof.
  intros Hws. unfold ws_close.
  match goal with |- context [update_socket i ?f c] =>
    rewrite (update_socket_lookup c i f ws Hws)
  end.
  eexists. split; [reflexivity|].
  unfold live. destruct (readyState ws) eqn:E; simpl; rewrite ?E; auto.
Qed.

(** X9.  [disconnect] drops the reference to the socket, calls [close]
    on it (so that it is no longer live) and clears both flags; calling
    it again changes nothing; and the next send after it connects anew:
    it returns [true] and creates exactly one socket. *)
Theorem disconnect_then_reconnect c msg ts :
  let d := disconnect c in
  disconnect d = d /\
  wsRef d = None /\ isConnected d = false /\ isStreaming d = false /\
  (forall i ws, wsRef c = Some i -> sockets c !! i = Some ws ->
     exists ws', sockets d !! i = Some ws' /\ live ws' = false /\
                 transmitted ws' = transmitted ws) /\
  fst (sendMessage msg ts d) = true /\
  length (sockets (snd (sendMessage msg ts d))) = S (length (sockets c)) /\
  wsRef (snd (sendMessage msg ts d)) = Some (length (sockets c)).
Proof.
  cbv zeta.
  assert (wsRef (disconnect c) = None) as Hr
    by (unfold disconnect; destruct (wsRef c) eqn:E; simpl;
        [reflexivity|exact E]).
  assert (length (sockets (disconnect c)) = length (sockets c)) as Hlen.
  { unfold disconnect. destruct (wsRef c) as [i|]; simpl; [|reflexivity].
    unfold ws_close. apply update_socket_length. }
  split.
  - unfold disconnect at 1. rewrite Hr.
    unfold disconnect. destruct (wsRef c); reflexivity.
  - split; [exact Hr|]. split; [reflexivity|]. split; [reflexivity|].
    split.
    + intros i ws Hi Hws. unfold disconnect. rewrite Hi. simpl.
      apply ws_close_not_live, Hws.
    + destruct (sendMessage_reconnects (disconnect c) msg ts Hr) as [Hsend Hs].
      split; [rewrite Hsend; reflexivity|]. split.
      * rewrite Hs, length_app, Hlen. simpl. lia.
      * rewrite Hsend. cbn [snd].
        destruct (update_socket_frame (connect (disconnect c))
                    (length (sockets (disconnect c)))
                    (set_onopen (OnOpenQueued (mkRequest msg ts))))
          as (_ & _ & _ & -> & _).
        destruct (connect_fresh _ Hr) as [-> _]. rewrite Hlen. reflexivity.
Qed.

Lemma disconnect_then_reconnect_witness :
  let d := disconnect opened_client in
  (exists ws', sockets d !! 0%nat = Some ws' /\ live ws' = false /\
               transmitted ws' = []) /\
  fst (sendMessage (js "hi") true d) = true.
Proof.
  destruct (disconnect_then_reconnect opened_client (js "hi") true)
    as (_ & _ & _ & _ & H5 & H6 & _).
  split; [|exact H6].
  exact (H5 0%nat (mkWebSocket (js "doc-1") OPEN OnOpenConnect [])
           eq_refl eq_refl).
Defined.

End ChatMore.

(** ** More on seeking ([MediaPlayer.tsx], the seek effect and
       [onReady]) *)

Module SeekMore.
Import Seek SeekFacts.

Lemma seek_effect_not_ready st : isReady st = false -> seek_effect st = st.
Proof.
  intros H. unfold seek_effect. rewrite H.
  destruct (seekTimestamp st); reflexivity.
Qed.

(** A request made before the player is ready only records the
    position. *)
Lemma handleSeekToTimestamp_not_ready n st :
  isReady st = false ->
  handleSeekToTimestamp n st =
    mkState (Some n) false (readyOnceRef st) (playerRef st) (playing st)
      (Some (Some n, false)) (seekTo_calls st).
Proof.
  intros H. unfold handleSeekToTimestamp, commit.
  set (x := mkState (Some n) (isReady st) (readyOnceRef st) (playerRef st)
              (playing st) (effectDeps st) (seekTo_calls st)).
  assert (seek_effect x = x) as Hx by (apply seek_effect_not_ready; exact H).
  rewrite Hx. destruct (deps_changed x); subst x; simpl; rewrite H; reflexivity.
Qed.

(** X10.  While the player has not reported ready, seek requests only
    record the position: [seekTo] is not called.  When the player
    becomes ready it seeks once, to the position requested last (an
    earlier pending request is overwritten), and starts playing; a
    second ready event changes nothing. *)
Theorem seek_waits_for_ready st n m :
  isReady st = false -> readyOnceRef st = false -> playerRef st = true ->
  let a := handleSeekToTimestamp n st in
  let b := handleSeekToTimestamp m a in
  seekTo_calls a = seekTo_calls st /\
  seekTo_calls b = seekTo_calls st /\
  seekTo_calls (onReady b) = seekTo_calls st ++ [m] /\
  playing (onReady b) = true /\
  onReady (onReady b) = onReady b.
Proof.
  intros Hr Ho Hp. cbv zeta.
  rewrite (handleSeekToTimestamp_not_ready n st Hr).
  rewrite (handleSeekToTimestamp_not_ready m
             (mkState (Some n) false (readyOnceRef st) (playerRef st)
                (playing st) (Some (Some n, false)) (seekTo_calls st))
             eq_refl).
  cbn [readyOnceRef playerRef playing seekTo_calls]. rewrite Ho, Hp.
  split; [reflexivity|]. split; [reflexivity|].
  assert (onReady
            (mkState (Some m) false false true (playing st)
               (Some (Some m, false)) (seekTo_calls st)) =
          mkState (Some m) true true true true (Some (Some m, true))
            (seekTo_calls st ++ [m])) as Hready.
  { unfold onReady, commit, deps_changed, seek_effect. cbn.
    rewrite Object_is_refl. reflexivity. }
  rewrite Hready. repeat split.
Qed.

Lemma seek_waits_for_ready_witness :
  let st := commit initial in
  let b := handleSeekToTimestamp (number_of_N 3723)
             (handleSeekToTimestamp (number_of_N 83) st) in
  seekTo_calls b = [] /\ seekTo_calls (onReady b) = [number_of_N 3723].
Proof.
  destruct (seek_waits_for_ready (commit initial)
              (number_of_N 83) (number_of_N 3723) eq_refl eq_refl eq_refl)
    as (_ & H2 & H3 & _).
  split; [exact H2|exact H3].
Defined.

(** The requests that change the requested position: each request that
    differs, by [Object.is], from the one before it. *)
Fixpoint changes (prev : option number) (ns : list number) : list number :=
  match ns with
  | [] => []
  | n :: ns' =>
      if same_value prev (Some n) then changes (Some n) ns'
      else n :: changes (Some n) ns'
  end.

Definition requests (ns : list number) (st : State) : State :=
  fold_left (fun s n => handleSeekToTimestamp n s) ns st.

Lemma handleSeekToTimestamp_ready n st :
  isReady st = true -> playerRef st = true ->
  effectDeps st = Some (seekTimestamp st, true) ->
  let st' := handleSeekToTimestamp n st in
  isReady st' = true /\ playerRef st' = true /\
  effectDeps st' = Some (seekTimestamp st', true) /\
  seekTimestamp st' = Some n /\
  seekTo_calls st' =
    seekTo_calls st ++
    (if same_value (seekTimestamp st) (Some n) then [] else [n]).
Proof.
  intros Hr Hp Hd. cbv zeta.
  unfold handleSeekToTimestamp, commit, deps_changed.
  cbn [effectDeps seekTimestamp isReady]. rewrite Hd, Hr. cbn [Bool.eqb].
  rewrite Bool.andb_true_r.
  destruct (same_value (seekTimestamp st) (Some n)); cbn [negb].
  - cbn. rewrite Hp, app_nil_r. auto.
  - unfold seek_effect. cbn [seekTimestamp isReady playerRef].
    rewrite Hp. cbn. auto.
Qed.

(** X16.  On a player that has reported ready, the seeks performed are
    the requests that change the requested position: a request for the
    position already requested adds no call of [seekTo], every other
    request adds exactly one, in order, whatever the sequence of
    requests. *)
Theorem seeks_follow_position_changes (st : State) (ns : list number) :
  isReady st = true -> playerRef st = true ->
  effectDeps st = Some (seekTimestamp st, true) ->
  seekTo_calls (requests ns st) =
    seekTo_calls st ++ changes (seekTimestamp st) ns.
Proof.
  unfold requests. revert st.
  induction ns as [|n ns IH]; intros st Hr Hp Hd; simpl.
  - rewrite app_nil_r. reflexivity.
  - destruct (handleSeekToTimestamp_ready n st Hr Hp Hd)
      as (Hr' & Hp' & Hd' & Hs' & Hc').
    rewrite (IH _ Hr' Hp' Hd'), Hc', Hs', <- app_assoc.
    destruct (same_value (seekTimestamp st) (Some n)); reflexivity.
Qed.

Lemma seeks_follow_position_changes_witness :
  let a := number_of_N 83 in
  let b := number_of_N 3723 in
  seekTo_calls (requests [a; a; b; b; b; a] (onReady (commit initial))) = [a; b; a].
Proof.
  exact (seeks_follow_position_changes (onReady (commit initial))
           [number_of_N 83; number_of_N 83; number_of_N 3723;
            number_of_N 3723; number_of_N 3723; number_of_N 83]
           eq_refl eq_refl eq_refl).
Defined.

End SeekMore.

(** ** The chat socket's address ([api.ts], [createChatWebSocket]) *)

Module Api.

(** [s] starts with [pat]: what follows it. *)
Fixpoint starts_with (pat s : jsstring) : option jsstring :=
  match pat, s with
  | [], _ => Some s
  | p :: pat', c :: s' => if c =? p then starts_with pat' s' else None
  | _ :: _, [] => None
  end.

(** [s.replace(pat, rep)] with a string pattern: the first occurrence of
    [pat] is replaced, later ones are not.  ([rep] holds no [$].) *)
Fixpoint replace_first (pat rep s : jsstring) : jsstring :=
  match starts_with pat s with
  | Some rest => rep ++ rest
  | None =>
      match s with
      | [] => []
      | c :: s' => c :: replace_first pat rep s'
      end
  end.

(** The address [createChatWebSocket] opens, from the configured base
    address [VITE_API_BASE_URL]. *)
Definition chatWebSocketUrl (baseUrl documentId : jsstring) : jsstring :=
  let wsBase := replace_first (js "http") (js "ws") baseUrl in
  wsBase ++ js "/api/chat/stream/" ++ documentId.

End Api.

Module ApiFacts.
Import Api.

Lemma replace_first_absent pat rep s :
  (forall k, starts_with pat (drop k s) = None) ->
  replace_first pat rep s = s.
Proof.
  induction s as [|c s IH]; intros H.
  - specialize (H 0%nat). simpl in *. rewrite H. reflexivity.
  - pose proof (H 0%nat) as H0. rewrite drop_0 in H0.
    cbn [replace_first]. rewrite H0. f_equal.
    apply IH. intros k. apply (H (S k)).
Qed.

(** X11.  The socket address keeps the base address and swaps its
    scheme: a base that begins with "http" gets "ws" in its place, so
    "http://" becomes "ws://" and "https://" becomes "wss://", and
    whatever follows, a later "http" included, is kept as it is,
    followed by the stream path and the document id.  A base in which
    "http" does not occur is used unchanged. *)
Theorem chatWebSocketUrl_scheme (rest documentId : jsstring) :
  chatWebSocketUrl (js "http" ++ rest) documentId =
    js "ws" ++ rest ++ js "/api/chat/stream/" ++ documentId /\
  chatWebSocketUrl (js "https://" ++ rest) documentId =
    js "wss://" ++ rest ++ js "/api/chat/stream/" ++ documentId /\
  forall baseUrl,
    (forall k, starts_with (js "http") (drop k baseUrl) = None) ->
    chatWebSocketUrl baseUrl documentId =
      baseUrl ++ js "/api/chat/stream/" ++ documentId.
Proof.
  split; [|split].
  - unfold chatWebSocketUrl. cbv zeta.
    change (replace_first (js "http") (js "ws") (js "http" ++ rest))
      with (js "ws" ++ rest).
    rewrite <- app_assoc. reflexivity.
  - unfold chatWebSocketUrl. cbv zeta.
    change (replace_first (js "http") (js "ws") (js "https://" ++ rest))
      with (js "wss://" ++ rest).
    rewrite <- app_assoc. reflexivity.
  - intros baseUrl H. unfold chatWebSocketUrl. cbv zeta.
    rewrite replace_first_absent by exact H. reflexivity.
Qed.

Lemma chatWebSocketUrl_scheme_witness :
  chatWebSocketUrl (js "/backend") (js "doc-1") =
    js "/backend/api/chat/stream/doc-1".
Proof.
  destruct (chatWebSocketUrl_scheme [] (js "doc-1")) as (_ & _ & H).
  apply (H (js "/backend")).
  intros k. do 9 (destruct k as [|k]; [reflexivity|]). reflexivity.
Defined.

Example chatWebSocketUrl_local :
  chatWebSocketUrl (js "http://localhost:8000") (js "abc") =
    js "ws://localhost:8000/api/chat/stream/abc".
Proof. vm_compute. reflexivity. Qed.

Example chatWebSocketUrl_proxy :
  chatWebSocketUrl (js "https://http-proxy.example") (js "abc") =
    js "wss://http-proxy.example/api/chat/stream/abc".
Proof. vm_compute. reflexivity. Qed.

End ApiFacts.

(** ** The document collection of [App] ([App.tsx]: [loadDocuments],
       [handleUploadComplete], [handleSelectDocument],
       [handleDeleteDocument]; the rows of [DocumentList]) *)

Module App.

(** The state of [App] these handlers read and write: the collection,
    the selection and the polling timer (kept as in [Poller]), the
    requested seek position and the two progress flags.  (The
    [timestamps] state is written by an effect of its own and read by
    no handler here.)  The handlers of this module are the runs in which
    a handler that awaits a request resumes before anything else
    happens; [InFlight] below has the halves of such a handler as
    events of their own. *)
Record State := mkState {
  poll : Poller.State;
  seekTimestamp : option number;
  loading : bool;
  refreshing : bool
}.

Definition documents (st : State) : list Document := Poller.documents (poll st).

Definition selectedDocument (st : State) : option Document :=
  Poller.selectedDocument (poll st).

(** After a render in which [documents] or [selectedDocument] changed,
    the polling effect runs again. *)
Definition set_collection (docs : list Document) (sel : option Document)
  (st : State) : State :=
  mkState
    (Poller.poll_effect
       (Poller.mkState docs sel (Poller.interval (poll st))
          (Poller.queries (poll st))))
    (seekTimestamp st) (loading st) (refreshing st).

Definition initial : State :=
  mkState (Poller.init [] None) None true false.

(** [loadDocuments]; [response] is [None] when [getDocuments] fails. *)
Definition loadDocuments (response : option (list Document)) (st : State)
  : State :=
  let st1 :=
    match response with
    | Some docs => set_collection docs (selectedDocument st) st
    | None => st
    end in
  mkState (poll st1) (seekTimestamp st1) false false.

Definition handleRefresh (response : option (list Document)) (st : State)
  : State :=
  loadDocuments response
    (mkState (poll st) (seekTimestamp st) (loading st) true).

Definition handleUploadComplete (document : Document) (st : State) : State :=
  set_collection (document :: documents st) (Some document) st.

Definition handleSelectDocument (document : Document) (st : State) : State :=
  let st1 := set_collection (documents st) (Some document) st in
  mkState (poll st1) None (loading st1) (refreshing st1).

(** [handleDeleteDocument] when its request settles before anything
    else happens; [confirmed] is the answer to the confirmation dialog,
    [deleted] tells whether the delete request succeeded.  ([InFlight]
    below has the click and the settling of the request as two
    events.) *)
Definition handleDeleteDocument (confirmed deleted : bool)
  (documentId : jsstring) (st : State) : State :=
  if negb confirmed then st
  else if negb deleted then st
  else
    set_collection
      (List.filter (fun d => negb (str_eq (id d) documentId)) (documents st))
      (match selectedDocument st with
       | Some s => if str_eq (id s) documentId then None else Some s
       | None => None
       end)
      st.

(** A click on row [k] of [DocumentList]: [doc.processed && onSelect(doc)]. *)
Definition clickRow (k : nat) (st : State) : State :=
  match documents st !! k with
  | Some doc => if processed doc then handleSelectDocument doc st else st
  | None => st
  end.

(** A click on the delete button of row [k]. *)
Definition clickDelete (k : nat) (confirmed deleted : bool) (st : State)
  : State :=
  match documents st !! k with
  | Some doc => handleDeleteDocument confirmed deleted (id doc) st
  | None => st
  end.

(** A firing of the polling timer. *)
Definition tick (getDocumentStatus : jsstring -> option Document) (st : State)
  : State :=
  mkState (Poller.tick getDocumentStatus (poll st))
    (seekTimestamp st) (loading st) (refreshing st).

Inductive Event :=
| Load (response : option (list Document))
| Upload (document : Document)
| ClickRow (k : nat)
| ClickDelete (k : nat) (confirmed deleted : bool)
| Tick (getDocumentStatus : jsstring -> option Document)
| Refresh (response : option (list Document)).

Definition fire (e : Event) (st : State) : State :=
  match e with
  | Load response => loadDocuments response st
  | Upload document => handleUploadComplete document st
  | ClickRow k => clickRow k st
  | ClickDelete k confirmed deleted => clickDelete k confirmed deleted st
  | Tick g => tick g st
  | Refresh response => handleRefresh response st
  end.

Definition run (es : list Event) (st : State) : State :=
  fold_left (fun s e => fire e s) es st.

End App.

Module AppFacts.
Import App PollerFacts.

(** [settled p]: the timer is the one the polling effect installs for
    the collection and selection of [p]. *)
Definition settled (p : Poller.State) : Prop := Poller.poll_effect p = p.

Lemma poll_effect_settled p : settled (Poller.poll_effect p).
Proof.
  unfold settled, Poller.poll_effect. simpl.
  destruct (List.filter _ (Poller.documents p)) as [|x l] eqn:E; simpl;
    rewrite E; reflexivity.
Qed.


Lemma settled_closure p cl :
  settled p -> Poller.interval p = Some cl ->
  Poller.closure_selectedDocument cl = Poller.selectedDocument p /\
  Poller.unprocessedDocs cl =
    List.filter (fun d => negb (processed d)) (Poller.documents p).
Proof.
  intros Hs Hi. rewrite <- Hs in Hi. rewrite poll_effect_interval in Hi.
  cbv zeta in Hi.
  destruct (List.filter _ _) as [|x l] eqn:E; [discriminate|].
  injection Hi as <-. simpl. auto.
Qed.





Lemma set_collection_documents docs sel st :
  documents (set_collection docs sel st) = docs.
Proof. unfold documents, set_collection. simpl. apply poll_effect_documents. Qed.

Lemma set_collection_selected docs sel st :
  selectedDocument (set_collection docs sel st) = sel.
Proof.
  unfold selectedDocument, set_collection. simpl. apply poll_effect_selected.
Qed.




Lemma loadDocuments_collection docs st :
  selectedDocument (loadDocuments (Some docs) st) = selectedDocument st /\
  documents (loadDocuments (Some docs) st) = docs.
Proof.
  unfold loadDocuments, selectedDocument, documents, set_collection.
  cbn [poll]. rewrite poll_effect_selected, poll_effect_documents. auto.
Qed.

Definition doc_b (done_ : bool) : Document :=
  mkDocument (js "b") (js "lecture.mp4") video (number_of_N 4096)
    (if done_ then Some (js "A lecture.") else None) done_
    (js "2024-02-02T00:00:00Z") (number_of_N (if done_ then 7 else 0)).

Definition doc_c : Document :=
  mkDocument (js "c") (js "paper.pdf") pdf (number_of_N 2048)
    (Some (js "A paper.")) true (js "2024-03-03T00:00:00Z") (number_of_N 5).

Definition service_b (x : jsstring) : option Document :=
  if str_eq x (js "b") then Some (doc_b true) else None.

Lemma str_eq_false (x y : jsstring) : x <> y -> str_eq x y = false.
Proof.
  intros H. destruct (str_eq x y) eqn:E; [|reflexivity].
  apply str_eq_true in E. contradiction.
Qed.

(** X13.  An uploaded document that is not yet processed is put at the
    head of the list and selected at once, and the polling timer that is
    then installed lists it first: the next firing asks for its status
    before that of any other unprocessed document.  If the status
    service (answering with the id it is asked about) reports it
    processed at that firing, the selection becomes the reported record,
    and so does every record of the list with that id. *)
Theorem upload_starts_polling (st : State) (d : Document)
  (g : jsstring -> option Document) :
  processed d = false ->
  let st' := handleUploadComplete d st in
  let pending := List.filter (fun x => negb (processed x)) (documents st) in
  documents st' = d :: documents st /\
  selectedDocument st' = Some d /\
  Poller.interval (poll st') = Some (Poller.mkClosure (d :: pending) (Some d)) /\
  Poller.queries (poll (tick g st')) =
    Poller.queries (poll st) ++ id d :: map id pending /\
  (forall u,
     (forall x v, g x = Some v -> id v = x) ->
     g (id d) = Some u -> processed u = true ->
     selectedDocument (tick g st') = Some u /\
     forall x, In x (documents (tick g st')) -> id x = id d -> x = u).
Proof.
  intros Hp. cbv zeta. unfold handleUploadComplete.
  rewrite set_collection_documents, set_collection_selected.
  assert (Poller.interval (poll (set_collection (d :: documents st) (Some d) st))
          = Some (Poller.mkClosure
                    (d :: List.filter (fun x => negb (processed x)) (documents st))
                    (Some d))) as Hi.
  { unfold set_collection. cbn [poll]. rewrite poll_effect_interval.
    cbv zeta. cbn [Poller.documents Poller.selectedDocument List.filter].
    rewrite Hp. reflexivity. }
  split; [reflexivity|]. split; [reflexivity|]. split; [exact Hi|]. split.
  - unfold tick. cbn [poll]. rewrite (tick_queries g _ _ Hi).
    unfold set_collection. cbn [poll]. rewrite poll_effect_queries.
    reflexivity.
  - intros u Hg Hu Pu.
    set (st1 := set_collection (d :: documents st) (Some d) st) in *.
    unfold selectedDocument, documents, tick. cbn [poll].
    unfold Poller.tick. rewrite Hi.
    rewrite poll_effect_selected, poll_effect_documents.
    destruct (fold_establishes g Hg
                (Poller.mkClosure
                   (d :: List.filter (fun x => negb (processed x)) (documents st))
                   (Some d))
                (id d) u Hu Pu
                (d :: List.filter (fun x => negb (processed x)) (documents st))
                (poll st1)
                d (or_introl eq_refl) eq_refl) as [Hrep Hsel].
    split.
    + apply (Hsel d); reflexivity.
    + exact Hrep.
Qed.

Lemma upload_starts_polling_witness :
  let st := tick service_b (run [Upload doc_c; Upload (doc_b false)] initial) in
  selectedDocument st = Some (doc_b true) /\
  Poller.queries (poll st) = [js "b"].
Proof.
  destruct (upload_starts_polling (run [Upload doc_c] initial) (doc_b false)
              service_b eq_refl) as (_ & _ & _ & H4 & H5).
  split.
  - refine (proj1 (H5 (doc_b true) _ eq_refl eq_refl)).
    intros x v. unfold service_b.
    destruct (str_eq x (js "b")) eqn:E; [|discriminate].
    intros [= <-]. apply str_eq_true in E. symmetry. exact E.
  - exact H4.
Defined.

(** A firing replaces the selection by processed records only. *)
Lemma fold_selected_processed g cl l p :
  (forall s, Poller.selectedDocument p = Some s -> processed s = true) ->
  forall s, Poller.selectedDocument (fold_left (Poller.poll_one g cl) l p)
              = Some s -> processed s = true.
Proof.
  revert p. induction l as [|x l IH]; intros p H; simpl; [exact H|].
  apply IH. intros s. unfold Poller.poll_one.
  destruct (g (id x)) as [u|]; [|apply H].
  destruct (processed u) eqn:Pu; [|apply H]. simpl.
  destruct (Poller.closure_selectedDocument cl) as [s0|]; [|apply H].
  destruct (str_eq (id s0) (id u)); [|apply H].
  intros [= <-]. exact Pu.
Qed.

Definition selected_processed (st : State) : Prop :=
  forall s, selectedDocument st = Some s -> processed s = true.

Definition no_pending_upload (e : Event) : Prop :=
  match e with
  | Upload document => processed document = true
  | _ => True
  end.

Lemma fire_selected_processed e st :
  no_pending_upload e -> selected_processed st -> selected_processed (fire e st).
Proof.
  intros He H. destruct e as [r|d|k|k cf dl|g|r]; cbn [fire].
  - intros s. unfold loadDocuments. destruct r as [docs|]; [|apply H].
    unfold selectedDocument, set_collection. cbn [poll].
    rewrite poll_effect_selected. apply H.
  - intros s. unfold handleUploadComplete. rewrite set_collection_selected.
    intros [= <-]. exact He.
  - unfold clickRow. destruct (documents st !! k) as [doc|]; [|exact H].
    destruct (processed doc) eqn:P; [|exact H].
    intros s. unfold handleSelectDocument, selectedDocument, set_collection.
    cbn [poll]. rewrite poll_effect_selected. intros [= <-]. exact P.
  - unfold clickDelete, handleDeleteDocument.
    destruct (documents st !! k) as [doc|]; [|exact H].
    destruct cf; [|exact H]. destruct dl; [|exact H]. cbn [negb].
    intros s. rewrite set_collection_selected.
    destruct (selectedDocument st) as [s0|] eqn:E0; [|discriminate].
    destruct (str_eq (id s0) (id doc)); [discriminate|].
    intros [= <-]. apply H, E0.
  - intros s. unfold tick, selectedDocument. cbn [poll]. unfold Poller.tick.
    destruct (Poller.interval (poll st)) as [cl|]; [|apply H].
    rewrite poll_effect_selected. apply fold_selected_processed. exact H.
  - intros s. unfold handleRefresh, loadDocuments.
    destruct r as [docs|]; [|apply H].
    unfold selectedDocument, set_collection. cbn [poll].
    rewrite poll_effect_selected. apply H.
Qed.

(** X15.  Only an upload can select a document that is not yet
    processed: starting from the empty collection, after any sequence of
    loads and reloads of the list, clicks on rows, deletions, firings of
    the polling timer and uploads of processed documents, the selected
    document, if there is one, is processed (so the page shows its chat
    panel).  In particular a click on the row of an unprocessed document
    changes nothing. *)
Theorem selection_is_processed (es : list Event) :
  Forall no_pending_upload es ->
  selected_processed (run es initial) /\
  (forall k doc,
     documents (run es initial) !! k = Some doc -> processed doc = false ->
     fire (ClickRow k) (run es initial) = run es initial).
Proof.
  intros Hes. split.
  - assert (selected_processed initial) as Hinit by (intros s; discriminate).
    unfold run. revert Hinit. generalize initial.
    induction Hes as [|e es He _ IH]; intros st H; [exact H|].
    simpl. apply IH, fire_selected_processed; assumption.
  - intros k doc Hk Hp. cbn [fire]. unfold clickRow. rewrite Hk, Hp.
    reflexivity.
Qed.

Lemma selection_is_processed_witness :
  selected_processed
    (run [Load (Some [doc_b false; doc_c]); ClickRow 0; ClickRow 1;
          Tick service_b; Refresh None; ClickDelete 0 true true] initial).
Proof.
  apply (selection_is_processed
           [Load (Some [doc_b false; doc_c]); ClickRow 0; ClickRow 1;
            Tick service_b; Refresh None; ClickDelete 0 true true]).
  repeat constructor.
Defined.

End AppFacts.

(** ** Requests in flight ([App.tsx])

    The interval callback and [handleDeleteDocument] are [async]: each
    stops at an [await] and resumes when its request settles, with the
    values of the render it was created in, while the page goes on
    handling events.  Here every [await] is a point where other events
    may come in between. *)

Module InFlight.

(** A run of the interval callback suspended at
    [await getDocumentStatus(doc.id)]: the [selectedDocument] it closed
    over, and the documents of its [for] loop from the one it is waiting
    for on (none once it has returned). *)
Record Callback := mkCallback {
  callback_selectedDocument : option Document;
  awaited : list Document
}.

(** A run of [handleDeleteDocument] suspended at
    [await deleteDocument(documentId)]: its argument, and the
    [selectedDocument] of the render whose handler was called. *)
Record Deletion := mkDeletion {
  documentId : jsstring;
  deletion_selectedDocument : option Document
}.

(** The page, the callbacks started so far and the deletions requested
    so far ([None] once settled). *)
Record State := mkState {
  page : App.State;
  callbacks : list Callback;
  deletions : list (option Deletion)
}.

Definition initial : State := mkState App.initial [] [].

Definition poll (st : State) : Poller.State := App.poll (page st).

Definition set_poll (p : Poller.State) (st : State) : State :=
  mkState
    (App.mkState p (App.seekTimestamp (page st)) (App.loading (page st))
       (App.refreshing (page st)))
    (callbacks st) (deletions st).

(** [getDocumentStatus(doc.id)] is called. *)
Definition request (doc : Document) (p : Poller.State) : Poller.State :=
  Poller.mkState (Poller.documents p) (Poller.selectedDocument p)
    (Poller.interval p) (Poller.queries p ++ [id doc]).

(** The callback resumes with the answer to its request ([None]: the
    request failed): the body of the [try], then, when state was set,
    the render and the polling effect. *)
Definition resume (selectedDocument response : option Document)
  (p : Poller.State) : Poller.State :=
  match response with
  | Some updated =>
      if processed updated then
        Poller.poll_effect
          (Poller.mkState
             (map (fun d => if str_eq (id d) (id updated) then updated else d)
                (Poller.documents p))
             (match selectedDocument with
              | Some s =>
                  if str_eq (id s) (id updated) then Some updated
                  else Poller.selectedDocument p
              | None => Poller.selectedDocument p
              end)
             (Poller.interval p) (Poller.queries p))
      else p
  | None => p
  end.

(** The timer fires: a callback starts and runs up to its first
    [await]. *)
Definition timerFires (st : State) : State :=
  match Poller.interval (poll st) with
  | Some cl =>
      match Poller.unprocessedDocs cl with
      | doc :: _ =>
          let st1 := set_poll (request doc (poll st)) st in
          mkState (page st1)
            (callbacks st ++
               [mkCallback (Poller.closure_selectedDocument cl)
                  (Poller.unprocessedDocs cl)])
            (deletions st)
      | [] => st
      end
  | None => st
  end.

(** The request callback [j] is waiting for settles: the callback
    resumes and runs up to its next [await], or to its end. *)
Definition statusArrives (j : nat) (response : option Document) (st : State)
  : State :=
  match callbacks st !! j with
  | Some cb =>
      match awaited cb with
      | _ :: rest =>
          let p1 := resume (callback_selectedDocument cb) response (poll st) in
          let p2 :=
            match rest with
            | next :: _ => request next p1
            | [] => p1
            end in
          let st1 := set_poll p2 st in
          mkState (page st1)
            (<[j := mkCallback (callback_selectedDocument cb) rest]>
               (callbacks st))
            (deletions st)
      | [] => st
      end
  | None => st
  end.

(** A click on the delete button of row [k]: [handleDeleteDocument] up
    to its [await]; [confirmed] is the answer to the dialog. *)
Definition clickDelete (k : nat) (confirmed : bool) (st : State) : State :=
  match App.documents (page st) !! k with
  | Some doc =>
      if negb confirmed then st
      else
        mkState (page st) (callbacks st)
          (deletions st ++
             [Some (mkDeletion (id doc) (App.selectedDocument (page st)))])
  | None => st
  end.

(** The delete request of deletion [j] settles ([deleted]: it
    succeeded): the rest of [handleDeleteDocument]. *)
Definition deleteSettles (j : nat) (deleted : bool) (st : State) : State :=
  match deletions st !! j with
  | Some (Some del) =>
      let page1 :=
        if negb deleted then page st
        else
          App.set_collection
            (List.filter (fun d => negb (str_eq (id d) (documentId del)))
               (App.documents (page st)))
            (match deletion_selectedDocument del with
             | Some s =>
                 if str_eq (id s) (documentId del) then None
                 else App.selectedDocument (page st)
             | None => App.selectedDocument (page st)
             end)
            (page st) in
      mkState page1 (callbacks st) (<[j := None]> (deletions st))
  | _ => st
  end.

Definition on_page (f : App.State -> App.State) (st : State) : State :=
  mkState (f (page st)) (callbacks st) (deletions st).

Inductive Event :=
| Loaded (response : option (list Document))
| Upload (document : Document)
| ClickRow (k : nat)
| ClickDelete (k : nat) (confirmed : bool)
| DeleteSettles (j : nat) (deleted : bool)
| TimerFires
| StatusArrives (j : nat) (response : option Document).

Definition fire (e : Event) (st : State) : State :=
  match e with
  | Loaded response => on_page (App.loadDocuments response) st
  | Upload document => on_page (App.handleUploadComplete document) st
  | ClickRow k => on_page (App.clickRow k) st
  | ClickDelete k confirmed => clickDelete k confirmed st
  | DeleteSettles j deleted => deleteSettles j deleted st
  | TimerFires => timerFires st
  | StatusArrives j response => statusArrives j response st
  end.

Definition run (es : list Event) (st : State) : State :=
  fold_left (fun s e => fire e s) es st.

End InFlight.

Module InFlightFacts.
Import PollerFacts AppFacts InFlight.

(** Two poller states that differ at most in the timer. *)
Definition same_page (p q : Poller.State) : Prop :=
  Poller.documents p = Poller.documents q /\
  Poller.selectedDocument p = Poller.selectedDocument q /\
  Poller.queries p = Poller.queries q.

Lemma poll_effect_same p q :
  same_page p q -> Poller.poll_effect p = Poller.poll_effect q.
Proof.
  intros (Hd & Hs & Hq). unfold Poller.poll_effect.
  rewrite Hd, Hs, Hq. reflexivity.
Qed.

Lemma same_page_poll_effect p : same_page (Poller.poll_effect p) p.
Proof.
  repeat split;
    [apply poll_effect_documents|apply poll_effect_selected
    |apply poll_effect_queries].
Qed.

Lemma request_settled doc p : settled p -> settled (request doc p).
Proof.
  destruct p as [docs sel iv qs].
  unfold settled, request, Poller.poll_effect. cbn.
  intros H. destruct (List.filter _ docs) as [|x l];
    injection H as <-; reflexivity.
Qed.

Lemma resume_settled sel r p : settled p -> settled (resume sel r p).
Proof.
  intros H. unfold resume. destruct r as [u|]; [|exact H].
  destruct (processed u); [apply poll_effect_settled|exact H].
Qed.

(** Resuming with the answer does what the loop body does with it. *)
Lemma resume_poll_one g cl p q doc :
  same_page p (request doc q) ->
  same_page (resume (Poller.closure_selectedDocument cl) (g (id doc)) p)
    (Poller.poll_one g cl q doc).
Proof.
  intros (Hd & Hs & Hq). cbn in Hd, Hs, Hq.
  unfold resume, Poller.poll_one.
  destruct (g (id doc)) as [u|]; [|repeat split; assumption].
  destruct (processed u); [|repeat split; assumption].
  split; [|split].
  - rewrite poll_effect_documents. cbn. rewrite Hd. reflexivity.
  - rewrite poll_effect_selected. cbn. rewrite Hs. reflexivity.
  - rewrite poll_effect_queries. cbn. exact Hq.
Qed.

Lemma request_same doc p q :
  same_page p q -> same_page (request doc p) (request doc q).
Proof.
  intros (Hd & Hs & Hq). repeat split; cbn; congruence.
Qed.

Lemma statusArrives_awaiting j r st sel doc rest :
  callbacks st !! j = Some (mkCallback sel (doc :: rest)) ->
  poll (statusArrives j r st) =
    (let p1 := resume sel r (poll st) in
     match rest with
     | next :: _ => request next p1
     | [] => p1
     end) /\
  callbacks (statusArrives j r st) = <[j := mkCallback sel rest]> (callbacks st) /\
  deletions (statusArrives j r st) = deletions st.
Proof.
  intros H. unfold statusArrives. rewrite H. cbn. auto.
Qed.

(** The answers to the requests of one callback, arriving with nothing
    in between, take the page through the iterations of its loop. *)
Lemma uninterrupted_answers g cl j rest :
  forall doc st q,
    callbacks st !! j =
      Some (mkCallback (Poller.closure_selectedDocument cl) (doc :: rest)) ->
    same_page (poll st) (request doc q) -> settled (poll st) ->
    let st' := run (map (fun d => StatusArrives j (g (id d))) (doc :: rest)) st in
    same_page (poll st') (fold_left (Poller.poll_one g cl) (doc :: rest) q) /\
    settled (poll st').
Proof.
  induction rest as [|next rest IH]; intros doc st q Hcb Hsame Hset; cbv zeta.
  - cbn [map run fold_left fire].
    destruct (statusArrives_awaiting j (g (id doc)) st _ _ _ Hcb) as (-> & _).
    cbv zeta. split; [apply resume_poll_one, Hsame|apply resume_settled, Hset].
  - change (run (map (fun d => StatusArrives j (g (id d))) (doc :: next :: rest)) st)
      with (run (map (fun d => StatusArrives j (g (id d))) (next :: rest))
              (statusArrives j (g (id doc)) st)).
    change (fold_left (Poller.poll_one g cl) (doc :: next :: rest) q)
      with (fold_left (Poller.poll_one g cl) (next :: rest)
              (Poller.poll_one g cl q doc)).
    destruct (statusArrives_awaiting j (g (id doc)) st _ _ _ Hcb)
      as (Hp & Hc & _).
    apply IH.
    + rewrite Hc. apply list_lookup_insert_eq.
      apply lookup_lt_Some in Hcb. exact Hcb.
    + rewrite Hp. cbv zeta. apply request_same, resume_poll_one, Hsame.
    + rewrite Hp. cbv zeta. apply request_settled, resume_settled, Hset.
Qed.

(** [Poller.tick] is the firing whose requests are all answered before
    anything else happens. *)
Lemma tick_is_uninterrupted_firing g st :
  settled (poll st) ->
  let answers :=
    match Poller.interval (poll st) with
    | Some cl =>
        map (fun d => StatusArrives (length (callbacks st)) (g (id d)))
          (Poller.unprocessedDocs cl)
    | None => []
    end in
  poll (run (TimerFires :: answers) st) = Poller.tick g (poll st).
Proof.
  intros Hset. cbv zeta. unfold Poller.tick.
  destruct (Poller.interval (poll st)) as [cl|] eqn:Hi.
  - destruct (Poller.unprocessedDocs cl) as [|doc rest] eqn:Hdocs.
    { exfalso. destruct (settled_closure _ _ Hset Hi) as [_ Hu].
      rewrite <- Hset in Hi. rewrite poll_effect_interval in Hi.
      cbv zeta in Hi. rewrite <- Hu, Hdocs in Hi. discriminate. }
    assert (timerFires st =
            mkState (page (set_poll (request doc (poll st)) st))
              (callbacks st ++
                 [mkCallback (Poller.closure_selectedDocument cl) (doc :: rest)])
              (deletions st)) as Hfire.
    { unfold timerFires. rewrite Hi, Hdocs. reflexivity. }
    change (run (TimerFires :: ?l) st) with (run l (timerFires st)).
    rewrite Hfire.
    match goal with |- poll (run _ ?s) = _ =>
      destruct (uninterrupted_answers g cl (length (callbacks st)) rest doc s
                  (poll st)) as [Hsame Hset']
    end.
    + cbn [callbacks]. apply list_lookup_middle. reflexivity.
    + repeat split.
    + cbn. apply request_settled, Hset.
    + rewrite <- Hset'. apply poll_effect_same, Hsame.
  - cbn. unfold timerFires. rewrite Hi. reflexivity.
Qed.

(** [App.clickDelete] is the deletion whose request settles before
    anything else happens. *)
Lemma clickDelete_is_uninterrupted_deletion k confirmed deleted st :
  page (run [ClickDelete k confirmed;
             DeleteSettles (length (deletions st)) deleted] st) =
  App.clickDelete k confirmed deleted (page st).
Proof.
  cbn. unfold clickDelete, App.clickDelete, App.handleDeleteDocument.
  destruct (App.documents (page st) !! k) as [doc|] eqn:Hk.
  - destruct confirmed; cbn [negb].
    + unfold deleteSettles. cbn [deletions].
      rewrite list_lookup_middle by reflexivity. cbn.
      destruct deleted; cbn; [|reflexivity].
      destruct (App.selectedDocument (page st)) as [s|]; [|reflexivity].
      destruct (str_eq (id s) (id doc)); reflexivity.
    + unfold deleteSettles.
      rewrite (lookup_ge_None_2 (deletions st)) by lia. reflexivity.
  - unfold deleteSettles.
    rewrite (lookup_ge_None_2 (deletions st)) by lia. reflexivity.
Qed.

(** *** Firings that overlap *)

(** An answer that does not report the document processed: it is still
    unprocessed, or the request failed. *)
Definition not_processed (response : option Document) : Prop :=
  match response with
  | Some u => processed u = false
  | None => True
  end.

Lemma resume_not_processed sel r p : not_processed r -> resume sel r p = p.
Proof.
  unfold resume. destruct r as [u|]; [|reflexivity]. cbn. intros ->. reflexivity.
Qed.



Lemma timerFires_running st cl doc rest :
  Poller.interval (poll st) = Some cl ->
  Poller.unprocessedDocs cl = doc :: rest ->
  poll (fire TimerFires st) = request doc (poll st) /\
  callbacks (fire TimerFires st) =
    callbacks st ++
      [mkCallback (Poller.closure_selectedDocument cl) (doc :: rest)] /\
  deletions (fire TimerFires st) = deletions st.
Proof.
  intros Hi Hd. cbn [fire]. unfold timerFires. rewrite Hi, Hd. cbn. auto.
Qed.

Lemma fire_statusArrives j r st sel doc rest :
  callbacks st !! j = Some (mkCallback sel (doc :: rest)) ->
  poll (fire (StatusArrives j r) st) =
    (let p1 := resume sel r (poll st) in
     match rest with
     | next :: _ => request next p1
     | [] => p1
     end) /\
  callbacks (fire (StatusArrives j r) st) =
    <[j := mkCallback sel rest]> (callbacks st) /\
  deletions (fire (StatusArrives j r) st) = deletions st.
Proof. apply statusArrives_awaiting. Qed.

Ltac red_p H :=
  cbn [request Poller.documents Poller.selectedDocument Poller.interval
       Poller.queries app] in H.
Ltac red_c H := cbn [app insert list_insert] in H.

Definition queried (a : jsstring) (st : State) : nat :=
  times_queried a (poll st).

(** C9.  What the code does when two firings of the timer overlap.  The
    list holds two unprocessed documents, [b] before [a], and the status
    of [b] takes longer than the period: the timer fires a second time
    while the first callback still waits for [b].  The first callback
    then asks about [a] and finds it processed: the record of [a] is
    replaced and the new timer lists [b] only.  The second callback,
    which still holds the list of the old timer, then gets its answer
    about [b] and asks for the status of [a] once more: polling for [a]
    has not stopped. *)
Theorem stale_callback_queries_processed_document
  (a b upd : Document) (rb rb' : option Document) :
  processed a = false -> processed b = false ->
  processed upd = true -> id upd = id a -> id b <> id a ->
  not_processed rb -> not_processed rb' ->
  let observed :=
    run [Loaded (Some [b; a]); TimerFires; TimerFires;
         StatusArrives 0 rb; StatusArrives 0 (Some upd)] initial in
  let later := fire (StatusArrives 1 rb') observed in
  Poller.documents (poll observed) = [b; upd] /\
  Poller.interval (poll observed) = Some (Poller.mkClosure [b] None) /\
  Poller.queries (poll observed) = [id b; id b; id a] /\
  Poller.queries (poll later) = [id b; id b; id a; id a] /\
  queried (id a) later = S (queried (id a) observed).
Proof.
  intros Ha Hb Hu Hid Hne Hrb Hrb'. cbv zeta.
  unfold run. cbn [fold_left].
  remember (fire (Loaded (Some [b; a])) initial) as s1 eqn:E1.
  assert (poll s1 = Poller.mkState [b; a] None (Some (Poller.mkClosure [b; a] None)) []
          /\ callbacks s1 = []) as [P1 C1].
  { subst s1. cbn. unfold Poller.poll_effect. cbn. rewrite Hb, Ha. cbn. auto. }
  clear E1.
  destruct (timerFires_running s1 (Poller.mkClosure [b; a] None) b [a])
    as (P2 & C2 & _); [rewrite P1; reflexivity|reflexivity|].
  rewrite P1 in P2. rewrite C1 in C2. red_p P2; red_c C2.
  remember (fire TimerFires s1) as s2 eqn:E2 in *. clear E2 P1 C1 s1.
  destruct (timerFires_running s2 (Poller.mkClosure [b; a] None) b [a])
    as (P3 & C3 & _); [rewrite P2; reflexivity|reflexivity|].
  rewrite P2 in P3. rewrite C2 in C3. red_p P3; red_c C3.
  remember (fire TimerFires s2) as s3 eqn:E3 in *. clear E3 P2 C2 s2.
  destruct (fire_statusArrives 0 rb s3 None b [a]) as (P4 & C4 & _);
    [rewrite C3; reflexivity|].
  rewrite (resume_not_processed _ _ _ Hrb), P3 in P4. rewrite C3 in C4.
  red_p P4; red_c C4.
  remember (fire (StatusArrives 0 rb) s3) as s4 eqn:E4 in *. clear E4 P3 C3 s3.
  destruct (fire_statusArrives 0 (Some upd) s4 None a []) as (P5 & C5 & _);
    [rewrite C4; reflexivity|].
  rewrite P4 in P5. rewrite C4 in C5. red_c C5.
  remember (fire (StatusArrives 0 (Some upd)) s4) as s5 eqn:E5 in *. clear E5 P4 C4 s4.
  assert (poll s5 =
          Poller.mkState [b; upd] None (Some (Poller.mkClosure [b] None))
            [id b; id b; id a]) as P5'.
  { rewrite P5. cbv zeta. unfold resume, request, Poller.poll_effect. cbn.
    rewrite Hu, Hid, (str_eq_false _ _ Hne), str_eq_refl. cbn.
    rewrite Hb, Hu. reflexivity. }
  clear P5.
  destruct (fire_statusArrives 1 rb' s5 None b [a]) as (P6 & _);
    [rewrite C5; reflexivity|].
  rewrite (resume_not_processed _ _ _ Hrb'), P5' in P6.
  unfold queried, times_queried. rewrite P6, P5'.
  cbn [request Poller.documents Poller.interval Poller.queries app].
  split; [reflexivity|]. split; [reflexivity|]. split; [reflexivity|].
  split; [reflexivity|].
  cbn [List.filter].
  rewrite (str_eq_false (id a) (id b)) by congruence.
  rewrite str_eq_refl. reflexivity.
Qed.

Lemma stale_callback_queries_processed_document_witness :
  let observed :=
    run [Loaded (Some [doc_b false; doc_a false]); TimerFires; TimerFires;
         StatusArrives 0 (Some (doc_b false));
         StatusArrives 0 (Some (doc_a true))] initial in
  Poller.documents (poll observed) = [doc_b false; doc_a true] /\
  Poller.queries (poll observed) = [js "b"; js "b"; js "a"] /\
  Poller.queries (poll (fire (StatusArrives 1 None) observed)) =
    [js "b"; js "b"; js "a"; js "a"].
Proof.
  destruct (stale_callback_queries_processed_document
              (doc_a false) (doc_b false) (doc_a true)
              (Some (doc_b false)) None
              eq_refl eq_refl eq_refl eq_refl
              ltac:(intros H; vm_compute in H; discriminate H)
              eq_refl I)
    as (H1 & _ & H3 & H4 & _).
  split; [exact H1|]. split; [exact H3|exact H4].
Defined.

(** *** When polling for a document does stop *)

Definition timer_skips (a : jsstring) (p : Poller.State) : Prop :=
  forall cl, Poller.interval p = Some cl ->
             ~ In a (map id (Poller.unprocessedDocs cl)).

(** Nothing will ask for the status of [a] any more: its records are
    processed (or gone), the timer does not list it, and no callback in
    flight has it further down its list. *)
Definition stopped (a : jsstring) (st : State) : Prop :=
  all_processed a (poll st) /\
  timer_skips a (poll st) /\
  forall j cb, callbacks st !! j = Some cb ->
               ~ In a (map id (tail (awaited cb))).

(** The events that bring no unprocessed record of [a] into the
    collection. *)
Definition keeps_out (a : jsstring) (e : Event) : Prop :=
  match e with
  | Loaded (Some docs) =>
      forall d, In d docs -> id d = a -> processed d = true
  | Upload d => id d = a -> processed d = true
  | _ => True
  end.

Lemma request_keeps a doc p :
  id doc <> a ->
  all_processed a p -> timer_skips a p ->
  all_processed a (request doc p) /\ timer_skips a (request doc p) /\
  times_queried a (request doc p) = times_queried a p.
Proof.
  intros Hne Hd Ht. split; [exact Hd|]. split; [exact Ht|].
  unfold times_queried, request. cbn [Poller.queries].
  apply filter_app_none. intros [H|[]]. congruence.
Qed.

Lemma resume_keeps a sel r p :
  all_processed a p -> timer_skips a p ->
  all_processed a (resume sel r p) /\ timer_skips a (resume sel r p) /\
  times_queried a (resume sel r p) = times_queried a p.
Proof.
  intros Hd Ht. unfold resume.
  destruct r as [u|]; [|auto]. destruct (processed u) eqn:Pu; [|auto].
  match goal with |- context [Poller.poll_effect ?q] =>
    assert (all_processed a q) as Hq
  end.
  { intros d. cbn [Poller.documents]. rewrite in_map_iff.
    intros (d0 & Hd0 & Hin) Ha.
    destruct (str_eq (id d0) (id u)); subst d; [exact Pu|].
    apply (Hd d0 Hin Ha). }
  split; [|split].
  - unfold all_processed. rewrite poll_effect_documents. exact Hq.
  - intros cl Hi. apply (poll_effect_skips a _ cl Hq Hi).
  - unfold times_queried. rewrite poll_effect_queries. reflexivity.
Qed.

Lemma set_collection_keeps a docs sel pg :
  (forall d, In d docs -> id d = a -> processed d = true) ->
  all_processed a (App.poll (App.set_collection docs sel pg)) /\
  timer_skips a (App.poll (App.set_collection docs sel pg)) /\
  times_queried a (App.poll (App.set_collection docs sel pg)) =
    times_queried a (App.poll pg).
Proof.
  intros Hd. unfold App.set_collection. cbn [App.poll].
  match goal with |- context [Poller.poll_effect ?q] =>
    assert (all_processed a q) as Hq by exact Hd
  end.
  split; [|split].
  - unfold all_processed. rewrite poll_effect_documents. exact Hq.
  - intros cl Hi. apply (poll_effect_skips a _ cl Hq Hi).
  - unfold times_queried. rewrite poll_effect_queries. reflexivity.
Qed.

Lemma fire_stopped a e st :
  keeps_out a e -> stopped a st ->
  stopped a (fire e st) /\ queried a (fire e st) = queried a st.
Proof.
  intros He (Hd & Ht & Hc). unfold stopped, queried.
  destruct e as [r|d|k|k cf|j dl| |j r]; cbn [fire].
  - (* Loaded *)
    unfold on_page, poll. cbn [page callbacks].
    unfold App.loadDocuments. cbn [App.poll].
    destruct r as [docs|]; [|auto].
    destruct (set_collection_keeps a docs (App.selectedDocument (page st))
                (page st) He) as (H1 & H2 & H3).
    auto.
  - (* Upload *)
    unfold on_page, poll. cbn [page callbacks]. unfold App.handleUploadComplete.
    destruct (set_collection_keeps a (d :: App.documents (page st)) (Some d)
                (page st)) as (H1 & H2 & H3); [|auto].
    intros x [<-|Hin]; [exact He|apply Hd, Hin].
  - (* ClickRow *)
    unfold on_page, poll. cbn [page callbacks]. unfold App.clickRow.
    destruct (App.documents (page st) !! k) as [doc|]; [|auto].
    destruct (processed doc); [|auto].
    unfold App.handleSelectDocument. cbn [App.poll].
    destruct (set_collection_keeps a (App.documents (page st)) (Some doc)
                (page st) Hd) as (H1 & H2 & H3).
    auto.
  - (* ClickDelete *)
    unfold clickDelete. destruct (App.documents (page st) !! k); [|auto].
    destruct (negb cf); auto.
  - (* DeleteSettles *)
    unfold deleteSettles. destruct (deletions st !! j) as [[del|]|]; [|auto|auto].
    unfold poll. cbn [page callbacks]. destruct (negb dl); [auto|].
    match goal with |- context [App.set_collection ?docs ?sel ?pg] =>
      destruct (set_collection_keeps a docs sel pg) as (H1 & H2 & H3)
    end; [|auto].
    intros x Hin. apply filter_In in Hin as [Hin _]. apply Hd, Hin.
  - (* TimerFires *)
    destruct (Poller.interval (poll st)) as [cl|] eqn:Hi;
      [|unfold timerFires; rewrite Hi; auto].
    destruct (Poller.unprocessedDocs cl) as [|doc rest] eqn:Hdocs;
      [unfold timerFires; rewrite Hi, Hdocs; auto|].
    pose proof (Ht cl Hi) as Hcl. rewrite Hdocs in Hcl.
    assert (id doc <> a) as Hne by (intros E; apply Hcl; left; exact E).
    destruct (request_keeps a doc (poll st) Hne Hd Ht) as (H1 & H2 & H3).
    destruct (timerFires_running st cl doc rest Hi Hdocs) as (Pp & Pc & _).
    cbn [fire] in Pp, Pc. rewrite Pp, Pc.
    split; [|exact H3]. split; [exact H1|]. split; [exact H2|].
    intros i cb Hcb. apply lookup_snoc_Some in Hcb as [[_ Hcb]|[_ <-]].
    + apply (Hc i cb Hcb).
    + cbn [awaited tail]. intros Hin. apply Hcl. right. exact Hin.
  - (* StatusArrives *)
    destruct (callbacks st !! j) as [[sel [|doc rest]]|] eqn:Hcb;
      [unfold statusArrives; rewrite Hcb; auto| |
       unfold statusArrives; rewrite Hcb; auto].
    pose proof (Hc j _ Hcb) as Hrest. cbn [awaited tail] in Hrest.
    destruct (resume_keeps a sel r (poll st) Hd Ht) as (H1 & H2 & H3).
    destruct (statusArrives_awaiting j r st sel doc rest Hcb) as (Pp & Pc & _).
    rewrite Pp, Pc. cbv zeta.
    assert (forall i cb', <[j := mkCallback sel rest]> (callbacks st) !! i
                            = Some cb' ->
                          ~ In a (map id (tail (awaited cb')))) as Hc'.
    { intros i cb' Hi. apply list_lookup_insert_Some in Hi
        as [(_ & <- & _)|[_ Hi]]; [|apply (Hc i cb' Hi)].
      cbn [awaited]. intros Hin. apply Hrest.
      destruct rest; [destruct Hin|right; exact Hin]. }
    destruct rest as [|next rest'].
    + auto.
    + assert (id next <> a) as Hne by (intros E; apply Hrest; left; exact E).
      destruct (request_keeps a next _ Hne H1 H2) as (K1 & K2 & K3).
      split; [auto|]. rewrite K3. exact H3.
Qed.

(** Once polling for [a] has stopped, nothing asks for its status
    again, whatever is clicked, fires or arrives, in whatever order, as
    long as no unprocessed record of [a] is brought in. *)
Lemma polling_stops a es st :
  Forall (keeps_out a) es -> stopped a st ->
  stopped a (run es st) /\ queried a (run es st) = queried a st.
Proof.
  unfold run. intros Hes. revert st.
  induction Hes as [|e es He _ IH]; intros st Hst; [auto|].
  cbn [fold_left].
  destruct (fire_stopped a e st He Hst) as [H1 H2].
  destruct (IH _ H1) as [H3 H4]. split; [exact H3|congruence].
Qed.

(** *** Deleting a document *)

Lemma deleteSettles_pending j deleted st del :
  deletions st !! j = Some (Some del) ->
  page (fire (DeleteSettles j deleted) st) =
    (if deleted then
       App.set_collection
         (List.filter (fun d => negb (str_eq (id d) (documentId del)))
            (App.documents (page st)))
         (match deletion_selectedDocument del with
          | Some s =>
              if str_eq (id s) (documentId del) then None
              else App.selectedDocument (page st)
          | None => App.selectedDocument (page st)
          end)
         (page st)
     else page st) /\
  callbacks (fire (DeleteSettles j deleted) st) = callbacks st /\
  deletions (fire (DeleteSettles j deleted) st) = <[j := None]> (deletions st).
Proof.
  intros H. cbn [fire]. unfold deleteSettles. rewrite H.
  destruct deleted; cbn; auto.
Qed.

(** A deletion stays pending until its own request settles. *)
Lemma fire_keeps_deletion j del e st :
  (forall deleted, e <> DeleteSettles j deleted) ->
  deletions st !! j = Some (Some del) ->
  deletions (fire e st) !! j = Some (Some del).
Proof.
  intros He H. destruct e as [r|d|k|k cf|i dl| |i r]; cbn [fire].
  - exact H.
  - exact H.
  - exact H.
  - unfold clickDelete. destruct (App.documents (page st) !! k); [|exact H].
    destruct (negb cf); [exact H|]. cbn [deletions].
    apply lookup_app_l_Some, H.
  - unfold deleteSettles.
    destruct (deletions st !! i) as [[del'|]|] eqn:Hi; try exact H.
    cbn [deletions]. rewrite list_lookup_insert_ne; [exact H|].
    intros ->. apply (He dl). reflexivity.
  - unfold timerFires. destruct (Poller.interval (poll st)) as [cl|]; [|exact H].
    destruct (Poller.unprocessedDocs cl); exact H.
  - unfold statusArrives. destruct (callbacks st !! i) as [cb|]; [|exact H].
    destruct (awaited cb); exact H.
Qed.

Lemma run_keeps_deletion j del es st :
  Forall (fun e => forall deleted, e <> DeleteSettles j deleted) es ->
  deletions st !! j = Some (Some del) ->
  deletions (run es st) !! j = Some (Some del).
Proof.
  unfold run. intros Hes. revert st.
  induction Hes as [|e es He _ IH]; intros st H; [exact H|].
  cbn [fold_left]. apply IH, fire_keeps_deletion; assumption.
Qed.

(** X12.  Deleting row [k], with anything happening between the click
    and the answer to the delete request.  When the request has
    succeeded, no record with the row's id is left in the list, and the
    other records of the list are kept in their order.  The selection is
    cleared if the document selected when the button was clicked had
    that id, and is otherwise left as it is at that moment, whichever
    document is selected by then.  If no status callback in flight has
    the id further down its list, nothing asks for the status of the
    deleted id again, as long as no unprocessed record of it is brought
    in.  When the request fails the page is left as it is, and a
    dismissed dialog changes nothing. *)
Theorem delete_removes_document (st0 : State) (k : nat) (doc : Document)
  (es : list Event) :
  App.documents (page st0) !! k = Some doc ->
  let j := length (deletions st0) in
  Forall (fun e => forall deleted, e <> DeleteSettles j deleted) es ->
  let st := run es (fire (ClickDelete k true) st0) in
  let st' := fire (DeleteSettles j true) st in
  App.documents (page st') =
    List.filter (fun d => negb (str_eq (id d) (id doc)))
      (App.documents (page st)) /\
  ~ In (id doc) (map id (App.documents (page st'))) /\
  App.selectedDocument (page st') =
    match App.selectedDocument (page st0) with
    | Some s =>
        if decide (id s = id doc) then None
        else App.selectedDocument (page st)
    | None => App.selectedDocument (page st)
    end /\
  ((forall i cb, callbacks st !! i = Some cb ->
                 ~ In (id doc) (map id (tail (awaited cb)))) ->
   forall es', Forall (keeps_out (id doc)) es' ->
               queried (id doc) (run es' st') = queried (id doc) st) /\
  page (fire (DeleteSettles j false) st) = page st /\
  fire (ClickDelete k false) st0 = st0.
Proof.
  intros Hk j Hes st st'.
  assert (deletions st !! j =
          Some (Some (mkDeletion (id doc) (App.selectedDocument (page st0)))))
    as Hdel.
  { subst st. apply run_keeps_deletion; [exact Hes|].
    cbn [fire]. unfold clickDelete. rewrite Hk. cbn [negb deletions].
    apply list_lookup_middle. reflexivity. }
  destruct (deleteSettles_pending j true st _ Hdel) as (Hp & Hc & _).
  destruct (deleteSettles_pending j false st _ Hdel) as (Hp' & _).
  fold st' in Hp, Hc. cbn [documentId deletion_selectedDocument] in Hp.
  assert (App.documents (page st') =
          List.filter (fun d => negb (str_eq (id d) (id doc)))
            (App.documents (page st))) as Hdocs
    by (rewrite Hp; apply set_collection_documents).
  split; [exact Hdocs|]. split; [|split; [|split; [|split]]].
  - intros Hin. apply in_map_iff in Hin as (d & Hd & Hin).
    rewrite Hdocs in Hin. apply filter_In in Hin as [_ Hne].
    rewrite Hd, str_eq_refl in Hne. discriminate.
  - rewrite Hp, set_collection_selected.
    destruct (App.selectedDocument (page st0)) as [s|]; [|reflexivity].
    destruct (decide (id s = id doc)) as [E|E].
    + rewrite E, str_eq_refl. reflexivity.
    + rewrite (str_eq_false _ _ E). reflexivity.
  - intros Hcb es' Hes'.
    assert (stopped (id doc) st' /\ queried (id doc) st' = queried (id doc) st)
      as [Hst Hq].
    { unfold stopped, queried, poll. rewrite Hp, Hc.
      match goal with |- context [App.set_collection ?docs ?sel ?pg] =>
        destruct (set_collection_keeps (id doc) docs sel pg) as (H1 & H2 & H3)
      end.
      - intros d Hin Hd. apply filter_In in Hin as [_ Hne].
        rewrite Hd, str_eq_refl in Hne. discriminate.
      - auto. }
    destruct (polling_stops (id doc) es' st' Hes' Hst) as [_ H]. congruence.
  - exact Hp'.
  - cbn [fire]. unfold clickDelete.
    destruct (App.documents (page st0) !! k); reflexivity.
Qed.

(** *** When the selection stays in the list *)
















(** A row is clicked while the delete request for it is in flight: the
    document leaves the list and stays selected. *)
Lemma delete_removes_document_witness :
  let st0 := run [Upload doc_c; Upload (doc_b false)] initial in
  let st' := run [ClickDelete 1 true; ClickRow 1; DeleteSettles 0 true] st0 in
  App.documents (page st') = [doc_b false] /\
  App.selectedDocument (page st') = Some doc_c.
Proof.
  destruct (delete_removes_document
              (run [Upload doc_c; Upload (doc_b false)] initial) 1 doc_c
              [ClickRow 1] eq_refl
              ltac:(constructor; [intros deleted; discriminate|constructor]))
    as (H1 & _ & H3 & _).
  split; (etransitivity; [eassumption|reflexivity]).
Defined.


End InFlightFacts.
